(** * Procedural chiptune engine: [SoundManager] of [undertale.py]

    A shallow embedding of the waveform generators, the drum kit, the loop
    composer, the playback controller and the per-frame mixer of the
    [SoundManager] class, followed by the properties its specification
    states about them.

    Numbers.  Python floats are modelled as exact rationals ([Q]); the
    rounding of binary64 arithmetic is outside this model.  Conversions to
    integers ([int(...)], [astype(np.int16)]) are the truncations they are.
    Where a statement depends on a sample count at the device's rate, the
    count is also computed on binary64 numbers and found equal.  The value
    of a single sample can depend on rounding, so the tone generators and
    the noise generator are given a second time on binary64 numbers
    ([Binary64]), and what is stated about sample values is stated there;
    the rational generators serve for the sample counts, the failures and
    the samples that are exactly zero.

    Effects.  [np.exp], [np.sin] and [np.pi] are an interface ([NumPy]);
    [np.random] is a stream threaded through the generators that draw from
    it; the audio device is a [Backend], and every channel operation and
    every loop generation is appended to a list of events. *)

From Stdlib Require Import ZArith QArith Qround Qabs Qminmax Qpower Lia Lqa.
From Stdlib Require Import PrimFloat FloatOps SpecFloat.
From stdpp Require Import base option list strings gmap.

Local Open Scope Z_scope.

(** ** Numeric primitives *)

(** Python's [int(x)] on a float: truncation toward zero. *)
Definition py_int (x : Q) : Z := Z.quot (Qnum x) (Zpos (Qden x)).

(** Python's [round(x)] on a float: nearest integer, ties to even. *)
Definition py_round (x : Q) : Z :=
  let f := Qfloor x in
  match ((x - inject_Z f) ?= 1 # 2)%Q with
  | Lt => f
  | Gt => f + 1
  | Eq => if Z.even f then f else f + 1
  end.

(** [x % 1.0]: the result takes the sign of the divisor, so it is
    [x - floor(x)]. *)
Definition py_mod1 (x : Q) : Q := (x - inject_Z (Qfloor x))%Q.

Definition np_floor (x : Q) : Q := inject_Z (Qfloor x).

Definition Qlt_bool (x y : Q) : bool := negb (Qle_bool y x).

(** Two's complement wrap-around of a 16-bit signed integer. *)
Definition wrap_int16 (z : Z) : Z := (z + 32768) mod 65536 - 32768.

(** [a.astype(np.int16)] on one float: truncate, then keep the low 16 bits. *)
Definition astype_int16 (x : Q) : Z := wrap_int16 (py_int x).

(** [np.linspace(start, stop, num, endpoint)]: [num] points with step
    [(stop - start) / div], [div] being [num - 1] with the end point and
    [num] without it; a single point is [start]. *)
Definition np_linspace (start stop : Q) (num : nat) (endpoint : bool) : list Q :=
  let div := if endpoint then (num - 1)%nat else num in
  let step := ((stop - start) / inject_Z (Z.of_nat div))%Q in
  (λ i : nat, (start + inject_Z (Z.of_nat i) * step)%Q) <$> seq 0 num.

(** [a[start:stop] = src] for one-dimensional arrays.  The slice is clipped
    to the array; [src] must have the length of the clipped slice or length
    one (broadcast), otherwise numpy raises [ValueError]. *)
Definition np_setitem_slice (a : list Q) (start stop : nat) (src : list Q)
  : option (list Q) :=
  let stop' := (stop `min` length a)%nat in
  let start' := (start `min` stop')%nat in
  let n := (stop' - start')%nat in
  if decide (length src = n) then Some (take start' a ++ src ++ drop stop' a)
  else match src with
       | [x] => Some (take start' a ++ replicate n x ++ drop stop' a)
       | _ => None
       end.

(** ** Sounds and the audio backend *)

(** A [pygame.mixer.Sound] made from an [(n, 2)] int16 array: [n] stereo
    sample pairs. *)
Abbreviation Sound := (list (Z * Z)).

(** [np.repeat(wave.reshape(-1, 1), 2, axis=1)]. *)
Definition np_repeat2 (wave : list Z) : list (Z * Z) := (λ v, (v, v)) <$> wave.

Definition make_sound (stereo : list (Z * Z)) : option Sound := Some stereo.

(** The three loops of a theme: bass, melody, drums. *)
Abbreviation LoopSet := (Sound * Sound * Sound)%type.

(** [pygame.sndarray.array(snd)[:, 0]]. *)
Definition sndarray_mono (snd : Sound) : list Z := fst <$> snd.

(** The stream behind [np.random]: uniform draws from [0, 1). *)
Abbreviation Rng := (nat → Q).

Definition np_random_uniform (lo hi : Q) (n : nat) (g : Rng) : list Q * Rng :=
  ((λ i : nat, (lo + (hi - lo) * g i)%Q) <$> seq 0 n, λ i, g (n + i)%nat).

(** What the program does to the outside world, in order. *)
Inductive Event :=
  | EvStop (ch : nat)
  | EvPlay (ch : nat) (snd : Sound)
  | EvSetVolume (ch : nat) (v : Q)
  | EvGenerate (level_name : string).

(** The audio device as the program sees it: [pygame.mixer.get_init()]
    ([None] when the mixer is not initialised, else the sample rate) and
    whether a [Channel.play] raises, which may depend on what happened
    before. *)
Record Backend := {
  get_init : option Z;
  play_raises : list Event → nat → bool
}.

(** ** Waveform generators *)

(** The fade-in/fade-out envelope the three generators build:
[[
    envelope = np.ones(samples)
    if fade > 0:
        envelope[:fade] = np.linspace(0, 1, fade)
        envelope[-fade:] = np.linspace(1, 0, fade)
]]
    An exception of a slice assignment is [None]. *)
Definition fade_envelope (samples : nat) (fade : Z) : option (list Q) :=
  let envelope := replicate samples 1%Q in
  if 0 <? fade then
    let k := Z.to_nat fade in
    envelope ← np_setitem_slice envelope 0 k (np_linspace 0 1 k true);
    np_setitem_slice envelope (length envelope - k) (length envelope)
                     (np_linspace 1 0 k true)
  else Some envelope.

(** [wave *= envelope * volume; (wave * 32767).astype(np.int16)], then the
    duplication to two channels. *)
Definition quantize (wave envelope : list Q) (volume : Q) : option Sound :=
  let wave := zip_with Qmult wave ((λ e, e * volume)%Q <$> envelope) in
  make_sound (np_repeat2 ((λ w, astype_int16 (w * 32767)) <$> wave)).

Definition _pulse_wave (be : Backend) (freq duration duty volume : Q)
  : option Sound :=
  sample_rate ← get_init be;
  let samples := py_int (duration * inject_Z sample_rate) in
  if samples <=? 0 then None else
  let t := np_linspace 0 duration (Z.to_nat samples) false in
  let wave :=
    (λ ti, if Qlt_bool (py_mod1 (ti * freq)) duty then 1 else -1)%Q <$> t in
  envelope ← fade_envelope (Z.to_nat samples)
                           (py_int ((5 # 1000) * inject_Z sample_rate));
  quantize wave envelope volume.

Definition _triangle_wave (be : Backend) (freq duration volume : Q)
  : option Sound :=
  sample_rate ← get_init be;
  let samples := py_int (duration * inject_Z sample_rate) in
  if samples <=? 0 then None else
  let t := np_linspace 0 duration (Z.to_nat samples) false in
  let wave :=
    (λ ti, let phase := ti * freq - np_floor (ti * freq) in
           2 * Qabs (2 * phase - 1) - 1)%Q <$> t in
  envelope ← fade_envelope (Z.to_nat samples)
                           (py_int ((5 # 1000) * inject_Z sample_rate));
  quantize wave envelope volume.

(** [wave[::2] *= 0.7]. *)
Definition scale_even (wave : list Q) : list Q :=
  imap (λ i w, if Nat.even i then (w * (7 # 10))%Q else w) wave.

Definition _noise (be : Backend) (duration volume : Q) (mode : string)
    (g : Rng) : option Sound * Rng :=
  match get_init be with
  | None => (None, g)
  | Some sample_rate =>
    let samples := py_int (duration * inject_Z sample_rate) in
    if samples <=? 0 then (None, g) else
    let '(wave, g) := np_random_uniform (-1) 1 (Z.to_nat samples) g in
    let wave := if String.eqb mode "white" then wave else scale_even wave in
    (envelope ← fade_envelope (Z.to_nat samples)
                              (py_int ((3 # 1000) * inject_Z sample_rate));
     quantize wave envelope volume, g)
  end.

(** ** Drum kit *)

(** [np.exp], [np.sin] and [np.pi]: library functions the kick and the snare
    use, taken as an interface. *)
Class NumPy := {
  np_exp : Q → Q;
  np_sin : Q → Q;
  np_pi : Q
}.

Section Synth.

Context {numpy : NumPy}.

(** [wave *= volume; (wave * 32767).astype(np.int16)] and the duplication to
    two channels; the drums have no envelope. *)
Definition quantize_drum (wave : list Q) (volume : Q) : option Sound :=
  make_sound (np_repeat2 ((λ w, astype_int16 (w * volume * 32767)) <$> wave)).

Definition _drum (be : Backend) (duration : Q) (type : string) (volume : Q)
    (g : Rng) : option Sound * Rng :=
  if String.eqb type "kick" then
    match get_init be with
    | None => (None, g)
    | Some sample_rate =>
      let samples := py_int (duration * inject_Z sample_rate) in
      if samples <=? 0 then (None, g) else
      let t := np_linspace 0 duration (Z.to_nat samples) false in
      let pitch := (λ ti, 120 * np_exp (- ti * 20))%Q <$> t in
      let kick_tone :=
        zip_with (λ p ti, np_sin (2 * np_pi * p * ti) * np_exp (- ti * 20))%Q
                 pitch t in
      let '(u, g) :=
        np_random_uniform (- (3 # 10)) (3 # 10) (Z.to_nat samples) g in
      let noise := zip_with (λ n ti, n * np_exp (- ti * 30))%Q u t in
      let wave := zip_with Qplus kick_tone noise in
      (quantize_drum wave volume, g)
    end
  else if String.eqb type "snare" then
    match get_init be with
    | None => (None, g)
    | Some sample_rate =>
      let samples := py_int (duration * inject_Z sample_rate) in
      if samples <=? 0 then (None, g) else
      let t := np_linspace 0 duration (Z.to_nat samples) false in
      let '(u, g) := np_random_uniform (-1) 1 (Z.to_nat samples) g in
      let noise := zip_with (λ n ti, n * np_exp (- ti * 20))%Q u t in
      let tone :=
        (λ ti, np_sin (2 * np_pi * 180 * ti) * np_exp (- ti * 15))%Q <$> t in
      let wave := zip_with (λ n s, (6 # 10) * n + (4 # 10) * s)%Q noise tone in
      (quantize_drum wave volume, g)
    end
  else if String.eqb type "hat" then
    _noise be duration (volume * (7 # 10)) "white" g
  else (None, g).

(** ** The sound manager *)

(** The fields of [SoundManager] ([music_channel] is never used). *)
Record SoundManager := {
  mixer_available : bool;
  proc_channels : list nat;
  current_level : option string;
  route : string;
  target_volume : Q;
  current_volume : Q;
  speed : Q;
  enemy_near : bool;
  proc_sounds : gmap string LoopSet;
  proc_target_volumes : list Q;
  proc_current_volumes : list Q
}.

(** [SoundManager.__init__]: the mixer is available exactly when the device
    could be initialised. *)
Definition SoundManager_init (be : Backend) : SoundManager :=
  let ok := bool_decide (is_Some (get_init be)) in
  {| mixer_available := ok;
     proc_channels := if ok then [1; 2; 3]%nat else [];
     current_level := None;
     route := "pacifist";
     target_volume := 1 # 2;
     current_volume := 1 # 2;
     speed := 0;
     enemy_near := false;
     proc_sounds := ∅;
     proc_target_volumes := [1 # 2; 1 # 2; 1 # 2]%Q;
     proc_current_volumes := [0; 0; 0]%Q |}.

(** ** Loop generation *)

(** The hand-written note tables: bass, melody, tempo, duty.  Any name that
    is not one of the first five takes the last branch. *)
Definition theme_params (level_name : string) : list Z * list Z * Z * Q :=
  if String.eqb level_name "ruins" then
    ([110; 110; 98; 98], [220; 262; 294; 330; 0; 330; 294; 262], 120, 1 # 2)
  else if String.eqb level_name "snowdin" then
    ([98; 98; 110; 110], [330; 294; 262; 220; 0; 220; 262; 294], 140, 1 # 4)
  else if String.eqb level_name "waterfall" then
    ([65; 65; 73; 73], [196; 220; 262; 294; 0; 262; 220; 196], 100, 1 # 2)
  else if String.eqb level_name "hotland" then
    ([82; 82; 92; 92], [330; 311; 294; 262; 0; 294; 311; 330], 160, 1 # 8)
  else if String.eqb level_name "core" then
    ([110; 98; 110; 98], [349; 330; 311; 294; 0; 294; 311; 330], 180, 3 # 4)
  else
    ([65; 73; 65; 73], [220; 262; 330; 392; 0; 392; 330; 262], 200, 1 # 2).

(** The bass loop and the melody loop of the source, which differ in the
    generator they call only: one beat per note, silence for a zero, and
    [None] as soon as a tone is missing or empty. *)
Fixpoint tone_pattern (gen : Q → option Sound) (samples_per_beat : Z)
    (notes : list Z) : option (list (list Z)) :=
  match notes with
  | [] => Some []
  | note :: notes =>
    if note =? 0 then
      (replicate (Z.to_nat samples_per_beat) 0 ::.)
        <$> tone_pattern gen samples_per_beat notes
    else
      tone ← gen (inject_Z note);
      if decide (length tone = 0%nat) then None
      else (sndarray_mono tone ::.) <$> tone_pattern gen samples_per_beat notes
  end.

(** The drum loop over [range(16)]; the kick and the snare draw from
    [np.random], so the stream is threaded. *)
Fixpoint drums_pattern (be : Backend) (samples_per_beat : Z)
    (beat_duration : Q) (beats : list nat) (g : Rng)
  : option (list (list Z)) * Rng :=
  match beats with
  | [] => (Some [], g)
  | i :: beats =>
    let hit :=
      if decide (i mod 4 = 0)%nat then Some ("kick", 6 # 10)
      else if decide (i mod 8 = 6)%nat then Some ("snare", 1 # 2)
      else if decide (i mod 2 = 1)%nat then Some ("hat", 3 # 10)
      else None in
    match hit with
    | None =>
      let '(r, g) := drums_pattern be samples_per_beat beat_duration beats g in
      ((replicate (Z.to_nat samples_per_beat) 0 ::.) <$> r, g)
    | Some (type, volume) =>
      match _drum be beat_duration type volume g with
      | (None, g) => (None, g)
      | (Some drum, g) =>
        if decide (length drum = 0%nat) then (None, g) else
        let '(r, g) :=
          drums_pattern be samples_per_beat beat_duration beats g in
        ((sndarray_mono drum ::.) <$> r, g)
      end
    end
  end.

(** [np.tile(a, repeats)], guarded by [if repeats > 0]. *)
Definition tile_if_positive (a : list Z) (repeats : Z) : list Z :=
  if 0 <? repeats then concat (replicate (Z.to_nat repeats) a) else a.

(** The inner [to_stereo]. *)
Definition to_stereo (mono : list Z) : option Sound :=
  if decide (length mono = 0%nat) then None
  else make_sound (prod_map wrap_int16 wrap_int16 <$> np_repeat2 mono).

(** [_generate_famicom_loop(level_name, duration)].  Every [return None]
    and every caught exception of the source is a [None] here; the note
    tables are never empty and the tempo is never zero, so
    [np.concatenate] and the divisions do not raise. *)
Definition _generate_famicom_loop (be : Backend) (self : SoundManager)
    (level_name : string) (duration : Q) (g : Rng) : option LoopSet * Rng :=
  if negb (mixer_available self) then (None, g) else
  let '(bass_freqs, melody_notes, tempo, duty) := theme_params level_name in
  let beat_duration := (60 / inject_Z tempo)%Q in
  match get_init be with
  | None => (None, g)
  | Some sample_rate =>
    let samples_per_beat := py_int (beat_duration * inject_Z sample_rate) in
    if samples_per_beat <=? 0 then (None, g) else
    (* Bass (triangle) *)
    match tone_pattern (λ freq, _triangle_wave be freq beat_duration (1 # 2))
                       samples_per_beat bass_freqs with
    | None => (None, g)
    | Some bass_pattern =>
      let bass_array := concat bass_pattern in
      let repeats :=
        py_int (duration
                / (inject_Z (Z.of_nat (length bass_freqs)) * beat_duration)) in
      let bass_array := tile_if_positive bass_array repeats in
      (* Melody (pulse) *)
      match tone_pattern
              (λ note, _pulse_wave be note beat_duration duty (4 # 10))
              samples_per_beat melody_notes with
      | None => (None, g)
      | Some melody_pattern =>
        let melody_array := concat melody_pattern in
        let repeats :=
          py_int (duration
                  / (inject_Z (Z.of_nat (length melody_notes))
                     * beat_duration)) in
        let melody_array := tile_if_positive melody_array repeats in
        (* Drums *)
        match drums_pattern be samples_per_beat beat_duration (seq 0 16) g with
        | (None, g) => (None, g)
        | (Some drums_pat, g) =>
          let drums_array := concat drums_pat in
          let repeats := py_int (duration / (16 * beat_duration)) in
          let drums_array := tile_if_positive drums_array repeats in
          (* Trim to exact duration *)
          let target_samples := py_int (duration * inject_Z sample_rate) in
          if target_samples <=? 0 then (None, g) else
          let n := Z.to_nat target_samples in
          match to_stereo (take n bass_array),
                to_stereo (take n melody_array),
                to_stereo (take n drums_array) with
          | Some bass_snd, Some melody_snd, Some drums_snd =>
            (Some (bass_snd, melody_snd, drums_snd), g)
          | _, _, _ => (None, g)
          end
        end
      end
    end
  end.

(** ** Playback controller and mixer *)

(** The program state: the manager object, the random stream, and the
    record of what has been done to the audio device and of the loop
    generations that were run. *)
Record World := {
  self : SoundManager;
  np_random : Rng;
  events : list Event
}.

Definition set_self (f : SoundManager → SoundManager) (w : World) : World :=
  {| self := f (self w); np_random := np_random w; events := events w |}.

Definition emit (es : list Event) (w : World) : World :=
  {| self := self w; np_random := np_random w; events := events w ++ es |}.

Definition set_mixer_available (b : bool) (s : SoundManager) : SoundManager :=
  {| mixer_available := b; proc_channels := proc_channels s;
     current_level := current_level s; route := route s;
     target_volume := target_volume s; current_volume := current_volume s;
     speed := speed s; enemy_near := enemy_near s;
     proc_sounds := proc_sounds s;
     proc_target_volumes := proc_target_volumes s;
     proc_current_volumes := proc_current_volumes s |}.

Definition set_current_level (l : option string) (s : SoundManager)
  : SoundManager :=
  {| mixer_available := mixer_available s; proc_channels := proc_channels s;
     current_level := l; route := route s;
     target_volume := target_volume s; current_volume := current_volume s;
     speed := speed s; enemy_near := enemy_near s;
     proc_sounds := proc_sounds s;
     proc_target_volumes := proc_target_volumes s;
     proc_current_volumes := proc_current_volumes s |}.

Definition set_route_field (r : string) (s : SoundManager) : SoundManager :=
  {| mixer_available := mixer_available s; proc_channels := proc_channels s;
     current_level := current_level s; route := r;
     target_volume := target_volume s; current_volume := current_volume s;
     speed := speed s; enemy_near := enemy_near s;
     proc_sounds := proc_sounds s;
     proc_target_volumes := proc_target_volumes s;
     proc_current_volumes := proc_current_volumes s |}.

Definition set_proc_sounds (m : gmap string LoopSet) (s : SoundManager)
  : SoundManager :=
  {| mixer_available := mixer_available s; proc_channels := proc_channels s;
     current_level := current_level s; route := route s;
     target_volume := target_volume s; current_volume := current_volume s;
     speed := speed s; enemy_near := enemy_near s;
     proc_sounds := m;
     proc_target_volumes := proc_target_volumes s;
     proc_current_volumes := proc_current_volumes s |}.

Definition set_proc_volumes (tv cv : list Q) (s : SoundManager)
  : SoundManager :=
  {| mixer_available := mixer_available s; proc_channels := proc_channels s;
     current_level := current_level s; route := route s;
     target_volume := target_volume s; current_volume := current_volume s;
     speed := speed s; enemy_near := enemy_near s;
     proc_sounds := proc_sounds s;
     proc_target_volumes := tv;
     proc_current_volumes := cv |}.

Definition set_proc_current_volumes (cv : list Q) (s : SoundManager)
  : SoundManager :=
  set_proc_volumes (proc_target_volumes s) cv s.

Definition set_frame_inputs (player_speed : Q) (near : bool) (tv : Q)
    (s : SoundManager) : SoundManager :=
  {| mixer_available := mixer_available s; proc_channels := proc_channels s;
     current_level := current_level s; route := route s;
     target_volume := tv; current_volume := current_volume s;
     speed := player_speed; enemy_near := near;
     proc_sounds := proc_sounds s;
     proc_target_volumes := proc_target_volumes s;
     proc_current_volumes := proc_current_volumes s |}.

(** The [try] block of [load_level] that starts the three loops:
    [self.proc_channels[i].play(snd, loops=-1)] for [i = 0, 1, 2].  A missing
    channel ([IndexError]) or a [play] that raises ends the block with
    [false]; the loops started before stay started. *)
Fixpoint play_all (be : Backend) (i : nat) (snds : list Sound) (w : World)
  : bool * World :=
  match snds with
  | [] => (true, w)
  | snd :: snds =>
    match proc_channels (self w) !! i with
    | None => (false, w)
    | Some ch =>
      if play_raises be (events w) ch then (false, w)
      else play_all be (S i) snds (emit [EvPlay ch snd] w)
    end
  end.

Definition load_level (be : Backend) (level_name : string) (w : World)
  : World :=
  if negb (mixer_available (self w)) then w else
  if decide (Some level_name = current_level (self w)) then w else
  let w := set_self (set_current_level (Some level_name)) w in
  (* Stop any currently playing sounds *)
  let w := emit (EvStop <$> proc_channels (self w)) w in
  (* Generate or retrieve cached loop *)
  let '(loops, w) :=
    match proc_sounds (self w) !! level_name with
    | Some loops => (Some loops, w)
    | None =>
      let '(r, g) :=
        _generate_famicom_loop be (self w) level_name 4 (np_random w) in
      let w := {| self := self w; np_random := g;
                  events := events w ++ [EvGenerate level_name] |} in
      match r with
      | None => (None, set_self (set_mixer_available false) w)
      | Some loops =>
        (Some loops,
         set_self (λ s, set_proc_sounds (<[level_name := loops]> (proc_sounds s)) s) w)
      end
    end in
  match loops with
  | None => w
  | Some (bass, melody, drums) =>
    match play_all be 0 [bass; melody; drums] w with
    | (false, w) => set_self (set_mixer_available false) w
    | (true, w) =>
      set_self (set_proc_volumes [1 # 2; 1 # 2; 1 # 2]%Q [0; 0; 0]%Q) w
    end
  end.

Definition set_route (be : Backend) (r : string) (w : World) : World :=
  if decide (r ≠ route (self w)) then
    let w := set_self (set_route_field r) w in
    if decide (current_level (self w) = Some "last") then load_level be "last" w
    else w
  else w.

(** The target the mixer computes from the frame inputs. *)
Definition base_vol (player_speed : Q) (near : bool) : Q :=
  let base_vol := ((3 # 10) + (4 # 10) * Qmin 1 (player_speed / 5))%Q in
  if near then (base_vol * (1 # 2))%Q else base_vol.

(** The [for i in range(3)] loop of [update].  Indexing
    [self.proc_current_volumes] out of range raises an [IndexError] that
    nothing catches: [None]. *)
Fixpoint smooth_channels (idx : list nat) (w : World) : option World :=
  match idx with
  | [] => Some w
  | i :: idx =>
    c ← proc_current_volumes (self w) !! i;
    let diff := (target_volume (self w) - c)%Q in
    let c' := (c + diff * (1 # 10))%Q in
    let w :=
      set_self (λ s, set_proc_current_volumes
                       (<[i := c']> (proc_current_volumes s)) s) w in
    let w :=
      match proc_channels (self w) !! i with
      | Some ch => emit [EvSetVolume ch c'] w
      | None => w
      end in
    smooth_channels idx w
  end.

Definition update (player_speed : Q) (near : bool) (w : World)
  : option World :=
  if negb (mixer_available (self w)) then Some w else
  let w := set_self (set_frame_inputs player_speed near
                                      (base_vol player_speed near)) w in
  smooth_channels (seq 0 3) w.

(** The three entry points the game loop calls. *)
Inductive Call :=
  | CallLoadLevel (level_name : string)
  | CallSetRoute (r : string)
  | CallUpdate (player_speed : Q) (near : bool).

Definition run_call (be : Backend) (c : Call) (w : World) : option World :=
  match c with
  | CallLoadLevel level_name => Some (load_level be level_name w)
  | CallSetRoute r => Some (set_route be r w)
  | CallUpdate player_speed near => update player_speed near w
  end.

Fixpoint run_calls (be : Backend) (cs : list Call) (w : World) : option World :=
  match cs with
  | [] => Some w
  | c :: cs => w ← run_call be c w; run_calls be cs w
  end.

(** [SoundManager()] in a fresh process. *)
Definition initial_world (be : Backend) (g : Rng) : World :=
  {| self := SoundManager_init be; np_random := g; events := [] |}.

(** ** Auxiliary definitions for the statements *)

(** The envelope after the two slice assignments, for a fade of [k]
    samples that fits a buffer of [n]: the rising ramp, ones, and the
    falling ramp over the last [k] samples. *)
Definition envelope_spec (n k : nat) : list Q :=
  let e1 := np_linspace 0 1 k true ++ drop k (replicate n 1%Q) in
  take (n - k) e1 ++ np_linspace 1 0 k true.

(** The envelope a generator ends up with when the fade fits. *)
Definition tone_envelope (n : nat) (fade : Z) : list Q :=
  if 0 <? fade then envelope_spec n (Z.to_nat fade) else replicate n 1%Q.

(** The square wave before the envelope: the [wave] of [_pulse_wave]. *)
Definition pulse_samples (freq duration duty : Q) (n : nat) : list Q :=
  (λ ti, if Qlt_bool (py_mod1 (ti * freq)) duty then 1 else -1)%Q
    <$> np_linspace 0 duration n false.

(** What the tiling and the final slice leave of a channel: a cycle of
    [beats] beats, repeated [repeats] times when that is positive, cut at
    [target] samples. *)
Definition channel_length (beats samples_per_beat repeats target : Z) : Z :=
  Z.min target
        (beats * samples_per_beat * (if 0 <? repeats then repeats else 1)).

(** The loops of a theme come out with the given numbers of samples. *)
Definition loop_lengths (be : Backend) (slf : SoundManager)
    (level_name : string) (duration : Q) (g : Rng) (lb lm ld : Z) : Prop :=
  ∃ bass melody drums g',
    _generate_famicom_loop be slf level_name duration g
    = (Some (bass, melody, drums), g')
    ∧ Z.of_nat (length bass) = lb
    ∧ Z.of_nat (length melody) = lm
    ∧ Z.of_nat (length drums) = ld.

(** [n] frames of the smoothing loop alone, the target being left as it is. *)
Fixpoint smooth_frames (n : nat) (w : World) : option World :=
  match n with
  | O => Some w
  | S n => w ← smooth_channels (seq 0 3) w; smooth_frames n w
  end.

(** The closed form the specification gives for the smoothed volume. *)
Definition smoothed_spec (V : Q) (N : nat) : Q :=
  (V * (1 - (9 # 10) ^ Z.of_nat N))%Q.

(** The target volume as the specification writes it: clamped to [0, 1],
    then halved when an enemy is near. *)
Definition clamp (x lo hi : Q) : Q := Qmax lo (Qmin hi x).

Definition target_volume_spec (player_speed : Q) (near : bool) : Q :=
  let v := clamp ((3 # 10) + (4 # 10) * Qmin 1 (player_speed / 5)) 0 1 in
  if near then (v * (1 # 2))%Q else v.

End Synth.

(** ** Binary64 arithmetic

    The sample counts the program derives from float products and
    quotients, computed on IEEE 754 binary64 numbers, to compare with the
    rational model at the inputs the program uses. *)

(** [int(x)] on a binary64 number. *)
Definition float_int (x : float) : Z :=
  match Prim2SF x with
  | S754_finite s m e =>
    let a := if 0 <=? e then Z.pos m * 2 ^ e else Z.pos m / 2 ^ (- e) in
    if s then - a else a
  | _ => 0
  end.

(** [min(1.0, x)]. *)
Definition float_min1 (x : float) : float :=
  if PrimFloat.ltb x 1%float then x else 1%float.

(** The tempos of the six themes, in the order of the note tables. *)
Definition tempos : list Z := [120; 140; 100; 160; 180; 200].
Definition tempos_binary64 : list float :=
  [120; 140; 100; 160; 180; 200]%float.

(** Per tempo: samples per beat, then the [repeats] of a cycle of 4, 8 and
    16 beats in four seconds. *)
Definition counts_binary64 (sample_rate : float) (tempo : float) : list Z :=
  let beat_duration := (60 / tempo)%float in
  [float_int (beat_duration * sample_rate);
   float_int (4 / (4 * beat_duration));
   float_int (4 / (8 * beat_duration));
   float_int (4 / (16 * beat_duration))]%float.

Definition counts_rational (sample_rate : Z) (tempo : Z) : list Z :=
  let beat_duration := (60 / inject_Z tempo)%Q in
  [py_int (beat_duration * inject_Z sample_rate);
   py_int (4 / (4 * beat_duration));
   py_int (4 / (8 * beat_duration));
   py_int (4 / (16 * beat_duration))]%Q.

(** ** Concrete devices and worlds *)

(** Rational stand-ins for [np.exp], [np.sin] and [np.pi], a random stream,
    and devices to run the program on. *)
Definition approx_numpy : NumPy :=
  {| np_exp := λ x, (1 + x)%Q; np_sin := λ x, x; np_pi := 355 # 113 |}.

Definition constant_stream : Rng := λ _, (1 # 2)%Q.

Definition never_raises : list Event → nat → bool := λ _ _, false.

(** An initialised device with the given sample rate. *)
Definition device (sample_rate : Z) (raises : list Event → nat → bool)
  : Backend :=
  {| get_init := Some sample_rate; play_raises := raises |}.

(** A device that could not be initialised. *)
Definition no_device : Backend :=
  {| get_init := None; play_raises := λ _ _, true |}.

(** The world after selecting "last" on a 200 Hz device, where a beat has
    60 samples. *)
Definition world_on_last : World :=
  @load_level approx_numpy (device 200 never_raises) "last"
              (initial_world (device 200 never_raises) constant_stream).

(** ** Further definitions for the statements *)

(** The triangle wave before the envelope: the [wave] of [_triangle_wave]. *)
Definition triangle_samples (freq duration : Q) (n : nat) : list Q :=
  (λ ti, let phase := ti * freq - np_floor (ti * freq) in
         2 * Qabs (2 * phase - 1) - 1)%Q
    <$> np_linspace 0 duration n false.

(** The random stream after [n] draws. *)
Definition advance (n : nat) (g : Rng) : Rng := λ i, g (n + i)%nat.

(** What the manager keeps true of its lists: three current volumes, and
    the three channels 1, 2, 3 whenever the mixer is available. *)
Definition manager_ok (s : SoundManager) : Prop :=
  length (proc_current_volumes s) = 3%nat
  ∧ (mixer_available s = true → proc_channels s = [1; 2; 3]%nat).

(** Calls as the game makes them: the speed it passes is a length. *)
Definition speed_nonneg (c : Call) : Prop :=
  match c with
  | CallUpdate player_speed _ => (0 <= player_speed)%Q
  | _ => True
  end.

(** An event on one of the three channels, with a volume, if it sets one,
    that satisfies [P]. *)
Definition event_ok (P : Q → Prop) (e : Event) : Prop :=
  match e with
  | EvStop ch => ch ∈ [1; 2; 3]%nat
  | EvPlay ch _ => ch ∈ [1; 2; 3]%nat
  | EvSetVolume ch v => ch ∈ [1; 2; 3]%nat ∧ P v
  | EvGenerate _ => True
  end.

(** The events [load_level] may add on the channels [chans]: stops, plays
    and generations, never a volume. *)
Definition switch_event_ok (chans : list nat) (e : Event) : Prop :=
  match e with
  | EvStop ch => ch ∈ chans
  | EvPlay ch _ => ch ∈ chans
  | EvSetVolume _ _ => False
  | EvGenerate _ => True
  end.

(** The channel volumes lie between silence and the loudest target. *)
Definition volumes_ok (s : SoundManager) : Prop :=
  Forall (λ c, 0 <= c <= 7 # 10)%Q (proc_current_volumes s).

(** * The game around the sound manager

    The sprites, the level loader, the event handler and the frame update
    of the game, which call the sound manager.  Rendering ([draw], the
    images of the sprites) is left out.  A [pygame.Rect] is four integers;
    a [pygame.sprite.Group] is the list of its sprites in the order they
    were added, which is the order it iterates in. *)

Definition GBA_WIDTH : Z := 240.
Definition GBA_HEIGHT : Z := 160.
Definition TILE_SIZE : Z := 16.

Module Rect.

Record t := { x : Z; y : Z; w : Z; h : Z }.

Definition left (r : t) : Z := x r.
Definition right (r : t) : Z := x r + w r.
Definition top (r : t) : Z := y r.
Definition bottom (r : t) : Z := y r + h r.
(** The centre is computed with C integer division. *)
Definition centerx (r : t) : Z := x r + Z.quot (w r) 2.
Definition centery (r : t) : Z := y r + Z.quot (h r) 2.

Definition set_x (v : Z) (r : t) : t :=
  {| x := v; y := y r; w := w r; h := h r |}.
Definition set_y (v : Z) (r : t) : t :=
  {| x := x r; y := v; w := w r; h := h r |}.

(** Assigning an edge moves the rectangle; its size stays. *)
Definition set_left (v : Z) (r : t) : t := set_x v r.
Definition set_right (v : Z) (r : t) : t := set_x (v - w r) r.
Definition set_top (v : Z) (r : t) : t := set_y v r.
Definition set_bottom (v : Z) (r : t) : t := set_y (v - h r) r.

(** [a.colliderect(b)]: rectangles of zero width or height collide with
    nothing; otherwise the spans must overlap on both axes, touching
    edges not counting. *)
Definition colliderect (a b : t) : bool :=
  if (w a =? 0) || (h a =? 0) || (w b =? 0) || (h b =? 0) then false
  else (Z.min (x a) (x a + w a) <? Z.max (x b) (x b + w b))
       && (Z.min (y a) (y a + h a) <? Z.max (y b) (y b + h b))
       && (Z.min (x b) (x b + w b) <? Z.max (x a) (x a + w a))
       && (Z.min (y b) (y b + h b) <? Z.max (y a) (y a + h a)).

(** [surface.get_rect(topleft=(x, y))] for a tile-sized surface. *)
Definition tile (x y : Z) : t :=
  {| x := x; y := y; w := TILE_SIZE; h := TILE_SIZE |}.

End Rect.

Module Wall.

Record t := { rect : Rect.t }.

Definition new (x y : Z) : t := {| rect := Rect.tile x y |}.

End Wall.

Module Cat.

Record t := { rect : Rect.t; vx : Z; vy : Z; speed : Z }.

Definition new (x y : Z) : t :=
  {| rect := Rect.tile x y; vx := 0; vy := 0; speed := 3 |}.

Definition set_rect (r : Rect.t) (c : t) : t :=
  {| rect := r; vx := vx c; vy := vy c; speed := speed c |}.
Definition set_vx (v : Z) (c : t) : t :=
  {| rect := rect c; vx := v; vy := vy c; speed := speed c |}.
Definition set_vy (v : Z) (c : t) : t :=
  {| rect := rect c; vx := vx c; vy := v; speed := speed c |}.

(** The body of the loop of [collide] for one wall. *)
Definition collide_step (dx dy : Z) (c : t) (wall : Wall.t) : t :=
  if Rect.colliderect (rect c) (Wall.rect wall) then
    let r := rect c in
    let r := if 0 <? dx
             then Rect.set_right (Rect.left (Wall.rect wall)) r else r in
    let r := if dx <? 0
             then Rect.set_left (Rect.right (Wall.rect wall)) r else r in
    let r := if 0 <? dy
             then Rect.set_bottom (Rect.top (Wall.rect wall)) r else r in
    let r := if dy <? 0
             then Rect.set_top (Rect.bottom (Wall.rect wall)) r else r in
    set_rect r c
  else c.

Definition collide (dx dy : Z) (walls : list Wall.t) (c : t) : t :=
  fold_left (collide_step dx dy) walls c.

Definition update (walls : list Wall.t) (c : t) : t :=
  let c := set_rect (Rect.set_x (Rect.x (rect c) + vx c) (rect c)) c in
  let c := collide (vx c) 0 walls c in
  let c := set_rect (Rect.set_y (Rect.y (rect c) + vy c) (rect c)) c in
  collide 0 (vy c) walls c.

End Cat.

Module Enemy.

Record t := { rect : Rect.t; direction : Z; speed : Z; level : string }.

Definition new (x y : Z) (level : string) : t :=
  {| rect := Rect.tile x y; direction := 1; speed := 1; level := level |}.

Definition set_rect (r : Rect.t) (e : t) : t :=
  {| rect := r; direction := direction e; speed := speed e;
     level := level e |}.
Definition set_direction (d : Z) (e : t) : t :=
  {| rect := rect e; direction := d; speed := speed e; level := level e |}.

(** [self.rect.x += self.speed * self.direction]. *)
Definition step (e : t) : t :=
  set_rect (Rect.set_x (Rect.x (rect e) + speed e * direction e) (rect e)) e.

(** The body of the loop over the walls. *)
Definition bounce (e : t) (wall : Wall.t) : t :=
  if Rect.colliderect (rect e) (Wall.rect wall)
  then step (set_direction (direction e * -1) e)
  else e.

Definition update (walls : list Wall.t) (e : t) : t :=
  let e := step e in
  let e := if (Rect.left (rect e) <=? 0) || (GBA_WIDTH <=? Rect.right (rect e))
           then set_direction (direction e * -1) e else e in
  fold_left bounce walls e.

End Enemy.

(** The level maps, row by row. *)
Definition LEVELS : gmap string (list string) :=
  list_to_map
    [("ruins",
      ["###############";
       "#.............#";
       "#.###.###.###.#";
       "#.#.........#.#";
       "#.#...###...#.#";
       "#.#.E.....E.#.#";
       "#.#...###...#.#";
       "#.###########.#";
       "#.............#";
       "###############"]);
     ("snowdin",
      ["###############";
       "#.............#";
       "#.##.....##...#";
       "#.............#";
       "#...##.E.##...#";
       "#.............#";
       "#.##.....##...#";
       "#.......E.....#";
       "#.............#";
       "###############"]);
     ("waterfall",
      ["###############";
       "#.............#";
       "#.#########...#";
       "#.........#...#";
       "#.#######.#...#";
       "#.#...E...#...#";
       "#.#.......#...#";
       "#.#########...#";
       "#.............#";
       "###############"]);
     ("hotland",
      ["###############";
       "#.............#";
       "#.####.####...#";
       "#.#...........#";
       "#.#..####..#..#";
       "#....E..E..#..#";
       "#.#..####..#..#";
       "#.#...........#";
       "#.####.####...#";
       "###############"]);
     ("core",
      ["###############";
       "#.............#";
       "#.##.....##...#";
       "#.#.......#...#";
       "#.#..###..#...#";
       "#....E.E......#";
       "#.#..###..#...#";
       "#.#.......#...#";
       "#.##.....##...#";
       "###############"]);
     ("last",
      ["###############";
       "#.............#";
       "#..#.....#....#";
       "#..#.....#....#";
       "#..#..E..#....#";
       "#..#.....#....#";
       "#..#.....#....#";
       "#.............#";
       "#.............#";
       "###############"])].

(** [math.hypot]: the length of a vector, a square root with no exact
    rational value in general; taken as an interface. *)
Class Math := { math_hypot : Z → Z → Q }.

Module Game.

(** The methods of the sound manager, under names that the methods of
    the game do not hide. *)
#[local] Abbreviation sound_load_level := load_level.
#[local] Abbreviation sound_update := update.

(** The keys the game reads, and the events that carry them. *)
Inductive key :=
  K_LEFT | K_RIGHT | K_UP | K_DOWN | K_n | K_p | K_g | K_other.

Inductive event := QUIT | KEYDOWN (k : key) | KEYUP (k : key) | OTHER.

#[global] Instance key_eq_dec : EqDecision key.
Proof. solve_decision. Defined.

#[global] Instance event_eq_dec : EqDecision event.
Proof. solve_decision. Defined.

(** The fields of [Game] that are not about the screen; [sound] is the
    world the sound manager lives in. *)
Record t := {
  running : bool;
  level_names : list string;
  current_level_idx : nat;
  level : string;
  player : option Cat.t;
  walls : list Wall.t;
  enemies : list Enemy.t;
  sound : World
}.

Definition set_running (b : bool) (g : t) : t :=
  {| running := b; level_names := level_names g;
     current_level_idx := current_level_idx g; level := level g;
     player := player g; walls := walls g; enemies := enemies g;
     sound := sound g |}.
Definition set_level (i : nat) (l : string) (g : t) : t :=
  {| running := running g; level_names := level_names g;
     current_level_idx := i; level := l;
     player := player g; walls := walls g; enemies := enemies g;
     sound := sound g |}.
Definition set_player (p : option Cat.t) (g : t) : t :=
  {| running := running g; level_names := level_names g;
     current_level_idx := current_level_idx g; level := level g;
     player := p; walls := walls g; enemies := enemies g;
     sound := sound g |}.
Definition set_sprites (ws : list Wall.t) (es : list Enemy.t) (g : t) : t :=
  {| running := running g; level_names := level_names g;
     current_level_idx := current_level_idx g; level := level g;
     player := player g; walls := ws; enemies := es;
     sound := sound g |}.
Definition set_sound (s : World) (g : t) : t :=
  {| running := running g; level_names := level_names g;
     current_level_idx := current_level_idx g; level := level g;
     player := player g; walls := walls g; enemies := enemies g;
     sound := s |}.

(** The cells of a map in the order of the two nested [enumerate] loops:
    row, column, character (a string of length one, as in Python). *)
Definition cells (level_data : list string) : list (nat * nat * string) :=
  concat (imap (λ row line,
                  imap (λ col char, (row, col, String char ""))
                       (String.list_ascii_of_string line))
               level_data).

Definition cell_x (c : nat * nat * string) : Z := Z.of_nat c.1.2 * TILE_SIZE.
Definition cell_y (c : nat * nat * string) : Z := Z.of_nat c.1.1 * TILE_SIZE.

Definition is_char (ch : string) (c : nat * nat * string) : bool :=
  String.eqb c.2 ch.

(** The walls, the enemies and the first free cell of a map. *)
Definition level_walls (level_data : list string) : list Wall.t :=
  (λ c, Wall.new (cell_x c) (cell_y c))
    <$> List.filter (is_char "#") (cells level_data).

Definition level_enemies (level_data : list string) (level_name : string)
  : list Enemy.t :=
  (λ c, Enemy.new (cell_x c) (cell_y c) level_name)
    <$> List.filter (is_char "E") (cells level_data).

Definition level_start (level_data : list string) : option Cat.t :=
  (λ c, Cat.new (cell_x c) (cell_y c))
    <$> List.find (is_char ".") (cells level_data).

(** [Game.load_level]: a name that is not in [LEVELS] raises [KeyError];
    a map with no free cell leaves the player as it was. *)
Definition load_level (level_name : string) (g : t) : option t :=
  level_data ← LEVELS !! level_name;
  let g := set_sprites (level_walls level_data)
                       (level_enemies level_data level_name) g in
  Some (match level_start level_data with
        | Some cat => set_player (Some cat) g
        | None => g
        end).

(** One event of [handle_events].  Without a player, reading its speed
    raises [AttributeError]. *)
Definition handle_event `{NumPy} (be : Backend) (ev : event) (g : t)
  : option t :=
  match ev with
  | QUIT => Some (set_running false g)
  | KEYDOWN K_LEFT =>
    p ← player g; Some (set_player (Some (Cat.set_vx (- Cat.speed p) p)) g)
  | KEYDOWN K_RIGHT =>
    p ← player g; Some (set_player (Some (Cat.set_vx (Cat.speed p) p)) g)
  | KEYDOWN K_UP =>
    p ← player g; Some (set_player (Some (Cat.set_vy (- Cat.speed p) p)) g)
  | KEYDOWN K_DOWN =>
    p ← player g; Some (set_player (Some (Cat.set_vy (Cat.speed p) p)) g)
  | KEYDOWN K_n =>
    if decide (length (level_names g) = 0%nat) then None else
    let i := ((current_level_idx g + 1) mod length (level_names g))%nat in
    l ← level_names g !! i;
    g ← load_level l (set_level i l g);
    Some (set_sound (sound_load_level be l (sound g)) g)
  | KEYDOWN K_p =>
    Some (set_sound (set_route be "pacifist" (sound g)) g)
  | KEYDOWN K_g =>
    Some (set_sound (set_route be "genocide" (sound g)) g)
  | KEYDOWN K_other => Some g
  | KEYUP k =>
    g ← (if decide (k = K_LEFT ∨ k = K_RIGHT)
         then p ← player g; Some (set_player (Some (Cat.set_vx 0 p)) g)
         else Some g);
    if decide (k = K_UP ∨ k = K_DOWN)
    then p ← player g; Some (set_player (Some (Cat.set_vy 0 p)) g)
    else Some g
  | OTHER => Some g
  end.

Definition handle_events `{NumPy} (be : Backend) (evs : list event) (g : t)
  : option t :=
  foldl (λ og ev, g ← og; handle_event be ev g) (Some g) evs.

(** [any(abs(e.rect.centerx - player.rect.centerx) < 48 and
         abs(e.rect.centery - player.rect.centery) < 48
         for e in self.enemies)]. *)
Definition enemy_near (p : Cat.t) (es : list Enemy.t) : bool :=
  existsb (λ e,
    (Z.abs (Rect.centerx (Enemy.rect e) - Rect.centerx (Cat.rect p)) <? 48)
    && (Z.abs (Rect.centery (Enemy.rect e) - Rect.centery (Cat.rect p))
        <? 48)) es.

(** [Game.update]: the player moves, then the enemies, then the mixer
    gets the speed of the player and whether an enemy is near. *)
Definition update `{Math} (g : t) : option t :=
  p ← player g;
  let p := Cat.update (walls g) p in
  let es := Enemy.update (walls g) <$> enemies g in
  let near := enemy_near p es in
  let speed_mag := math_hypot (Cat.vx p) (Cat.vy p) in
  s ← sound_update speed_mag near (sound g);
  Some (set_sound s (set_sprites (walls g) es (set_player (Some p) g))).

(** [Game.__init__]: the first level is loaded, then the sound manager is
    created and told the level. *)
Definition init `{NumPy} (be : Backend) (rng : Rng) : option t :=
  let level_names :=
    ["ruins"; "snowdin"; "waterfall"; "hotland"; "core"; "last"] in
  level ← level_names !! 0%nat;
  g ← load_level level
        {| running := true; level_names := level_names;
           current_level_idx := 0; level := level;
           player := None; walls := []; enemies := [];
           sound := initial_world be rng |};
  Some (set_sound (sound_load_level be level (initial_world be rng)) g).

(** One turn of the loop of [run], drawing apart. *)
Definition frame `{NumPy} `{Math} (be : Backend) (evs : list event) (g : t)
  : option t :=
  g ← handle_events be evs g; update g.

(** The loop of [run] over the events of successive frames; it ends when
    [running] is off at the head of a turn. *)
Fixpoint run `{NumPy} `{Math} (be : Backend) (frames : list (list event))
    (g : t) : option t :=
  match frames with
  | [] => Some g
  | evs :: frames =>
    if running g then g ← frame be evs g; run be frames g else Some g
  end.

End Game.

(** ** Definitions for the statements about the game *)

(** A rectangle of the size of a tile. *)
Definition tile_sized (r : Rect.t) : Prop :=
  Rect.w r = TILE_SIZE ∧ Rect.h r = TILE_SIZE.

(** A wall that fills one cell of the grid. *)
Definition wall_tile (wall : Wall.t) : Prop :=
  tile_sized (Wall.rect wall)
  ∧ Rect.x (Wall.rect wall) mod TILE_SIZE = 0
  ∧ Rect.y (Wall.rect wall) mod TILE_SIZE = 0.

(** A rectangle that collides with none of the walls. *)
Definition clear_of (walls : list Wall.t) (r : Rect.t) : Prop :=
  Forall (λ wall, Rect.colliderect r (Wall.rect wall) = false) walls.

(** Whether some wall has its corner at the given point. *)
Definition has_wall (x y : Z) (walls : list Wall.t) : bool :=
  existsb (λ wall, (Rect.x (Wall.rect wall) =? x)
                   && (Rect.y (Wall.rect wall) =? y)) walls.

(** A player as the game keeps it: a tile in size, at most its speed of 3
    along each axis, and inside no wall. *)
Definition cat_ok (walls : list Wall.t) (cat : Cat.t) : Prop :=
  tile_sized (Cat.rect cat) ∧ Cat.speed cat = 3
  ∧ Z.abs (Cat.vx cat) ≤ 3 ∧ Z.abs (Cat.vy cat) ≤ 3
  ∧ clear_of walls (Cat.rect cat).

(** An enemy as the game keeps it: a tile in size, one pixel per frame to
    the left or to the right, inside no wall, and in a row that has a wall
    in the first and in the last column, between which it stays. *)
Definition enemy_ok (walls : list Wall.t) (e : Enemy.t) : Prop :=
  tile_sized (Enemy.rect e) ∧ Enemy.speed e = 1
  ∧ Z.abs (Enemy.direction e) = 1
  ∧ clear_of walls (Enemy.rect e)
  ∧ 16 ≤ Rect.x (Enemy.rect e) ≤ 208
  ∧ has_wall 0 (Rect.y (Enemy.rect e)) walls = true
  ∧ has_wall 224 (Rect.y (Enemy.rect e)) walls = true.

(** What the game keeps true from its start on. *)
Definition game_ok (g : Game.t) : Prop :=
  Game.level_names g
  = ["ruins"; "snowdin"; "waterfall"; "hotland"; "core"; "last"]
  ∧ Game.level_names g !! Game.current_level_idx g = Some (Game.level g)
  ∧ Forall wall_tile (Game.walls g)
  ∧ (∃ cat, Game.player g = Some cat ∧ cat_ok (Game.walls g) cat)
  ∧ Forall (enemy_ok (Game.walls g)) (Game.enemies g)
  ∧ manager_ok (self (Game.sound g))
  ∧ (mixer_available (self (Game.sound g)) = true →
     current_level (self (Game.sound g)) = Some (Game.level g)).

(** The check of a map that the enemies need: each one starts in a row
    fenced by walls, off the first and the last column. *)
Definition enemies_fenced (level_data : list string) (level_name : string)
  : bool :=
  forallb (λ e,
    has_wall 0 (Rect.y (Enemy.rect e)) (Game.level_walls level_data)
    && has_wall 224 (Rect.y (Enemy.rect e)) (Game.level_walls level_data)
    && (16 <=? Rect.x (Enemy.rect e)) && (Rect.x (Enemy.rect e) <=? 208))
    (Game.level_enemies level_data level_name).

(** ** A concrete [math] *)

(** A rational stand-in for [math.hypot]: the integer square root of the
    sum of the squares. *)
Definition approx_math : Math :=
  {| math_hypot := λ x y, inject_Z (Z.sqrt (x * x + y * y)) |}.
(** * Sample values in binary64

    The tone generators and the noise generator once more, computed on
    IEEE 754 binary64 numbers as numpy computes them, operation by
    operation.  The rational generators above decide the sample counts and
    the failures; a comparison against a threshold ([% 1.0 < duty]) and a
    truncation ([astype]) can fall on the other side after rounding, so
    what is stated about the value of a sample is stated on these.
    [np.random] is here a stream of binary64 numbers, the successive
    results of the generator's [next_double]. *)

Set Warnings "-inexact-float".

Module Binary64.

(** [float(n)] for an integer, rounded to nearest even. *)
Definition of_Z (z : Z) : float :=
  SF2Prim (binary_normalize prec emax z 0 false).

Definition of_nat (n : nat) : float := of_Z (Z.of_nat n).

(** [np.floor(x)]. *)
Definition np_floor (x : float) : float :=
  if is_finite x then
    let tz := of_Z (float_int x) in
    if (tz =? x)%float then x
    else if (x <? 0)%float then (tz - 1)%float else tz
  else x.

(** [x % 1.0] on an array ([np.remainder]): the C [fmod], which is exact and
    has the sign of [x], moved into [0, 1) by adding the divisor. *)
Definition mod1 (x : float) : float :=
  if is_finite x then
    let m := (x - of_Z (float_int x))%float in
    if (m =? 0)%float then 0%float
    else if (m <? 0)%float then (m + 1)%float else m
  else nan.

(** [(x).astype(np.int16)] on one number: truncate, then keep the low 16
    bits. *)
Definition astype_int16 (x : float) : Z := wrap_int16 (float_int x).

(** [np.arange(start, start + n)]. *)
Fixpoint np_arange (start : Z) (n : nat) : list Z :=
  match n with
  | O => []
  | S n => start :: np_arange (start + 1) n
  end.

(** [np.linspace(start, stop, num, endpoint)] as numpy computes it:
[[
    div = num - 1 if endpoint else num
    delta = stop - start
    y = arange(0, num)
    if div > 0:
        step = delta / div
        if step == 0: y = y / div * delta
        else:         y = y * step
    else:
        y = y * delta
    y += start
    if endpoint and num > 1: y[-1] = stop
]] *)
Definition np_linspace (start stop : float) (num : nat) (endpoint : bool)
  : list float :=
  let div := if endpoint then (num - 1)%nat else num in
  let delta := (stop - start)%float in
  let scale : float → float :=
    if (0 <? div)%nat then
      let step := (delta / of_nat div)%float in
      if (step =? 0)%float then λ y, (y / of_nat div * delta)%float
      else λ y, (y * step)%float
    else λ y, (y * delta)%float in
  let y := (λ i : Z, (scale (of_Z i) + start)%float) <$> np_arange 0 num in
  if endpoint && (1 <? num)%nat then <[(num - 1)%nat := stop]> y else y.

(** [a[start:stop] = src], as for the rational arrays. *)
Definition np_setitem_slice (a : list float) (start stop : nat)
    (src : list float) : option (list float) :=
  let stop' := (stop `min` length a)%nat in
  let start' := (start `min` stop')%nat in
  let n := (stop' - start')%nat in
  if decide (length src = n) then Some (take start' a ++ src ++ drop stop' a)
  else match src with
       | [x] => Some (take start' a ++ replicate n x ++ drop stop' a)
       | _ => None
       end.

Definition fade_envelope (samples : nat) (fade : Z) : option (list float) :=
  let envelope := replicate samples 1%float in
  if 0 <? fade then
    let k := Z.to_nat fade in
    envelope ← np_setitem_slice envelope 0 k (np_linspace 0 1 k true);
    np_setitem_slice envelope (length envelope - k) (length envelope)
                     (np_linspace 1 0 k true)
  else Some envelope.

(** [wave *= envelope * volume; (wave * 32767).astype(np.int16)], then the
    duplication to two channels. *)
Definition quantize (wave envelope : list float) (volume : float)
  : option Sound :=
  let wave := zip_with PrimFloat.mul wave
                       ((λ e, e * volume)%float <$> envelope) in
  make_sound (np_repeat2 ((λ w, astype_int16 (w * 32767)%float) <$> wave)).

(** The value of the square wave and of the triangle at a time. *)
Definition pulse_at (freq duty t : float) : float :=
  if (mod1 (t * freq) <? duty)%float then 1%float else (-1)%float.

Definition triangle_at (freq t : float) : float :=
  let phase := (t * freq - np_floor (t * freq))%float in
  (2 * abs (2 * phase - 1) - 1)%float.

Definition _pulse_wave (be : Backend) (freq duration duty volume : float)
  : option Sound :=
  sample_rate ← get_init be;
  let samples := float_int (duration * of_Z sample_rate) in
  if samples <=? 0 then None else
  let t := np_linspace 0 duration (Z.to_nat samples) false in
  let wave := pulse_at freq duty <$> t in
  envelope ← fade_envelope (Z.to_nat samples)
                           (float_int (0.005 * of_Z sample_rate));
  quantize wave envelope volume.

Definition _triangle_wave (be : Backend) (freq duration volume : float)
  : option Sound :=
  sample_rate ← get_init be;
  let samples := float_int (duration * of_Z sample_rate) in
  if samples <=? 0 then None else
  let t := np_linspace 0 duration (Z.to_nat samples) false in
  let wave := triangle_at freq <$> t in
  envelope ← fade_envelope (Z.to_nat samples)
                           (float_int (0.005 * of_Z sample_rate));
  quantize wave envelope volume.

(** The stream behind [np.random]: the draws from [0, 1). *)
Abbreviation Rng := (nat → float).

(** [np.random.uniform(low, high, n)]: [low + (high - low) * next_double()]
    for each sample. *)
Definition np_random_uniform (lo hi : float) (n : nat) (g : Rng)
  : list float * Rng :=
  ((λ i : nat, (lo + (hi - lo) * g i)%float) <$> seq 0 n,
   λ i, g (n + i)%nat).

(** [wave[::2] *= 0.7]. *)
Definition scale_even (wave : list float) : list float :=
  imap (λ i w, if Nat.even i then (w * 0.7)%float else w) wave.

Definition _noise (be : Backend) (duration volume : float) (mode : string)
    (g : Rng) : option Sound * Rng :=
  match get_init be with
  | None => (None, g)
  | Some sample_rate =>
    let samples := float_int (duration * of_Z sample_rate) in
    if samples <=? 0 then (None, g) else
    let '(wave, g) := np_random_uniform (-1) 1 (Z.to_nat samples) g in
    let wave := if String.eqb mode "white" then wave else scale_even wave in
    (envelope ← fade_envelope (Z.to_nat samples)
                              (float_int (0.003 * of_Z sample_rate));
     quantize wave envelope volume, g)
  end.

(** *** For the statements *)


(** The random stream after [n] draws. *)
Definition advance (n : nat) (g : Rng) : Rng := λ i, g (n + i)%nat.



(** A stream for concrete runs. *)
Definition constant_stream : Rng := λ _, 0.5%float.

(** Three samples on which rounding decides, at the rate of the program:
    a pulse whose phase falls on the duty threshold in exact arithmetic, a
    note of the "snowdin" melody as the loop generator asks for it, and a
    triangle whose exact product is an integer. *)
Definition sample (tone : option Sound) (i : Z) : option Z :=
  snd ← tone; p ← snd !! Z.to_nat i; Some p.1.

Definition rounding_samples : list (option Z) :=
  let be := device 22050 never_raises in
  [sample (_pulse_wave be 441 0.5 0.5 1) 5525;
   sample (_pulse_wave be 330 (60 / 140) 0.25 0.4) 735;
   sample (_triangle_wave be 110 0.5 1) 945].

End Binary64.

(** * Properties *)

Section Properties.

Context {numpy : NumPy}.

(** ** Arrays and envelopes *)

Lemma length_np_linspace a b n e : length (np_linspace a b n e) = n.
Proof. unfold np_linspace. by rewrite length_fmap, length_seq. Qed.

Lemma np_setitem_slice_fit (a : list Q) start stop src :
  (start ≤ stop)%nat → (stop ≤ length a)%nat →
  length src = (stop - start)%nat →
  np_setitem_slice a start stop src = Some (take start a ++ src ++ drop stop a).
Proof.
  intros H1 H2 H3. unfold np_setitem_slice.
  rewrite (Nat.min_l stop) by done. rewrite (Nat.min_l start) by done.
  by rewrite decide_True.
Qed.

Lemma np_setitem_slice_short (a : list Q) stop src :
  (length a < stop)%nat → (0 < length a)%nat → length src = stop →
  np_setitem_slice a 0 stop src = None.
Proof.
  intros H1 H2 H3. unfold np_setitem_slice.
  rewrite (Nat.min_r stop) by lia. rewrite (Nat.min_l 0) by lia.
  rewrite decide_False by lia.
  destruct src as [|x [|y src]]; simpl in *; try done. lia.
Qed.

Lemma fade_envelope_fits n fade :
  0 < fade → fade ≤ Z.of_nat n →
  fade_envelope n fade = Some (envelope_spec n (Z.to_nat fade)).
Proof.
  intros Hpos Hf. unfold fade_envelope, envelope_spec.
  apply Z.ltb_lt in Hpos as Hb. rewrite Hb. apply Z.ltb_lt in Hb.
  rewrite np_setitem_slice_fit;
    rewrite ?length_replicate, ?length_np_linspace; try lia.
  change (take 0 (replicate n 1%Q)) with (@nil Q).
  cbn [mbind option_bind app].
  set (e1 := (_ ++ _ : list Q)).
  assert (length e1 = n) as He1.
  { unfold e1. rewrite length_app, length_drop, length_np_linspace,
      length_replicate. lia. }
  rewrite He1.
  rewrite np_setitem_slice_fit; rewrite ?length_np_linspace; try lia.
  rewrite <- He1 at 2. by rewrite drop_all, app_nil_r.
Qed.

Lemma length_envelope_spec n k : (k ≤ n)%nat → length (envelope_spec n k) = n.
Proof.
  intros. unfold envelope_spec.
  rewrite !length_app, length_take, length_app, length_drop,
    !length_np_linspace, length_replicate. lia.
Qed.

Lemma fade_envelope_Some n fade :
  fade ≤ Z.of_nat n →
  ∃ env, fade_envelope n fade = Some env ∧ length env = n.
Proof.
  intros Hf. destruct (Z.lt_ge_cases 0 fade) as [Hpos|Hneg].
  - rewrite fade_envelope_fits by done. eexists; split; [done|].
    apply length_envelope_spec. lia.
  - unfold fade_envelope. apply Z.ltb_ge in Hneg. rewrite Hneg.
    eexists; split; [done|]. by rewrite length_replicate.
Qed.

Lemma fade_envelope_None n fade :
  (0 < n)%nat → Z.of_nat n < fade → fade_envelope n fade = None.
Proof.
  intros Hn Hf. unfold fade_envelope.
  destruct (0 <? fade) eqn:Hpos; [|apply Z.ltb_ge in Hpos; lia].
  rewrite np_setitem_slice_short;
    rewrite ?length_replicate, ?length_np_linspace; try done; lia.
Qed.

Lemma length_quantize wave env volume :
  ∃ snd, quantize wave env volume = Some snd
         ∧ length snd = (length wave `min` length env)%nat.
Proof.
  eexists; split; [done|]. unfold np_repeat2.
  by rewrite !length_fmap, length_zip_with, length_fmap.
Qed.



(** ** Quantisation *)


Lemma quantize_lookup wave env volume i w e :
  wave !! i = Some w → env !! i = Some e →
  ∃ snd, quantize wave env volume = Some snd
    ∧ snd !! i = Some (astype_int16 (w * (e * volume) * 32767),
                       astype_int16 (w * (e * volume) * 32767)).
Proof.
  intros Hw He. unfold quantize, make_sound, np_repeat2.
  eexists; split; [done|].
  rewrite !list_lookup_fmap, lookup_zip_with, Hw. simpl.
  by rewrite list_lookup_fmap, He.
Qed.

Lemma fade_envelope_ok n fade :
  fade ≤ Z.of_nat n → fade_envelope n fade = Some (tone_envelope n fade).
Proof.
  intros Hf. unfold tone_envelope. destruct (0 <? fade) eqn:Hpos.
  - apply Z.ltb_lt in Hpos. by apply fade_envelope_fits.
  - unfold fade_envelope. by rewrite Hpos.
Qed.

Lemma length_tone_envelope n fade :
  fade ≤ Z.of_nat n → length (tone_envelope n fade) = n.
Proof.
  intros Hf. unfold tone_envelope. destruct (0 <? fade) eqn:Hpos.
  - apply length_envelope_spec. lia.
  - apply length_replicate.
Qed.

(** ** The generators return a buffer of the computed length, or nothing *)

Lemma pulse_wave_fits be sr freq duration duty volume :
  get_init be = Some sr →
  0 < py_int (duration * inject_Z sr) →
  py_int ((5 # 1000) * inject_Z sr) ≤ py_int (duration * inject_Z sr) →
  _pulse_wave be freq duration duty volume
  = quantize (pulse_samples freq duration duty
                (Z.to_nat (py_int (duration * inject_Z sr))))
             (tone_envelope (Z.to_nat (py_int (duration * inject_Z sr)))
                (py_int ((5 # 1000) * inject_Z sr)))
             volume.
Proof.
  intros Hsr Hn Hfade. unfold _pulse_wave. rewrite Hsr. simpl.
  destruct (Z.leb_spec (py_int (duration * inject_Z sr)) 0); [lia|].
  rewrite fade_envelope_ok by lia. done.
Qed.

Lemma pulse_wave_length be sr freq duration duty volume :
  get_init be = Some sr →
  0 < py_int (duration * inject_Z sr) →
  py_int ((5 # 1000) * inject_Z sr) ≤ py_int (duration * inject_Z sr) →
  ∃ snd, _pulse_wave be freq duration duty volume = Some snd
         ∧ length snd = Z.to_nat (py_int (duration * inject_Z sr)).
Proof.
  intros Hsr Hn Hfade. rewrite (pulse_wave_fits be sr) by done.
  destruct (length_quantize
    (pulse_samples freq duration duty (Z.to_nat (py_int (duration * inject_Z sr))))
    (tone_envelope (Z.to_nat (py_int (duration * inject_Z sr)))
                (py_int ((5 # 1000) * inject_Z sr))) volume) as (snd & -> & Hl).
  exists snd; split; [done|]. rewrite Hl. unfold pulse_samples.
  rewrite length_fmap, length_np_linspace, length_tone_envelope; lia.
Qed.

Lemma triangle_wave_length be sr freq duration volume :
  get_init be = Some sr →
  0 < py_int (duration * inject_Z sr) →
  py_int ((5 # 1000) * inject_Z sr) ≤ py_int (duration * inject_Z sr) →
  ∃ snd, _triangle_wave be freq duration volume = Some snd
         ∧ length snd = Z.to_nat (py_int (duration * inject_Z sr)).
Proof.
  intros Hsr Hn Hfade. unfold _triangle_wave. rewrite Hsr. simpl.
  destruct (Z.leb_spec (py_int (duration * inject_Z sr)) 0); [lia|].
  rewrite fade_envelope_ok by lia. simpl.
  eexists; split; [done|]. unfold np_repeat2.
  rewrite !length_fmap, length_zip_with, !length_fmap, length_np_linspace,
    length_tone_envelope; lia.
Qed.

Lemma noise_length be sr duration volume mode g :
  get_init be = Some sr →
  0 < py_int (duration * inject_Z sr) →
  py_int ((3 # 1000) * inject_Z sr) ≤ py_int (duration * inject_Z sr) →
  ∃ snd g', _noise be duration volume mode g = (Some snd, g')
            ∧ length snd = Z.to_nat (py_int (duration * inject_Z sr)).
Proof.
  intros Hsr Hn Hfade. unfold _noise. rewrite Hsr.
  destruct (Z.leb_spec (py_int (duration * inject_Z sr)) 0); [lia|].
  unfold np_random_uniform.
  rewrite fade_envelope_ok by lia. simpl.
  eexists _, _; split; [done|]. unfold np_repeat2.
  rewrite !length_fmap, length_zip_with, !length_fmap,
    length_tone_envelope by lia.
  destruct (String.eqb mode "white"); unfold scale_even;
    rewrite ?length_imap, length_fmap, length_seq; lia.
Qed.

(** Below the fade length the slice assignment raises and the generator
    gives nothing, although the sample count is positive. *)
Lemma pulse_wave_short be sr freq duration duty volume :
  get_init be = Some sr →
  0 < py_int (duration * inject_Z sr) →
  py_int (duration * inject_Z sr) < py_int ((5 # 1000) * inject_Z sr) →
  _pulse_wave be freq duration duty volume = None.
Proof.
  intros Hsr Hn Hfade. unfold _pulse_wave. rewrite Hsr. simpl.
  destruct (Z.leb_spec (py_int (duration * inject_Z sr)) 0); [lia|].
  rewrite fade_envelope_None; [done|lia..].
Qed.

Lemma triangle_wave_short be sr freq duration volume :
  get_init be = Some sr →
  0 < py_int (duration * inject_Z sr) →
  py_int (duration * inject_Z sr) < py_int ((5 # 1000) * inject_Z sr) →
  _triangle_wave be freq duration volume = None.
Proof.
  intros Hsr Hn Hfade. unfold _triangle_wave. rewrite Hsr. simpl.
  destruct (Z.leb_spec (py_int (duration * inject_Z sr)) 0); [lia|].
  rewrite fade_envelope_None; [done|lia..].
Qed.

Lemma noise_short be sr duration volume mode g :
  get_init be = Some sr →
  0 < py_int (duration * inject_Z sr) →
  py_int (duration * inject_Z sr) < py_int ((3 # 1000) * inject_Z sr) →
  (_noise be duration volume mode g).1 = None.
Proof.
  intros Hsr Hn Hfade. unfold _noise. rewrite Hsr.
  destruct (Z.leb_spec (py_int (duration * inject_Z sr)) 0); [lia|].
  unfold np_random_uniform.
  rewrite fade_envelope_None; [done|lia..].
Qed.

(** ** Drums and patterns *)

Lemma drum_length be sr duration type volume g :
  type = "kick" ∨ type = "snare" ∨ type = "hat" →
  get_init be = Some sr →
  0 < py_int (duration * inject_Z sr) →
  py_int ((3 # 1000) * inject_Z sr) ≤ py_int (duration * inject_Z sr) →
  ∃ snd g', _drum be duration type volume g = (Some snd, g')
            ∧ length snd = Z.to_nat (py_int (duration * inject_Z sr)).
Proof.
  intros Hty Hsr Hn Hfade. unfold _drum.
  destruct Hty as [-> | [-> | ->]]; cbn [String.eqb Ascii.eqb Bool.eqb].
  - rewrite Hsr.
    destruct (Z.leb_spec (py_int (duration * inject_Z sr)) 0); [lia|].
    unfold np_random_uniform, quantize_drum, make_sound, np_repeat2.
    eexists _, _; split; [done|].
    rewrite !length_fmap, !length_zip_with, !length_fmap, length_seq,
      length_np_linspace. lia.
  - rewrite Hsr.
    destruct (Z.leb_spec (py_int (duration * inject_Z sr)) 0); [lia|].
    unfold np_random_uniform, quantize_drum, make_sound, np_repeat2.
    eexists _, _; split; [done|].
    rewrite !length_fmap, !length_zip_with, !length_fmap, length_seq,
      length_np_linspace. lia.
  - by apply noise_length.
Qed.

Lemma tone_pattern_uniform gen samples_per_beat notes :
  0 < samples_per_beat →
  (∀ f, ∃ s, gen f = Some s ∧ length s = Z.to_nat samples_per_beat) →
  ∃ pat, tone_pattern gen samples_per_beat notes = Some pat
         ∧ length pat = length notes
         ∧ Forall (λ a, length a = Z.to_nat samples_per_beat) pat.
Proof.
  intros Hpos Hgen. induction notes as [|note notes (pat & IH & Hlen & Hall)].
  - by exists [].
  - cbn [tone_pattern]. rewrite IH.
    destruct (note =? 0).
    + eexists; split; [done|]. split; [by simpl; rewrite Hlen|].
      constructor; [by rewrite length_replicate|done].
    + destruct (Hgen (inject_Z note)) as (s & -> & Hs). cbn [mbind option_bind].
      rewrite decide_False by lia.
      eexists; split; [done|]. split; [by simpl; rewrite Hlen|].
      constructor; [|done]. unfold sndarray_mono. by rewrite length_fmap.
Qed.

Lemma drums_pattern_uniform be sr samples_per_beat beat_duration beats g :
  get_init be = Some sr →
  samples_per_beat = py_int (beat_duration * inject_Z sr) →
  0 < samples_per_beat →
  py_int ((3 # 1000) * inject_Z sr) ≤ samples_per_beat →
  ∃ pat g', drums_pattern be samples_per_beat beat_duration beats g
            = (Some pat, g')
            ∧ length pat = length beats
            ∧ Forall (λ a, length a = Z.to_nat samples_per_beat) pat.
Proof.
  intros Hsr -> Hpos Hfade. revert g.
  induction beats as [|i beats IH]; intros g.
  - by exists [], g.
  - cbn [drums_pattern].
    assert (∀ type volume,
      type = "kick" ∨ type = "snare" ∨ type = "hat" →
      ∃ pat g',
        match _drum be beat_duration type volume g with
        | (None, g) => (None, g)
        | (Some drum, g) =>
          if decide (length drum = 0%nat) then (None, g) else
          let '(r, g) :=
            drums_pattern be (py_int (beat_duration * inject_Z sr))
                          beat_duration beats g in
          ((sndarray_mono drum ::.) <$> r, g)
        end = (Some pat, g')
        ∧ length pat = length (i :: beats)
        ∧ Forall (λ a, length a
                       = Z.to_nat (py_int (beat_duration * inject_Z sr))) pat)
      as Hhit.
    { intros type volume Hty.
      destruct (drum_length be sr beat_duration type volume g Hty Hsr Hpos Hfade)
        as (snd & g1 & -> & Hsnd).
      rewrite decide_False by lia.
      destruct (IH g1) as (pat & g2 & -> & Hlen & Hall).
      eexists _, _; split; [done|]. split; [by simpl; rewrite Hlen|].
      constructor; [|done]. unfold sndarray_mono. by rewrite length_fmap. }
    repeat case_decide; try (apply Hhit; tauto).
    destruct (IH g) as (pat & g2 & -> & Hlen & Hall).
    eexists _, _; split; [done|]. split; [by simpl; rewrite Hlen|].
    constructor; [by rewrite length_replicate|done].
Qed.

Lemma length_concat_uniform (pat : list (list Z)) n :
  Forall (λ a, length a = n) pat → length (concat pat) = (length pat * n)%nat.
Proof.
  induction 1 as [|a pat Ha _ IH]; [done|].
  cbn [concat]. rewrite length_app, IH, Ha. done.
Qed.

Lemma length_tile_if_positive a repeats :
  Z.of_nat (length (tile_if_positive a repeats))
  = Z.of_nat (length a) * (if 0 <? repeats then repeats else 1).
Proof.
  unfold tile_if_positive. destruct (Z.ltb_spec 0 repeats); [|lia].
  rewrite (length_concat_uniform _ (length a)) by (by apply Forall_replicate).
  rewrite length_replicate. lia.
Qed.

Lemma to_stereo_length mono :
  (0 < length mono)%nat →
  ∃ snd, to_stereo mono = Some snd ∧ length snd = length mono.
Proof.
  intros Hl. unfold to_stereo, make_sound, np_repeat2.
  rewrite decide_False by lia. eexists; split; [done|].
  by rewrite !length_fmap.
Qed.

(** ** Length of the three loops *)

Lemma length_channel (pat : list (list Z)) samples_per_beat repeats target :
  0 ≤ target →
  Forall (λ a, length a = Z.to_nat samples_per_beat) pat →
  0 < samples_per_beat →
  Z.of_nat (length (take (Z.to_nat target)
                         (tile_if_positive (concat pat) repeats)))
  = channel_length (Z.of_nat (length pat)) samples_per_beat repeats target.
Proof.
  intros Ht Hall Hpos. unfold channel_length.
  rewrite length_take, Nat2Z.inj_min, length_tile_if_positive.
  rewrite (length_concat_uniform _ _ Hall). lia.
Qed.

Lemma generate_lengths be slf level_name duration g sr
    bass_freqs melody_notes tempo duty :
  mixer_available slf = true →
  get_init be = Some sr →
  theme_params level_name = (bass_freqs, melody_notes, tempo, duty) →
  bass_freqs ≠ [] → melody_notes ≠ [] →
  let beat_duration := (60 / inject_Z tempo)%Q in
  let samples_per_beat := py_int (beat_duration * inject_Z sr) in
  let target := py_int (duration * inject_Z sr) in
  0 < samples_per_beat →
  py_int ((5 # 1000) * inject_Z sr) ≤ samples_per_beat →
  py_int ((3 # 1000) * inject_Z sr) ≤ samples_per_beat →
  0 < target →
  ∃ bass melody drums g',
    _generate_famicom_loop be slf level_name duration g
    = (Some (bass, melody, drums), g')
    ∧ Z.of_nat (length bass)
      = channel_length (Z.of_nat (length bass_freqs)) samples_per_beat
          (py_int (duration / (inject_Z (Z.of_nat (length bass_freqs))
                               * beat_duration))) target
    ∧ Z.of_nat (length melody)
      = channel_length (Z.of_nat (length melody_notes)) samples_per_beat
          (py_int (duration / (inject_Z (Z.of_nat (length melody_notes))
                               * beat_duration))) target
    ∧ Z.of_nat (length drums)
      = channel_length 16 samples_per_beat
          (py_int (duration / (16 * beat_duration))) target.
Proof.
  intros Hav Hsr Hparams Hb Hm beat_duration samples_per_beat target
    Hspb Hf5 Hf3 Htarget.
  unfold _generate_famicom_loop. rewrite Hav, Hparams, Hsr.
  cbn [negb]. fold beat_duration. fold samples_per_beat. fold target.
  destruct (Z.leb_spec samples_per_beat 0); [lia|].
  destruct (tone_pattern_uniform
              (λ freq, _triangle_wave be freq beat_duration (1 # 2))
              samples_per_beat bass_freqs Hspb)
    as (bpat & -> & Hbl & Hball).
  { intros f. by apply (triangle_wave_length be sr). }
  destruct (tone_pattern_uniform
              (λ note, _pulse_wave be note beat_duration duty (4 # 10))
              samples_per_beat melody_notes Hspb)
    as (mpat & -> & Hml & Hmall).
  { intros f. by apply (pulse_wave_length be sr). }
  destruct (drums_pattern_uniform be sr samples_per_beat beat_duration
              (seq 0 16) g Hsr eq_refl Hspb Hf3)
    as (dpat & g' & -> & Hdl & Hdall).
  destruct (Z.leb_spec target 0); [lia|].
  pose proof (length_channel bpat samples_per_beat
    (py_int (duration / (inject_Z (Z.of_nat (length bass_freqs))
                         * beat_duration))) target ltac:(lia) Hball Hspb) as Lb.
  pose proof (length_channel mpat samples_per_beat
    (py_int (duration / (inject_Z (Z.of_nat (length melody_notes))
                         * beat_duration))) target ltac:(lia) Hmall Hspb) as Lm.
  pose proof (length_channel dpat samples_per_beat
    (py_int (duration / (16 * beat_duration))) target ltac:(lia) Hdall Hspb)
    as Ld.
  rewrite Hbl in Lb. rewrite Hml in Lm. rewrite Hdl, length_seq in Ld.
  assert (0 < length bass_freqs)%nat by (destruct bass_freqs; simpl; [done|lia]).
  assert (0 < length melody_notes)%nat
    by (destruct melody_notes; simpl; [done|lia]).
  assert (∀ beats repeats, 0 < beats →
            0 < channel_length beats samples_per_beat repeats target) as Hcl.
  { intros beats repeats Hbeats. unfold channel_length.
    destruct (Z.ltb_spec 0 repeats); nia. }
  destruct (to_stereo_length (take (Z.to_nat target)
              (tile_if_positive (concat bpat)
                 (py_int (duration / (inject_Z (Z.of_nat (length bass_freqs))
                                      * beat_duration))))))
    as (bs & -> & Hbs).
  { specialize (Hcl (Z.of_nat (length bass_freqs))
      (py_int (duration / (inject_Z (Z.of_nat (length bass_freqs))
                           * beat_duration))) ltac:(lia)). lia. }
  destruct (to_stereo_length (take (Z.to_nat target)
              (tile_if_positive (concat mpat)
                 (py_int (duration / (inject_Z (Z.of_nat (length melody_notes))
                                      * beat_duration))))))
    as (ms & -> & Hms).
  { specialize (Hcl (Z.of_nat (length melody_notes))
      (py_int (duration / (inject_Z (Z.of_nat (length melody_notes))
                           * beat_duration))) ltac:(lia)). lia. }
  destruct (to_stereo_length (take (Z.to_nat target)
              (tile_if_positive (concat dpat)
                 (py_int (duration / (16 * beat_duration))))))
    as (ds & -> & Hds).
  { specialize (Hcl 16 (py_int (duration / (16 * beat_duration)))
                    ltac:(lia)). 
    change (Z.of_nat 16) with 16 in Ld. lia. }
  exists bs, ms, ds, g'. split; [done|].
  rewrite Hbs, Hms, Hds. done.
Qed.

(** Instances of [generate_lengths] at 22050 Hz: the side conditions and
    the numbers are computed. *)
Ltac loop_lengths_by_computation :=
  match goal with
  | |- loop_lengths ?be ?slf ?name ?d ?g _ _ _ =>
    let H := fresh in
    edestruct (generate_lengths be slf name d g 22050) as (b & m & dr & g' & H);
    [reflexivity | reflexivity | reflexivity | discriminate | discriminate
     | vm_compute; reflexivity
     | vm_compute; discriminate | vm_compute; discriminate
     | vm_compute; reflexivity
     | exists b, m, dr, g'; destruct H as (-> & -> & -> & ->);
       split; [reflexivity | split; [|split]; vm_compute; reflexivity] ]
  end.

(** ** Playback controller *)

Lemma play_all_self be i snds w :
  self (play_all be i snds w).2 = self w
  ∧ np_random (play_all be i snds w).2 = np_random w.
Proof.
  revert i w. induction snds as [|snd snds IH]; intros i w; [done|].
  cbn [play_all]. destruct (proc_channels (self w) !! i) as [ch|]; [|done].
  destruct (play_raises be (events w) ch); [done|].
  destruct (IH (S i) (emit [EvPlay ch snd] w)) as [-> ->]. done.
Qed.

(** The generator reads one field of the manager: [mixer_available]. *)
Lemma generate_self_irrelevant be s1 s2 level_name duration g :
  mixer_available s1 = mixer_available s2 →
  _generate_famicom_loop be s1 level_name duration g
  = _generate_famicom_loop be s2 level_name duration g.
Proof. intros H. unfold _generate_famicom_loop. by rewrite H. Qed.

Lemma load_level_disabled be level_name w :
  mixer_available (self w) = false → load_level be level_name w = w.
Proof. intros H. unfold load_level. by rewrite H. Qed.

Lemma load_level_same be level_name w :
  current_level (self w) = Some level_name → load_level be level_name w = w.
Proof.
  intros H. unfold load_level. destruct (mixer_available (self w)); [|done].
  cbn [negb]. by rewrite decide_True.
Qed.

Lemma load_level_post be level_name w :
  mixer_available (self w) = true →
  mixer_available (self (load_level be level_name w)) = false
  ∨ current_level (self (load_level be level_name w)) = Some level_name.
Proof.
  intros Hav. unfold load_level. rewrite Hav. cbn [negb].
  case_decide as Hcur; [by right|].
  cbn [set_self emit self np_random events set_current_level proc_sounds
       mixer_available proc_channels].
  destruct (proc_sounds (self w) !! level_name) as [[[bass melody] drums]|].
  - match goal with
    | |- context [play_all ?b ?i ?l ?w0] =>
      pose proof (play_all_self b i l w0) as [Hs _];
      destruct (play_all b i l w0) as [[] w2]
    end; cbn [snd] in Hs; cbn [set_self self]; rewrite Hs; first [by right | by left].
  - match goal with
    | |- context [_generate_famicom_loop ?b ?s ?n ?d ?g] =>
      destruct (_generate_famicom_loop b s n d g) as [[[[bass melody] drums]|] g']
    end; [|by left].
    match goal with
    | |- context [play_all ?b ?i ?l ?w0] =>
      pose proof (play_all_self b i l w0) as [Hs _];
      destruct (play_all b i l w0) as [[] w2]
    end; cbn [snd] in Hs; cbn [set_self self]; rewrite Hs; first [by right | by left].
Qed.

(** ** The mixer *)

Lemma smooth_step i idx w c :
  proc_current_volumes (self w) !! i = Some c →
  ∃ w1, smooth_channels (i :: idx) w = smooth_channels idx w1
    ∧ proc_current_volumes (self w1)
      = <[i := (c + (target_volume (self w) - c) * (1 # 10))%Q]>
          (proc_current_volumes (self w))
    ∧ target_volume (self w1) = target_volume (self w)
    ∧ mixer_available (self w1) = mixer_available (self w)
    ∧ np_random w1 = np_random w.
Proof.
  intros Hc. cbn [smooth_channels]. rewrite Hc. cbn [mbind option_bind].
  eexists; split; [reflexivity|].
  cbn [set_self self proc_channels set_proc_current_volumes set_proc_volumes].
  destruct (proc_channels (self w) !! i); done.
Qed.

(** One pass of the loop over the three channels. *)
Lemma smooth_channels_three w c0 c1 c2 :
  proc_current_volumes (self w) = [c0; c1; c2] →
  ∃ w', smooth_channels (seq 0 3) w = Some w'
    ∧ proc_current_volumes (self w')
      = [(c0 + (target_volume (self w) - c0) * (1 # 10))%Q;
         (c1 + (target_volume (self w) - c1) * (1 # 10))%Q;
         (c2 + (target_volume (self w) - c2) * (1 # 10))%Q]
    ∧ target_volume (self w') = target_volume (self w)
    ∧ mixer_available (self w') = mixer_available (self w)
    ∧ np_random w' = np_random w.
Proof.
  intros Hc. cbn [seq].
  destruct (smooth_step 0 [1; 2]%nat w c0) as (w1 & -> & Hc1 & Ht1 & Ha1 & Hg1).
  { by rewrite Hc. }
  rewrite Hc in Hc1. cbn in Hc1.
  destruct (smooth_step 1 [2]%nat w1 c1) as (w2 & -> & Hc2 & Ht2 & Ha2 & Hg2).
  { by rewrite Hc1. }
  rewrite Hc1 in Hc2. cbn in Hc2.
  destruct (smooth_step 2 [] w2 c2) as (w3 & -> & Hc3 & Ht3 & Ha3 & Hg3).
  { by rewrite Hc2. }
  rewrite Hc2 in Hc3. cbn in Hc3.
  exists w3. split; [done|]. rewrite Hc3, Ht3, Ht2, Ht1, Ha3, Ha2, Ha1,
    Hg3, Hg2, Hg1. done.
Qed.

Lemma smoothed_spec_step V N c :
  (c == smoothed_spec V N)%Q →
  (c + (V - c) * (1 # 10) == smoothed_spec V (S N))%Q.
Proof.
  intros Hc. unfold smoothed_spec. rewrite Nat2Z.inj_succ.
  unfold Z.succ. rewrite Qpower_plus by discriminate.
  rewrite Hc. unfold smoothed_spec. change ((9 # 10) ^ 1)%Q with (9 # 10)%Q.
  ring.
Qed.

Lemma smooth_frames_closed_form N : ∀ k w c0 c1 c2,
  proc_current_volumes (self w) = [c0; c1; c2] →
  (c0 == smoothed_spec (target_volume (self w)) k)%Q →
  (c1 == smoothed_spec (target_volume (self w)) k)%Q →
  (c2 == smoothed_spec (target_volume (self w)) k)%Q →
  ∃ w', smooth_frames N w = Some w'
    ∧ target_volume (self w') = target_volume (self w)
    ∧ length (proc_current_volumes (self w')) = 3%nat
    ∧ Forall (λ c, c == smoothed_spec (target_volume (self w)) (k + N))%Q
             (proc_current_volumes (self w')).
Proof.
  induction N as [|N IH]; intros k w c0 c1 c2 Hc H0 H1 H2.
  - exists w. rewrite Hc, Nat.add_0_r. repeat split; try done.
    by repeat constructor.
  - cbn [smooth_frames].
    destruct (smooth_channels_three w c0 c1 c2 Hc)
      as (w1 & -> & Hc1 & Ht1 & _ & _).
    cbn [mbind option_bind].
    destruct (IH (S k) w1 _ _ _ Hc1) as (w' & -> & Ht' & Hl' & Hall);
      rewrite ?Ht1; try by apply smoothed_spec_step.
    exists w'. rewrite Ht' , Ht1. repeat split; try done.
    rewrite Ht1 in Hall. by rewrite <- Nat.add_succ_comm.
Qed.

(** What [update] computes, for a manager whose volume list has its three
    entries. *)
Lemma update_enabled player_speed near w c0 c1 c2 :
  mixer_available (self w) = true →
  proc_current_volumes (self w) = [c0; c1; c2] →
  ∃ w', update player_speed near w = Some w'
    ∧ target_volume (self w') = base_vol player_speed near
    ∧ proc_current_volumes (self w')
      = [(c0 + (base_vol player_speed near - c0) * (1 # 10))%Q;
         (c1 + (base_vol player_speed near - c1) * (1 # 10))%Q;
         (c2 + (base_vol player_speed near - c2) * (1 # 10))%Q]
    ∧ mixer_available (self w') = true.
Proof.
  intros Hav Hc. unfold update. rewrite Hav. cbn [negb].
  match goal with
  | |- context [smooth_channels _ ?w0] =>
    destruct (smooth_channels_three w0 c0 c1 c2) as (w' & -> & Hc' & Ht' & Ha' & _)
  end; [done|].
  exists w'. split; [done|]. rewrite Hc', Ht', Ha'. done.
Qed.

Lemma update_disabled player_speed near w :
  mixer_available (self w) = false → update player_speed near w = Some w.
Proof. intros H. unfold update. by rewrite H. Qed.

Lemma base_vol_unclamped player_speed :
  (0 <= player_speed)%Q →
  (3 # 10 <= (3 # 10) + (4 # 10) * Qmin 1 (player_speed / 5) <= 7 # 10)%Q.
Proof.
  intros Hs.
  assert (0 <= Qmin 1 (player_speed / 5) <= 1)%Q as [H0 H1].
  { split; [|apply Q.le_min_l].
    apply Q.min_glb; [discriminate|].
    apply Qle_shift_div_l; [reflexivity|]. by rewrite Qmult_0_l. }
  split; lra.
Qed.

Lemma base_vol_meets_spec player_speed near :
  (0 <= player_speed)%Q →
  (base_vol player_speed near == target_volume_spec player_speed near)%Q.
Proof.
  intros Hs. unfold base_vol, target_volume_spec, clamp.
  destruct (base_vol_unclamped player_speed Hs) as [Hlo Hhi].
  set (v := ((3 # 10) + (4 # 10) * Qmin 1 (player_speed / 5))%Q) in *.
  assert (Qmax 0 (Qmin 1 v) == v)%Q as Hv.
  { rewrite Q.min_r by lra. apply Q.max_r. lra. }
  destruct near; by rewrite Hv.
Qed.

(** ** The generators in binary64 *)









(** ** The pulse generator, sample by sample *)

Lemma np_linspace_lookup start stop num endpoint (i : nat) :
  (i < num)%nat →
  np_linspace start stop num endpoint !! i
  = Some (start + inject_Z (Z.of_nat i)
                  * ((stop - start)
                     / inject_Z (Z.of_nat (if endpoint then (num - 1)%nat
                                           else num))))%Q.
Proof.
  intros Hi. unfold np_linspace.
  rewrite list_lookup_fmap, lookup_seq_lt by done. done.
Qed.



(** ** When the generators give nothing *)

Lemma pulse_wave_None_iff be freq duration duty volume :
  _pulse_wave be freq duration duty volume = None
  ↔ get_init be = None
    ∨ ∃ sr, get_init be = Some sr
        ∧ (py_int (duration * inject_Z sr) ≤ 0
           ∨ py_int (duration * inject_Z sr)
             < py_int ((5 # 1000) * inject_Z sr)).
Proof.
  destruct (get_init be) as [sr|] eqn:Hsr.
  - destruct (Z.le_gt_cases (py_int (duration * inject_Z sr)) 0) as [Hn|Hn].
    + split; [intros _; right; exists sr; auto|intros _].
      unfold _pulse_wave. rewrite Hsr. cbn [mbind option_bind].
      by destruct (Z.leb_spec (py_int (duration * inject_Z sr)) 0); [|lia].
    + destruct (Z.le_gt_cases (py_int ((5 # 1000) * inject_Z sr))
                  (py_int (duration * inject_Z sr))) as [Hf|Hf].
      * destruct (pulse_wave_length be sr freq duration duty volume)
          as (snd & -> & _); try done; try lia.
        split; [done|]. intros [|(sr' & [= <-] & [|])]; [done|lia..].
      * rewrite (pulse_wave_short be sr) by (done || lia).
        split; [intros _; right; exists sr; auto|done].
  - split; [by left|intros _]. unfold _pulse_wave. by rewrite Hsr.
Qed.

Lemma triangle_wave_None_iff be freq duration volume :
  _triangle_wave be freq duration volume = None
  ↔ get_init be = None
    ∨ ∃ sr, get_init be = Some sr
        ∧ (py_int (duration * inject_Z sr) ≤ 0
           ∨ py_int (duration * inject_Z sr)
             < py_int ((5 # 1000) * inject_Z sr)).
Proof.
  destruct (get_init be) as [sr|] eqn:Hsr.
  - destruct (Z.le_gt_cases (py_int (duration * inject_Z sr)) 0) as [Hn|Hn].
    + split; [intros _; right; exists sr; auto|intros _].
      unfold _triangle_wave. rewrite Hsr. cbn [mbind option_bind].
      by destruct (Z.leb_spec (py_int (duration * inject_Z sr)) 0); [|lia].
    + destruct (Z.le_gt_cases (py_int ((5 # 1000) * inject_Z sr))
                  (py_int (duration * inject_Z sr))) as [Hf|Hf].
      * destruct (triangle_wave_length be sr freq duration volume)
          as (snd & -> & _); try done; try lia.
        split; [done|]. intros [|(sr' & [= <-] & [|])]; [done|lia..].
      * rewrite (triangle_wave_short be sr) by (done || lia).
        split; [intros _; right; exists sr; auto|done].
  - split; [by left|intros _]. unfold _triangle_wave. by rewrite Hsr.
Qed.

Lemma noise_None_iff be duration volume mode g :
  (_noise be duration volume mode g).1 = None
  ↔ get_init be = None
    ∨ ∃ sr, get_init be = Some sr
        ∧ (py_int (duration * inject_Z sr) ≤ 0
           ∨ py_int (duration * inject_Z sr)
             < py_int ((3 # 1000) * inject_Z sr)).
Proof.
  destruct (get_init be) as [sr|] eqn:Hsr.
  - destruct (Z.le_gt_cases (py_int (duration * inject_Z sr)) 0) as [Hn|Hn].
    + split; [intros _; right; exists sr; auto|intros _].
      unfold _noise. rewrite Hsr.
      by destruct (Z.leb_spec (py_int (duration * inject_Z sr)) 0); [|lia].
    + destruct (Z.le_gt_cases (py_int ((3 # 1000) * inject_Z sr))
                  (py_int (duration * inject_Z sr))) as [Hf|Hf].
      * destruct (noise_length be sr duration volume mode g)
          as (snd & g' & -> & _); try done; try lia.
        split; [done|]. intros [|(sr' & [= <-] & [|])]; [done|lia..].
      * rewrite (noise_short be sr) by (done || lia).
        split; [intros _; right; exists sr; auto|done].
  - split; [by left|intros _]. unfold _noise. by rewrite Hsr.
Qed.

(** C6 at the failing input: 1 ms at 22050 Hz is 22 samples, a positive
    count on an initialised device, and each of the three generators
    returns nothing, because the buffer is shorter than the fade (110
    samples for the tones, 66 for the noise). *)
Theorem short_buffer_returns_nothing raises g :
  let be := device 22050 raises in
  py_int ((1 # 1000) * inject_Z 22050) = 22
  ∧ _pulse_wave be 440 (1 # 1000) (1 # 2) (1 # 2) = None
  ∧ _triangle_wave be 440 (1 # 1000) (1 # 2) = None
  ∧ (_noise be (1 # 1000) (1 # 2) "white" g).1 = None.
Proof.
  intros be. split; [reflexivity|]. split; [|split].
  - apply (pulse_wave_short be 22050); [done| |]; vm_compute; reflexivity.
  - apply (triangle_wave_short be 22050); [done| |]; vm_compute; reflexivity.
  - apply (noise_short be 22050); [done| |]; vm_compute; reflexivity.
Qed.

(** ** The claims about the loops, the controller and the mixer *)

(** C1 at the device's rate, 22050 Hz, where [round(4.0 * 22050)] is 88200:
    generation succeeds for each of the six themes, and only "ruins" has
    three loops of 88200 samples.  For "snowdin" the bass and the melody
    have 75600 samples and the drums 88200: two whole cycles are tiled,
    which is less than four seconds, and the slice cannot lengthen them. *)
Theorem loop_lengths_22050 raises g :
  let be := device 22050 raises in
  let slf := SoundManager_init be in
  py_round (4 * inject_Z 22050) = 88200
  ∧ loop_lengths be slf "ruins" 4 g 88200 88200 88200
  ∧ loop_lengths be slf "snowdin" 4 g 75600 75600 88200
  ∧ loop_lengths be slf "waterfall" 4 g 52920 88200 88200
  ∧ loop_lengths be slf "hotland" 4 g 66144 66144 88200
  ∧ loop_lengths be slf "core" 4 g 88200 58800 88200
  ∧ loop_lengths be slf "last" 4 g 79380 52920 88200.
Proof.
  intros be slf. split; [reflexivity|].
  repeat split; loop_lengths_by_computation.
Qed.

(** C2 on the code: with "last" selected, a change of route stores the new
    route and does nothing else.  [load_level("last")] is called and returns
    at once because "last" is the current level: no channel is stopped, no
    loop is started. *)
Theorem set_route_on_last_only_stores be r w :
  r ≠ route (self w) →
  current_level (self w) = Some "last" →
  set_route be r w = set_self (set_route_field r) w
  ∧ events (set_route be r w) = events w.
Proof.
  intros Hr Hlast. unfold set_route. rewrite decide_True by done.
  cbn [set_self self set_route_field current_level].
  rewrite decide_True by done.
  rewrite load_level_same; done.
Qed.

(** C7: selecting a theme a second time changes nothing: the manager, the
    record of channel operations and generations, and the random stream
    are those the first call left. *)
Theorem load_level_twice_is_noop be level_name w :
  load_level be level_name (load_level be level_name w)
  = load_level be level_name w.
Proof.
  destruct (mixer_available (self w)) eqn:Hav.
  - destruct (load_level_post be level_name w Hav) as [Hoff|Hcur].
    + by apply load_level_disabled.
    + by apply load_level_same.
  - by rewrite !(load_level_disabled be level_name w Hav).
Qed.

Lemma set_route_disabled be r w :
  mixer_available (self w) = false →
  mixer_available (self (set_route be r w)) = false
  ∧ events (set_route be r w) = events w
  ∧ np_random (set_route be r w) = np_random w
  ∧ proc_sounds (self (set_route be r w)) = proc_sounds (self w)
  ∧ current_level (self (set_route be r w)) = current_level (self w)
  ∧ proc_current_volumes (self (set_route be r w))
    = proc_current_volumes (self w).
Proof.
  intros Hav. unfold set_route. case_decide; [|done].
  cbn [set_self self set_route_field current_level].
  case_decide; [|done]. rewrite load_level_disabled; done.
Qed.

(** C8: from a disabled manager, any sequence of [load_level], [set_route]
    and [update] calls runs to the end and leaves the manager disabled; no
    channel operation and no generation is recorded, the random stream is
    not drawn from, and the cache, the current level and the channel
    volumes are untouched. *)
Theorem disabled_stays_disabled be cs w :
  mixer_available (self w) = false →
  ∃ w', run_calls be cs w = Some w'
    ∧ mixer_available (self w') = false
    ∧ events w' = events w
    ∧ np_random w' = np_random w
    ∧ proc_sounds (self w') = proc_sounds (self w)
    ∧ current_level (self w') = current_level (self w)
    ∧ proc_current_volumes (self w') = proc_current_volumes (self w).
Proof.
  revert w. induction cs as [|c cs IH]; intros w Hav.
  - by exists w.
  - cbn [run_calls]. destruct c as [level_name|r|player_speed near];
      cbn [run_call mbind option_bind].
    + rewrite load_level_disabled by done. by apply IH.
    + destruct (set_route_disabled be r w Hav)
        as (Hav' & He & Hg & Hp & Hc & Hv).
      destruct (IH _ Hav') as (w' & Hrun & ? & He' & Hg' & Hp' & Hc' & Hv').
      exists w'. rewrite Hrun, He', Hg', Hp', Hc', Hv', He, Hg, Hp, Hc, Hv.
      done.
    + rewrite update_disabled by done. by apply IH.
Qed.

(** The three ways of getting disabled. *)
Lemma init_failure_disables be :
  get_init be = None → mixer_available (SoundManager_init be) = false.
Proof. intros H. unfold SoundManager_init. by rewrite H. Qed.

Lemma play_failure_disables be level_name w loops :
  mixer_available (self w) = true →
  current_level (self w) ≠ Some level_name →
  proc_sounds (self w) !! level_name = Some loops →
  (play_all be 0 [loops.1.1; loops.1.2; loops.2]
     (emit (EvStop <$> proc_channels (self w))
        (set_self (set_current_level (Some level_name)) w))).1 = false →
  mixer_available (self (load_level be level_name w)) = false.
Proof.
  intros Hav Hcur Hhit Hplay. unfold load_level. rewrite Hav. cbn [negb].
  rewrite decide_False by congruence.
  cbn [set_self emit self np_random events set_current_level proc_sounds
       mixer_available proc_channels].
  rewrite Hhit. destruct loops as [[bass melody] drums]. cbn [fst snd] in Hplay.
  cbn [set_self emit self set_current_level proc_channels] in Hplay.
  match goal with
  | |- context [play_all ?b ?i ?l ?w0] =>
    destruct (play_all b i l w0) as [[] w2]
  end; [done|]. done.
Qed.

Lemma play_all_three be w bass melody drums :
  (play_all be 0 [bass; melody; drums] w).1 = true →
  ∃ c0 c1 c2,
    proc_channels (self w) !! 0%nat = Some c0
    ∧ proc_channels (self w) !! 1%nat = Some c1
    ∧ proc_channels (self w) !! 2%nat = Some c2
    ∧ events (play_all be 0 [bass; melody; drums] w).2
      = events w ++ [EvPlay c0 bass; EvPlay c1 melody; EvPlay c2 drums].
Proof.
  cbn [play_all emit self events].
  destruct (proc_channels (self w) !! 0%nat) as [c0|]; [|done].
  destruct (play_raises be (events w) c0); [done|].
  destruct (proc_channels (self w) !! 1%nat) as [c1|]; [|done].
  destruct (play_raises be (events w ++ [EvPlay c0 bass]) c1); [done|].
  destruct (proc_channels (self w) !! 2%nat) as [c2|]; [|done].
  destruct (play_raises be _ c2); [done|].
  intros _. exists c0, c1, c2. cbn. by rewrite <- !app_assoc.
Qed.

(** A switch that succeeds stops the channels, generates the loops when
    they are not cached, and then starts the three loops, in this order. *)
Lemma load_level_switch_events be level_name w :
  mixer_available (self w) = true →
  current_level (self w) ≠ Some level_name →
  mixer_available (self (load_level be level_name w)) = true →
  ∃ bass melody drums c0 c1 c2 gen,
    proc_sounds (self (load_level be level_name w)) !! level_name
    = Some (bass, melody, drums)
    ∧ (gen = [] ∧ proc_sounds (self w) !! level_name
                  = Some (bass, melody, drums)
       ∨ gen = [EvGenerate level_name]
         ∧ proc_sounds (self w) !! level_name = None)
    ∧ events (load_level be level_name w)
      = events w ++ (EvStop <$> proc_channels (self w)) ++ gen
                 ++ [EvPlay c0 bass; EvPlay c1 melody; EvPlay c2 drums].
Proof.
  intros Hav Hcur. unfold load_level. rewrite Hav. cbn [negb].
  rewrite decide_False by congruence.
  cbn [set_self emit self np_random events set_current_level proc_sounds
       mixer_available proc_channels].
  destruct (proc_sounds (self w) !! level_name)
    as [[[bass melody] drums]|] eqn:Hhit.
  - match goal with
    | |- context [play_all ?b ?i ?l ?w0] =>
      pose proof (play_all_self b i l w0) as [Hs _];
      pose proof (play_all_three b w0 bass melody drums) as Hp;
      destruct (play_all b i l w0) as [[] w2]
    end; cbn [snd fst] in Hs, Hp; cbn [set_self self events]; rewrite Hs;
      [|cbn; discriminate].
    intros _. destruct (Hp eq_refl) as (c0 & c1 & c2 & _ & _ & _ & ->).
    exists bass, melody, drums, c0, c1, c2, [].
    cbn. split; [done|]. split; [by left|]. by rewrite <- !app_assoc.
  - match goal with
    | |- context [_generate_famicom_loop ?b ?s ?n ?d ?g] =>
      destruct (_generate_famicom_loop b s n d g)
        as [[[[bass melody] drums]|] g']
    end; [|cbn; discriminate].
    match goal with
    | |- context [play_all ?b ?i ?l ?w0] =>
      pose proof (play_all_self b i l w0) as [Hs _];
      pose proof (play_all_three b w0 bass melody drums) as Hp;
      destruct (play_all b i l w0) as [[] w2]
    end; cbn [snd fst] in Hs, Hp; cbn [set_self self events]; rewrite Hs;
      [|cbn; discriminate].
    intros _. destruct (Hp eq_refl) as (c0 & c1 & c2 & _ & _ & _ & ->).
    exists bass, melody, drums, c0, c1, c2, [EvGenerate level_name].
    cbn. split; [by rewrite lookup_insert_eq|]. split; [by right|].
    by rewrite <- !app_assoc.
Qed.

(** C9: a switch to another theme that leaves the mixer available (the
    loops were found or generated, and the three [play] calls went
    through) ends with the three targets at 0.5 and the three current
    volumes at 0, and with the new theme as the current one. *)
Theorem load_level_resets_volumes be level_name w :
  mixer_available (self w) = true →
  current_level (self w) ≠ Some level_name →
  mixer_available (self (load_level be level_name w)) = true →
  proc_target_volumes (self (load_level be level_name w))
  = [1 # 2; 1 # 2; 1 # 2]%Q
  ∧ proc_current_volumes (self (load_level be level_name w)) = [0; 0; 0]%Q
  ∧ current_level (self (load_level be level_name w)) = Some level_name.
Proof.
  intros Hav Hcur. unfold load_level. rewrite Hav. cbn [negb].
  rewrite decide_False by congruence.
  cbn [set_self emit self np_random events set_current_level proc_sounds
       mixer_available proc_channels].
  destruct (proc_sounds (self w) !! level_name) as [[[bass melody] drums]|].
  - match goal with
    | |- context [play_all ?b ?i ?l ?w0] =>
      pose proof (play_all_self b i l w0) as [Hs _];
      destruct (play_all b i l w0) as [[] w2]
    end; cbn [snd] in Hs; cbn [set_self self]; rewrite Hs; [done|].
    cbn. discriminate.
  - match goal with
    | |- context [_generate_famicom_loop ?b ?s ?n ?d ?g] =>
      destruct (_generate_famicom_loop b s n d g)
        as [[[[bass melody] drums]|] g']
    end; [|cbn; discriminate].
    match goal with
    | |- context [play_all ?b ?i ?l ?w0] =>
      pose proof (play_all_self b i l w0) as [Hs _];
      destruct (play_all b i l w0) as [[] w2]
    end; cbn [snd] in Hs; cbn [set_self self]; rewrite Hs; [done|].
    cbn. discriminate.
Qed.

(** C10: when the loops of a theme that is neither current nor cached
    cannot be generated, [load_level] has already stored the theme as the
    current level and stopped the channels; the mixer is then disabled and
    the cache is as it was. *)
Theorem load_level_failure_keeps_level be level_name w :
  mixer_available (self w) = true →
  current_level (self w) ≠ Some level_name →
  proc_sounds (self w) !! level_name = None →
  (_generate_famicom_loop be (self w) level_name 4 (np_random w)).1 = None →
  current_level (self (load_level be level_name w)) = Some level_name
  ∧ mixer_available (self (load_level be level_name w)) = false
  ∧ events (load_level be level_name w)
    = events w ++ (EvStop <$> proc_channels (self w))
               ++ [EvGenerate level_name]
  ∧ proc_sounds (self (load_level be level_name w)) = proc_sounds (self w).
Proof.
  intros Hav Hcur Hmiss Hgen. unfold load_level. rewrite Hav. cbn [negb].
  rewrite decide_False by congruence.
  cbn [set_self emit self np_random events set_current_level proc_sounds
       mixer_available proc_channels].
  rewrite Hmiss.
  rewrite (generate_self_irrelevant be _ (self w)) by done.
  destruct (_generate_famicom_loop be (self w) level_name 4 (np_random w))
    as [[loops|] g']; [done|].
  cbn. by rewrite <- app_assoc.
Qed.

(** C4: on an available mixer, [update] stores as target volume
    [0.3 + 0.4 * min(1, speed / 5)], halved when an enemy is near; for a
    speed that is not negative this is the clamped value of the
    specification.  Speed 5 gives 0.7, or 0.35 with an enemy near; speed 0
    gives 0.3. *)
Theorem update_target_volume player_speed near w :
  mixer_available (self w) = true →
  length (proc_current_volumes (self w)) = 3%nat →
  (0 <= player_speed)%Q →
  (∃ w', update player_speed near w = Some w'
     ∧ target_volume (self w')
       = (if near
          then ((3 # 10) + (4 # 10) * Qmin 1 (player_speed / 5)) * (1 # 2)
          else (3 # 10) + (4 # 10) * Qmin 1 (player_speed / 5))%Q
     ∧ (target_volume (self w') == target_volume_spec player_speed near)%Q)
  ∧ (base_vol 5 false == 7 # 10)%Q
  ∧ (base_vol 5 true == 35 # 100)%Q
  ∧ (base_vol 0 false == 3 # 10)%Q.
Proof.
  intros Hav Hlen Hs. split; [|by repeat split].
  destruct (proc_current_volumes (self w)) as [|c0 [|c1 [|c2 [|]]]] eqn:Hc;
    try discriminate.
  destruct (update_enabled player_speed near w c0 c1 c2 Hav Hc)
    as (w' & -> & Ht & _).
  exists w'. split; [done|]. rewrite Ht.
  split; [by destruct near|by apply base_vol_meets_spec].
Qed.

(** C5: [N] passes of the smoothing loop, started with the three current
    volumes at 0 and with the target standing at [V], leave each current
    volume equal to [V * (1 - 0.9^N)]. *)
Theorem smoothing_closed_form V N w :
  target_volume (self w) = V →
  proc_current_volumes (self w) = [0; 0; 0]%Q →
  ∃ w', smooth_frames N w = Some w'
    ∧ target_volume (self w') = V
    ∧ length (proc_current_volumes (self w')) = 3%nat
    ∧ Forall (λ c, c == V * (1 - (9 # 10) ^ Z.of_nat N))%Q
             (proc_current_volumes (self w')).
Proof.
  intros HV Hc.
  assert (0 == smoothed_spec (target_volume (self w)) 0)%Q as H0.
  { unfold smoothed_spec. change ((9 # 10) ^ Z.of_nat 0)%Q with 1%Q. ring. }
  destruct (smooth_frames_closed_form N 0 w 0 0 0 Hc H0 H0 H0)
    as (w' & -> & Ht & Hl & Hall).
  exists w'. rewrite Ht, HV in *. by repeat split.
Qed.

(** The same over whole frames: [N] calls of [update] with the same
    inputs. *)
Lemma update_frames_closed_form be player_speed near N : ∀ k w c0 c1 c2,
  mixer_available (self w) = true →
  proc_current_volumes (self w) = [c0; c1; c2] →
  (c0 == smoothed_spec (base_vol player_speed near) k)%Q →
  (c1 == smoothed_spec (base_vol player_speed near) k)%Q →
  (c2 == smoothed_spec (base_vol player_speed near) k)%Q →
  ∃ w', run_calls be (replicate N (CallUpdate player_speed near)) w = Some w'
    ∧ length (proc_current_volumes (self w')) = 3%nat
    ∧ Forall (λ c, c == smoothed_spec (base_vol player_speed near) (k + N))%Q
             (proc_current_volumes (self w')).
Proof.
  induction N as [|N IH]; intros k w c0 c1 c2 Hav Hc H0 H1 H2.
  - exists w. rewrite Hc, Nat.add_0_r. repeat split; try done.
    by repeat constructor.
  - cbn [replicate run_calls run_call].
    destruct (update_enabled player_speed near w c0 c1 c2 Hav Hc)
      as (w1 & -> & Ht1 & Hc1 & Hav1).
    cbn [mbind option_bind].
    destruct (IH (S k) w1 _ _ _ Hav1 Hc1) as (w' & -> & Hl' & Hall);
      try by apply smoothed_spec_step.
    exists w'. repeat split; try done. by rewrite <- Nat.add_succ_comm.
Qed.

End Properties.

(** * Concrete runs *)

Set Warnings "-inexact-float".

(** At 22050 Hz the binary64 computation and the rational model give the
    same sample counts for every theme, and the same fade lengths and
    buffer lengths at the inputs used above. *)
Example counts_agree_22050 :
  counts_binary64 22050 <$> tempos_binary64
  = counts_rational 22050 <$> tempos
  ∧ counts_rational 22050 <$> tempos
    = [[11025; 2; 1; 0]; [9450; 2; 1; 0]; [13230; 1; 0; 0];
       [8268; 2; 1; 0]; [7350; 3; 1; 0]; [6615; 3; 1; 0]].
Proof. split; vm_compute; reflexivity. Qed.

Example lengths_agree_22050 :
  [float_int (4 * 22050); float_int (0.005 * 22050);
   float_int (0.003 * 22050); float_int (0.375 * 22050);
   float_int (0.001 * 22050)]%float
  = [py_int (4 * 22050); py_int ((5 # 1000) * 22050);
     py_int ((3 # 1000) * 22050); py_int ((3 # 8) * 22050);
     py_int ((1 # 1000) * 22050)]%Q.
Proof. vm_compute. reflexivity. Qed.

(** The three volumes of the ducking example, in binary64. *)
Example ducking_binary64 :
  ((0.3 + 0.4 * float_min1 (5 / 5) =? 0.7)
   && ((0.3 + 0.4 * float_min1 (5 / 5)) * 0.5 =? 0.35)
   && (0.3 + 0.4 * float_min1 (0 / 5) =? 0.3))%float = true.
Proof. vm_compute. reflexivity. Qed.

Example world_on_last_plays :
  mixer_available (self world_on_last) = true
  ∧ current_level (self world_on_last) = Some "last"
  ∧ length (events world_on_last) = 7%nat.
Proof. vm_compute. done. Qed.


Lemma set_route_on_last_only_stores_witness :
  "genocide" ≠ route (self world_on_last)
  ∧ current_level (self world_on_last) = Some "last"
  ∧ events (@set_route approx_numpy (device 200 never_raises)
                      "genocide" world_on_last)
    = events world_on_last.
Proof.
  assert ("genocide" ≠ route (self world_on_last)) as H1
    by (vm_compute; discriminate).
  assert (current_level (self world_on_last) = Some "last") as H2
    by (vm_compute; reflexivity).
  split; [exact H1|]. split; [exact H2|].
  exact (proj2 (@set_route_on_last_only_stores approx_numpy
                  (device 200 never_raises) "genocide" world_on_last H1 H2)).
Defined.

Lemma disabled_stays_disabled_witness :
  mixer_available (self (initial_world no_device constant_stream)) = false
  ∧ ∃ w',
      @run_calls approx_numpy no_device
        [CallLoadLevel "ruins"; CallSetRoute "genocide"; CallUpdate 3 true;
         CallLoadLevel "last"]
        (initial_world no_device constant_stream) = Some w'
      ∧ mixer_available (self w') = false
      ∧ events w' = [].
Proof.
  assert (mixer_available (self (initial_world no_device constant_stream))
          = false) as H1 by reflexivity.
  split; [exact H1|].
  destruct (@disabled_stays_disabled approx_numpy no_device
              [CallLoadLevel "ruins"; CallSetRoute "genocide";
               CallUpdate 3 true; CallLoadLevel "last"]
              (initial_world no_device constant_stream) H1)
    as (w' & Hrun & Hav & Hev & _).
  exists w'. split; [exact Hrun|]. split; [exact Hav|exact Hev].
Defined.

Lemma load_level_resets_volumes_witness :
  mixer_available (self (initial_world (device 200 never_raises) constant_stream)) = true
  ∧ current_level (self (initial_world (device 200 never_raises) constant_stream))
    ≠ Some "last"
  ∧ mixer_available (self world_on_last) = true
  ∧ proc_target_volumes (self world_on_last) = [1 # 2; 1 # 2; 1 # 2]%Q
  ∧ proc_current_volumes (self world_on_last) = [0; 0; 0]%Q.
Proof.
  assert (mixer_available (self (initial_world (device 200 never_raises) constant_stream))
          = true) as H1 by reflexivity.
  assert (current_level (self (initial_world (device 200 never_raises) constant_stream))
          ≠ Some "last") as H2 by discriminate.
  assert (mixer_available (self world_on_last) = true) as H3
    by (vm_compute; reflexivity).
  destruct (@load_level_resets_volumes approx_numpy
              (device 200 never_raises) "last"
              (initial_world (device 200 never_raises) constant_stream) H1 H2 H3)
    as (Ht & Hc & _).
  split; [exact H1|]. split; [exact H2|]. split; [exact H3|].
  split; [exact Ht|exact Hc].
Defined.

Lemma load_level_failure_keeps_level_witness :
  let w := initial_world (device 1 never_raises) constant_stream in
  mixer_available (self w) = true
  ∧ current_level (self w) ≠ Some "ruins"
  ∧ proc_sounds (self w) !! "ruins" = None
  ∧ (@_generate_famicom_loop approx_numpy (device 1 never_raises)
       (self w) "ruins" 4 (np_random w)).1 = None
  ∧ current_level
      (self (@load_level approx_numpy (device 1 never_raises) "ruins" w))
    = Some "ruins"
  ∧ mixer_available
      (self (@load_level approx_numpy (device 1 never_raises) "ruins" w))
    = false.
Proof.
  intros w.
  assert (mixer_available (self w) = true) as H1 by reflexivity.
  assert (current_level (self w) ≠ Some "ruins") as H2 by discriminate.
  assert (proc_sounds (self w) !! "ruins" = None) as H3 by reflexivity.
  assert ((@_generate_famicom_loop approx_numpy (device 1 never_raises)
             (self w) "ruins" 4 (np_random w)).1 = None) as H4
    by reflexivity.
  destruct (@load_level_failure_keeps_level approx_numpy
              (device 1 never_raises) "ruins" w H1 H2 H3 H4) as (Hc & Hav & _).
  split; [exact H1|]. split; [exact H2|]. split; [exact H3|].
  split; [exact H4|]. split; [exact Hc|exact Hav].
Defined.

Lemma update_target_volume_witness :
  let w := initial_world (device 22050 never_raises) constant_stream in
  mixer_available (self w) = true
  ∧ length (proc_current_volumes (self w)) = 3%nat
  ∧ (0 <= 5)%Q
  ∧ ∃ w', update 5 true w = Some w'
          ∧ (target_volume (self w') == 35 # 100)%Q.
Proof.
  intros w.
  assert (mixer_available (self w) = true) as H1 by reflexivity.
  assert (length (proc_current_volumes (self w)) = 3%nat) as H2
    by reflexivity.
  assert (0 <= 5)%Q as H3 by discriminate.
  destruct (update_target_volume 5 true w H1 H2 H3)
    as ((w' & Hu & Ht & _) & _).
  split; [exact H1|]. split; [exact H2|]. split; [exact H3|].
  exists w'. split; [exact Hu|]. rewrite Ht. reflexivity.
Defined.

Lemma smoothing_closed_form_witness :
  let w := initial_world (device 22050 never_raises) constant_stream in
  target_volume (self w) = (1 # 2)%Q
  ∧ proc_current_volumes (self w) = [0; 0; 0]%Q
  ∧ ∃ w', smooth_frames 2 w = Some w'
          ∧ Forall (λ c, c == (1 # 2) * (1 - (9 # 10) ^ 2))%Q
                   (proc_current_volumes (self w')).
Proof.
  intros w.
  assert (target_volume (self w) = (1 # 2)%Q) as H1 by reflexivity.
  assert (proc_current_volumes (self w) = [0; 0; 0]%Q) as H2 by reflexivity.
  destruct (smoothing_closed_form (1 # 2) 2 w H1 H2)
    as (w' & Hrun & _ & _ & Hall).
  split; [exact H1|]. split; [exact H2|].
  exists w'. split; [exact Hrun|exact Hall].
Defined.

(** * Further properties of the sound engine *)

Section SoundProperties.

Context {numpy : NumPy}.

(** ** The triangle generator and the noise generator, sample by sample *)

Lemma triangle_wave_fits be sr freq duration volume :
  get_init be = Some sr →
  0 < py_int (duration * inject_Z sr) →
  py_int ((5 # 1000) * inject_Z sr) ≤ py_int (duration * inject_Z sr) →
  _triangle_wave be freq duration volume
  = quantize (triangle_samples freq duration
                (Z.to_nat (py_int (duration * inject_Z sr))))
             (tone_envelope (Z.to_nat (py_int (duration * inject_Z sr)))
                (py_int ((5 # 1000) * inject_Z sr)))
             volume.
Proof.
  intros Hsr Hn Hfade. unfold _triangle_wave. rewrite Hsr. simpl.
  destruct (Z.leb_spec (py_int (duration * inject_Z sr)) 0); [lia|].
  rewrite fade_envelope_ok by lia. done.
Qed.


Lemma noise_fits be sr duration volume mode g :
  get_init be = Some sr →
  0 < py_int (duration * inject_Z sr) →
  py_int ((3 # 1000) * inject_Z sr) ≤ py_int (duration * inject_Z sr) →
  let n := Z.to_nat (py_int (duration * inject_Z sr)) in
  _noise be duration volume mode g
  = (quantize
       (if String.eqb mode "white" then (np_random_uniform (-1) 1 n g).1
        else scale_even (np_random_uniform (-1) 1 n g).1)
       (tone_envelope n (py_int ((3 # 1000) * inject_Z sr))) volume,
     advance n g).
Proof.
  intros Hsr Hn Hfade n. unfold _noise. rewrite Hsr.
  destruct (Z.leb_spec (py_int (duration * inject_Z sr)) 0); [lia|].
  unfold np_random_uniform. cbn [fst].
  rewrite fade_envelope_ok by lia. done.
Qed.


(** ** The fades reach silence *)

Lemma py_int_zero (x : Q) : (x == 0)%Q → py_int x = 0.
Proof.
  destruct x as [n d]. unfold Qeq, py_int. simpl. intros Hx.
  assert (n = 0) as -> by lia. apply Z.quot_0_l. lia.
Qed.

Lemma astype_int16_silent (w e volume : Q) :
  (e == 0)%Q → astype_int16 (w * (e * volume) * 32767) = 0.
Proof.
  intros He. unfold astype_int16. rewrite py_int_zero; [done|].
  rewrite He. ring.
Qed.

Lemma tone_envelope_first n fade :
  2 ≤ fade → fade < Z.of_nat n →
  ∃ e, tone_envelope n fade !! 0%nat = Some e ∧ (e == 0)%Q.
Proof.
  intros H2 Hn. unfold tone_envelope.
  destruct (Z.ltb_spec 0 fade); [|lia]. unfold envelope_spec.
  rewrite lookup_app_l.
  2:{ rewrite length_take, length_app, length_np_linspace, length_drop,
        length_replicate. lia. }
  rewrite lookup_take_lt by lia.
  rewrite lookup_app_l by (rewrite length_np_linspace; lia).
  rewrite np_linspace_lookup by lia.
  eexists; split; [done|].
  change (inject_Z (Z.of_nat 0)) with 0%Q.
  by rewrite Qmult_0_l, Qplus_0_l.
Qed.

Lemma tone_envelope_last n fade :
  2 ≤ fade → fade ≤ Z.of_nat n →
  ∃ e, tone_envelope n fade !! (n - 1)%nat = Some e ∧ (e == 0)%Q.
Proof.
  intros H2 Hn. unfold tone_envelope.
  destruct (Z.ltb_spec 0 fade); [|lia]. unfold envelope_spec.
  assert (length (take (n - Z.to_nat fade)
            (np_linspace 0 1 (Z.to_nat fade) true
             ++ drop (Z.to_nat fade) (replicate n 1%Q)))
          = (n - Z.to_nat fade)%nat) as Hl.
  { rewrite length_take, length_app, length_np_linspace, length_drop,
      length_replicate. lia. }
  rewrite lookup_app_r by lia. rewrite Hl.
  replace (n - 1 - (n - Z.to_nat fade))%nat with (Z.to_nat fade - 1)%nat
    by lia.
  rewrite np_linspace_lookup by lia.
  eexists; split; [done|].
  assert (inject_Z (Z.of_nat (Z.to_nat fade - 1)) == inject_Z fade - 1)%Q
    as ->.
  { rewrite Nat2Z.inj_sub, Z2Nat.id by lia.
    unfold Z.sub. rewrite inject_Z_plus, inject_Z_opp.
    change (inject_Z 1) with 1%Q. ring. }
  field. intros E.
  assert (1 < inject_Z fade)%Q.
  { change 1%Q with (inject_Z 1). rewrite <- Zlt_Qlt. lia. }
  lra.
Qed.

Lemma quantize_silent wave env volume (i : nat) e :
  (i < length wave)%nat → env !! i = Some e → (e == 0)%Q →
  ∃ snd, quantize wave env volume = Some snd ∧ snd !! i = Some (0, 0).
Proof.
  intros Hi He H0.
  destruct (lookup_lt_is_Some_2 wave i Hi) as [w Hw].
  destruct (quantize_lookup wave env volume i w e Hw He) as (snd & Hq & Hv).
  exists snd. split; [done|]. by rewrite Hv, astype_int16_silent.
Qed.

(** X3: The fade-in starts from silence and the fade-out ends in it: when the
    fade has at least two samples and is shorter than the buffer, the
    first and the last pair of a pulse or triangle tone are (0, 0). *)
Theorem tone_ends_silent be sr freq duration duty volume :
  get_init be = Some sr →
  2 ≤ py_int ((5 # 1000) * inject_Z sr) →
  py_int ((5 # 1000) * inject_Z sr) < py_int (duration * inject_Z sr) →
  ∃ pulse triangle,
    _pulse_wave be freq duration duty volume = Some pulse
    ∧ _triangle_wave be freq duration volume = Some triangle
    ∧ pulse !! 0%nat = Some (0, 0)
    ∧ pulse !! (length pulse - 1)%nat = Some (0, 0)
    ∧ triangle !! 0%nat = Some (0, 0)
    ∧ triangle !! (length triangle - 1)%nat = Some (0, 0).
Proof.
  intros Hsr H2 Hn.
  set (n := py_int (duration * inject_Z sr)) in *.
  set (fade := py_int ((5 # 1000) * inject_Z sr)) in *.
  destruct (tone_envelope_first (Z.to_nat n) fade) as (e0 & He0 & Hz0);
    [lia..|].
  destruct (tone_envelope_last (Z.to_nat n) fade) as (e1 & He1 & Hz1);
    [lia..|].
  rewrite (pulse_wave_fits be sr), (triangle_wave_fits be sr) by (done || lia).
  fold n fade.
  assert (length (pulse_samples freq duration duty (Z.to_nat n))
          = Z.to_nat n) as Hpl.
  { unfold pulse_samples. by rewrite length_fmap, length_np_linspace. }
  assert (length (triangle_samples freq duration (Z.to_nat n))
          = Z.to_nat n) as Htl.
  { unfold triangle_samples. by rewrite length_fmap, length_np_linspace. }
  destruct (length_quantize (pulse_samples freq duration duty (Z.to_nat n))
              (tone_envelope (Z.to_nat n) fade) volume) as (p & Hp & Hlp).
  destruct (length_quantize (triangle_samples freq duration (Z.to_nat n))
              (tone_envelope (Z.to_nat n) fade) volume) as (t & Ht & Hlt).
  rewrite Hpl, length_tone_envelope in Hlp by lia.
  rewrite Htl, length_tone_envelope in Hlt by lia.
  assert (length p = Z.to_nat n) as Hpn by lia.
  assert (length t = Z.to_nat n) as Htn by lia.
  exists p, t. rewrite Hpn, Htn. split; [done|]. split; [done|].
  destruct (quantize_silent _ _ volume 0 e0 ltac:(rewrite Hpl; lia) He0 Hz0)
    as (p' & Hp' & Hp0).
  destruct (quantize_silent _ _ volume (Z.to_nat n - 1) e1
              ltac:(rewrite Hpl; lia) He1 Hz1) as (p'' & Hp'' & Hp1).
  destruct (quantize_silent _ _ volume 0 e0 ltac:(rewrite Htl; lia) He0 Hz0)
    as (t' & Ht' & Ht0).
  destruct (quantize_silent _ _ volume (Z.to_nat n - 1) e1
              ltac:(rewrite Htl; lia) He1 Hz1) as (t'' & Ht'' & Ht1).
  rewrite Hp in Hp', Hp''. rewrite Ht in Ht', Ht''.
  injection Hp' as <-. injection Hp'' as <-.
  injection Ht' as <-. injection Ht'' as <-. done.
Qed.

(** ** The drum kit *)

(** A drum that can be made is made, with the length asked for. *)
Lemma drum_succeeds be sr duration type volume g :
  get_init be = Some sr →
  0 < py_int (duration * inject_Z sr) →
  type = "kick" ∨ type = "snare"
  ∨ (type = "hat"
     ∧ py_int ((3 # 1000) * inject_Z sr) ≤ py_int (duration * inject_Z sr)) →
  ∃ snd,
    _drum be duration type volume g
    = (Some snd, advance (Z.to_nat (py_int (duration * inject_Z sr))) g)
    ∧ Z.of_nat (length snd) = py_int (duration * inject_Z sr).
Proof.
  intros Hsr Hn Hty. unfold _drum.
  destruct Hty as [-> | [-> | [-> Hfade]]]; cbn [String.eqb Ascii.eqb Bool.eqb].
  - rewrite Hsr.
    destruct (Z.leb_spec (py_int (duration * inject_Z sr)) 0); [lia|].
    unfold np_random_uniform, quantize_drum, make_sound, np_repeat2.
    eexists; split; [done|].
    rewrite !length_fmap, !length_zip_with, !length_fmap, length_seq,
      length_np_linspace. lia.
  - rewrite Hsr.
    destruct (Z.leb_spec (py_int (duration * inject_Z sr)) 0); [lia|].
    unfold np_random_uniform, quantize_drum, make_sound, np_repeat2.
    eexists; split; [done|].
    rewrite !length_fmap, !length_zip_with, !length_fmap, length_seq,
      length_np_linspace. lia.
  - rewrite (noise_fits be sr) by done. cbn zeta.
    match goal with
    | |- context [quantize ?w ?e ?v] =>
      destruct (length_quantize w e v) as (snd & -> & Hl)
    end.
    exists snd. split; [done|]. rewrite Hl. cbn [String.eqb Ascii.eqb Bool.eqb].
    unfold np_random_uniform. cbn [fst].
    rewrite length_fmap, length_seq, length_tone_envelope; lia.
Qed.


(** The cases in which a drum is missing. *)
Lemma drum_fails_iff be duration type volume g :
  ((_drum be duration type volume g).1 = None
   ↔ (type ≠ "kick" ∧ type ≠ "snare" ∧ type ≠ "hat")
     ∨ get_init be = None
     ∨ ∃ sr, get_init be = Some sr
         ∧ (py_int (duration * inject_Z sr) ≤ 0
            ∨ (type = "hat"
               ∧ py_int (duration * inject_Z sr)
                 < py_int ((3 # 1000) * inject_Z sr))))
  ∧ ((type ≠ "kick" ∧ type ≠ "snare" ∧ type ≠ "hat")
     ∨ get_init be = None
     ∨ (∃ sr, get_init be = Some sr ∧ py_int (duration * inject_Z sr) ≤ 0) →
     _drum be duration type volume g = (None, g)).
Proof.
  assert (∀ sr, get_init be = Some sr →
            py_int (duration * inject_Z sr) ≤ 0 →
            _drum be duration type volume g = (None, g)) as Hsmall.
  { intros sr Hsr Hn. unfold _drum, _noise. rewrite Hsr.
    destruct (Z.leb_spec (py_int (duration * inject_Z sr)) 0); [|lia].
    by repeat case_match. }
  assert (get_init be = None → _drum be duration type volume g = (None, g))
    as Hnone.
  { intros Hsr. unfold _drum, _noise. rewrite Hsr. by repeat case_match. }
  assert (type ≠ "kick" ∧ type ≠ "snare" ∧ type ≠ "hat" →
          _drum be duration type volume g = (None, g)) as Hunknown.
  { intros (Hk & Hs & Hh). unfold _drum.
    apply String.eqb_neq in Hk, Hs, Hh. by rewrite Hk, Hs, Hh. }
  split.
  2:{ intros [?|[?|(sr & ? & ?)]]; eauto. }
  split.
  - intros Hfail.
    destruct (decide (type = "kick" ∨ type = "snare" ∨ type = "hat"))
      as [Hty|Hty]; [|left; tauto].
    destruct (get_init be) as [sr|] eqn:Hsr; [|by right; left].
    right; right. exists sr. split; [done|].
    destruct (Z.le_gt_cases (py_int (duration * inject_Z sr)) 0) as [|Hn];
      [by left|right].
    destruct (decide (type = "hat"
                      ∧ py_int (duration * inject_Z sr)
                        < py_int ((3 # 1000) * inject_Z sr))) as [|Hok];
      [done|exfalso].
    destruct (drum_succeeds be sr duration type volume g Hsr ltac:(lia))
      as (snd & Hd & _).
    { destruct Hty as [-> | [-> | ->]]; [by left|by right; left|].
      right; right. split; [done|].
      destruct (Z.le_gt_cases (py_int ((3 # 1000) * inject_Z sr))
                  (py_int (duration * inject_Z sr))); [done|].
      exfalso. apply Hok. split; [done|lia]. }
    by rewrite Hd in Hfail.
  - intros [Hu|[Hsr|(sr & Hsr & [Hn|[-> Hshort]])]].
    + by rewrite Hunknown.
    + by rewrite Hnone.
    + by rewrite (Hsmall sr).
    + destruct (Z.le_gt_cases (py_int (duration * inject_Z sr)) 0) as [|Hn];
        [by rewrite (Hsmall sr)|].
      unfold _drum. cbn [String.eqb Ascii.eqb Bool.eqb].
      apply (noise_short be sr); [done|lia|done].
Qed.


(** ** What the loops contain *)

Lemma pulse_wave_Some_length be sr freq duration duty volume snd :
  get_init be = Some sr →
  _pulse_wave be freq duration duty volume = Some snd →
  length snd = Z.to_nat (py_int (duration * inject_Z sr)).
Proof.
  intros Hsr Hs.
  destruct (Z.le_gt_cases (py_int (duration * inject_Z sr)) 0) as [Hn|Hn].
  { assert (_pulse_wave be freq duration duty volume = None) as E.
    { apply pulse_wave_None_iff. right. exists sr. auto. }
    congruence. }
  destruct (Z.le_gt_cases (py_int ((5 # 1000) * inject_Z sr))
              (py_int (duration * inject_Z sr))) as [Hf|Hf].
  - destruct (pulse_wave_length be sr freq duration duty volume)
      as (snd' & Hs' & Hl); [done|lia|done|]. congruence.
  - rewrite (pulse_wave_short be sr) in Hs by (done || lia). done.
Qed.

Lemma triangle_wave_Some_length be sr freq duration volume snd :
  get_init be = Some sr →
  _triangle_wave be freq duration volume = Some snd →
  length snd = Z.to_nat (py_int (duration * inject_Z sr)).
Proof.
  intros Hsr Hs.
  destruct (Z.le_gt_cases (py_int (duration * inject_Z sr)) 0) as [Hn|Hn].
  { assert (_triangle_wave be freq duration volume = None) as E.
    { apply triangle_wave_None_iff. right. exists sr. auto. }
    congruence. }
  destruct (Z.le_gt_cases (py_int ((5 # 1000) * inject_Z sr))
              (py_int (duration * inject_Z sr))) as [Hf|Hf].
  - destruct (triangle_wave_length be sr freq duration volume)
      as (snd' & Hs' & Hl); [done|lia|done|]. congruence.
  - rewrite (triangle_wave_short be sr) in Hs by (done || lia). done.
Qed.

Lemma drum_Some_length be sr duration type volume g snd g' :
  get_init be = Some sr →
  _drum be duration type volume g = (Some snd, g') →
  length snd = Z.to_nat (py_int (duration * inject_Z sr)).
Proof.
  intros Hsr Hs.
  destruct (drum_fails_iff be duration type volume g) as [[_ Hfail] _].
  destruct (decide (type = "kick" ∨ type = "snare" ∨ type = "hat"))
    as [Hty|Hty].
  2:{ exfalso. assert ((_drum be duration type volume g).1 = None) as E.
      { apply Hfail. left. tauto. }
      by rewrite Hs in E. }
  destruct (Z.le_gt_cases (py_int (duration * inject_Z sr)) 0) as [Hn|Hn].
  { exfalso. assert ((_drum be duration type volume g).1 = None) as E.
    { apply Hfail. right; right. exists sr. auto. }
    by rewrite Hs in E. }
  destruct (decide (type = "hat"
                    ∧ py_int (duration * inject_Z sr)
                      < py_int ((3 # 1000) * inject_Z sr))) as [Hshort|Hok].
  { exfalso. assert ((_drum be duration type volume g).1 = None) as E.
    { apply Hfail. right; right. exists sr. auto. }
    by rewrite Hs in E. }
  destruct (drum_succeeds be sr duration type volume g Hsr ltac:(lia))
    as (snd' & Hd & Hl).
  { destruct Hty as [-> | [-> | ->]]; [by left|by right; left|].
    right; right. split; [done|].
    destruct (Z.le_gt_cases (py_int ((3 # 1000) * inject_Z sr))
                (py_int (duration * inject_Z sr))); [done|].
    exfalso. apply Hok. split; [done|lia]. }
  rewrite Hs in Hd. injection Hd as <- _. lia.
Qed.

Lemma tone_pattern_inv gen samples_per_beat notes pat :
  (∀ f s, gen f = Some s → length s = Z.to_nat samples_per_beat) →
  tone_pattern gen samples_per_beat notes = Some pat →
  length pat = length notes
  ∧ Forall (λ a, length a = Z.to_nat samples_per_beat) pat
  ∧ ∀ j : nat, notes !! j = Some 0 →
      pat !! j = Some (replicate (Z.to_nat samples_per_beat) 0).
Proof.
  intros Hgen. revert pat.
  induction notes as [|note notes IH]; intros pat Hpat.
  - injection Hpat as <-. by repeat split.
  - cbn [tone_pattern] in Hpat. destruct (Z.eqb_spec note 0) as [->|Hnz].
    + destruct (tone_pattern gen samples_per_beat notes) as [pat'|];
        [|done].
      injection Hpat as <-. destruct (IH pat' eq_refl) as (Hl & Hall & Hz).
      split; [by simpl; rewrite Hl|].
      split; [constructor; [by rewrite length_replicate|done]|].
      intros [|j] Hj; [done|]. by apply Hz.
    + destruct (gen (inject_Z note)) as [tone|] eqn:Htone; [|done].
      cbn [mbind option_bind] in Hpat. case_decide; [done|].
      destruct (tone_pattern gen samples_per_beat notes) as [pat'|];
        [|done].
      injection Hpat as <-. destruct (IH pat' eq_refl) as (Hl & Hall & Hz).
      split; [by simpl; rewrite Hl|].
      split.
      { constructor; [|done]. unfold sndarray_mono.
        rewrite length_fmap. by apply (Hgen (inject_Z note)). }
      intros [|j] Hj; [|by apply Hz]. simpl in Hj. congruence.
Qed.

(** The beats of the drum pattern that get no drum: even, not a multiple of
    4, and not 6 modulo 8. *)
Lemma drums_pattern_inv be sr samples_per_beat beat_duration beats g pat g' :
  get_init be = Some sr →
  samples_per_beat = py_int (beat_duration * inject_Z sr) →
  drums_pattern be samples_per_beat beat_duration beats g = (Some pat, g') →
  length pat = length beats
  ∧ Forall (λ a, length a = Z.to_nat samples_per_beat) pat
  ∧ ∀ (j i : nat), beats !! j = Some i →
      (i mod 4 ≠ 0)%nat → (i mod 8 ≠ 6)%nat → (i mod 2 ≠ 1)%nat →
      pat !! j = Some (replicate (Z.to_nat samples_per_beat) 0).
Proof.
  intros Hsr ->. revert g pat g'.
  induction beats as [|b beats IH]; intros g pat g' Hpat.
  - injection Hpat as <- _. by repeat split.
  - cbn [drums_pattern] in Hpat.
    assert (∀ type volume,
      match _drum be beat_duration type volume g with
      | (None, g) => (None, g)
      | (Some drum, g) =>
        if decide (length drum = 0%nat) then (None, g) else
        let '(r, g) :=
          drums_pattern be (py_int (beat_duration * inject_Z sr))
                        beat_duration beats g in
        ((sndarray_mono drum ::.) <$> r, g)
      end = (Some pat, g') →
      ∃ blk pat', pat = blk :: pat'
        ∧ length blk = Z.to_nat (py_int (beat_duration * inject_Z sr))
        ∧ length pat' = length beats
        ∧ Forall (λ a, length a
                       = Z.to_nat (py_int (beat_duration * inject_Z sr))) pat'
        ∧ ∀ (j i : nat), beats !! j = Some i →
            (i mod 4 ≠ 0)%nat → (i mod 8 ≠ 6)%nat → (i mod 2 ≠ 1)%nat →
            pat' !! j
            = Some (replicate
                      (Z.to_nat (py_int (beat_duration * inject_Z sr))) 0))
      as Hhit.
    { intros type volume Hd.
      destruct (_drum be beat_duration type volume g) as [[drum|] g1] eqn:Hdr;
        [|done].
      case_decide; [done|].
      destruct (drums_pattern be _ beat_duration beats g1)
        as [[pat'|] g2] eqn:Hrest; [|done].
      injection Hd as <- <-.
      destruct (IH _ _ _ Hrest) as (Hl & Hall & Hz).
      exists (sndarray_mono drum), pat'. split; [done|].
      split; [|done]. unfold sndarray_mono. rewrite length_fmap.
      by apply (drum_Some_length be sr beat_duration type volume g drum g1). }
    assert (∀ blk pat',
      pat = blk :: pat' →
      length blk = Z.to_nat (py_int (beat_duration * inject_Z sr)) →
      length pat' = length beats →
      Forall (λ a, length a
                   = Z.to_nat (py_int (beat_duration * inject_Z sr))) pat' →
      length pat = length (b :: beats)
      ∧ Forall (λ a, length a
                     = Z.to_nat (py_int (beat_duration * inject_Z sr))) pat)
      as Hshape.
    { intros blk pat' -> Hb Hl Hall. split; [by simpl; rewrite Hl|].
      by constructor. }
    repeat case_decide.
    + destruct (Hhit _ _ Hpat) as (blk & pat' & E & Hb & Hl & Hall & Hz).
      destruct (Hshape blk pat' E Hb Hl Hall) as [? ?].
      split; [done|]. split; [done|]. subst pat.
      intros [|j] i Hj; [|by apply Hz]. simpl in Hj. injection Hj as <-.
      lia.
    + destruct (Hhit _ _ Hpat) as (blk & pat' & E & Hb & Hl & Hall & Hz).
      destruct (Hshape blk pat' E Hb Hl Hall) as [? ?].
      split; [done|]. split; [done|]. subst pat.
      intros [|j] i Hj; [|by apply Hz]. simpl in Hj. injection Hj as <-.
      lia.
    + destruct (Hhit _ _ Hpat) as (blk & pat' & E & Hb & Hl & Hall & Hz).
      destruct (Hshape blk pat' E Hb Hl Hall) as [? ?].
      split; [done|]. split; [done|]. subst pat.
      intros [|j] i Hj; [|by apply Hz]. simpl in Hj. injection Hj as <-.
      lia.
    + destruct (drums_pattern be _ beat_duration beats g)
        as [[pat'|] g2] eqn:Hrest; [|done].
      injection Hpat as <- <-.
      destruct (IH _ _ _ Hrest) as (Hl & Hall & Hz).
      split; [by simpl; rewrite Hl|].
      split; [constructor; [by rewrite length_replicate|done]|].
      intros [|j] i Hj; [done|]. by apply Hz.
Qed.

Lemma generate_Some_inv be slf level_name duration g bass melody drums g'
    bass_freqs melody_notes tempo duty :
  theme_params level_name = (bass_freqs, melody_notes, tempo, duty) →
  _generate_famicom_loop be slf level_name duration g
  = (Some (bass, melody, drums), g') →
  let beat_duration := (60 / inject_Z tempo)%Q in
  ∃ sr bpat mpat dpat,
    get_init be = Some sr
    ∧ 0 < py_int (beat_duration * inject_Z sr)
    ∧ 0 < py_int (duration * inject_Z sr)
    ∧ tone_pattern (λ freq, _triangle_wave be freq beat_duration (1 # 2))
        (py_int (beat_duration * inject_Z sr)) bass_freqs = Some bpat
    ∧ tone_pattern (λ note, _pulse_wave be note beat_duration duty (4 # 10))
        (py_int (beat_duration * inject_Z sr)) melody_notes = Some mpat
    ∧ drums_pattern be (py_int (beat_duration * inject_Z sr)) beat_duration
        (seq 0 16) g = (Some dpat, g')
    ∧ to_stereo (take (Z.to_nat (py_int (duration * inject_Z sr)))
                   (tile_if_positive (concat bpat)
                      (py_int (duration
                               / (inject_Z (Z.of_nat (length bass_freqs))
                                  * beat_duration))))) = Some bass
    ∧ to_stereo (take (Z.to_nat (py_int (duration * inject_Z sr)))
                   (tile_if_positive (concat mpat)
                      (py_int (duration
                               / (inject_Z (Z.of_nat (length melody_notes))
                                  * beat_duration))))) = Some melody
    ∧ to_stereo (take (Z.to_nat (py_int (duration * inject_Z sr)))
                   (tile_if_positive (concat dpat)
                      (py_int (duration / (16 * beat_duration)))))
      = Some drums.
Proof.
  intros Hparams Hgen beat_duration. unfold _generate_famicom_loop in Hgen.
  rewrite Hparams in Hgen. fold beat_duration in Hgen.
  destruct (mixer_available slf); [|done]. cbn [negb] in Hgen.
  destruct (get_init be) as [sr|]; [|done].
  destruct (Z.leb_spec (py_int (beat_duration * inject_Z sr)) 0) as [|Hspb];
    [done|].
  destruct (tone_pattern _ _ bass_freqs) as [bpat|] eqn:Hb; [|done].
  destruct (tone_pattern _ _ melody_notes) as [mpat|] eqn:Hm; [|done].
  destruct (drums_pattern be _ beat_duration (seq 0 16) g)
    as [[dpat|] g1] eqn:Hd; [|done].
  destruct (Z.leb_spec (py_int (duration * inject_Z sr)) 0) as [|Ht];
    [done|].
  destruct (to_stereo (take _ (tile_if_positive (concat bpat) _)))
    as [b|] eqn:Hbs; [|done].
  destruct (to_stereo (take _ (tile_if_positive (concat mpat) _)))
    as [m|] eqn:Hms; [|done].
  destruct (to_stereo (take _ (tile_if_positive (concat dpat) _)))
    as [d|] eqn:Hds; [|done].
  injection Hgen as <- <- <- <-.
  exists sr, bpat, mpat, dpat.
  split; [done|]. split; [exact Hspb|]. split; [exact Ht|].
  split; [exact Hb|]. split; [exact Hm|]. split; [exact Hd|].
  split; [exact Hbs|]. split; [exact Hms|exact Hds].
Qed.

Lemma lookup_concat_uniform (pat : list (list Z)) (n j r : nat) blk :
  Forall (λ a, length a = n) pat →
  pat !! j = Some blk → (r < n)%nat →
  concat pat !! (j * n + r)%nat = blk !! r.
Proof.
  intros Hall. revert j. induction Hall as [|a pat Ha _ IH]; intros j Hj Hr.
  - done.
  - cbn [concat]. destruct j as [|j].
    + injection Hj as <-. rewrite lookup_app_l by lia. done.
    + rewrite lookup_app_r by lia.
      replace (S j * n + r - length a)%nat with (j * n + r)%nat by lia.
      by apply IH.
Qed.

Lemma tile_if_positive_lookup a repeats (i : nat) :
  (i < length a)%nat → tile_if_positive a repeats !! i = a !! i.
Proof.
  intros Hi. unfold tile_if_positive. destruct (Z.ltb_spec 0 repeats); [|done].
  destruct (Z.to_nat repeats) as [|k] eqn:E; [lia|].
  cbn [replicate concat]. by rewrite lookup_app_l.
Qed.

Lemma to_stereo_lookup mono snd (i : nat) v :
  to_stereo mono = Some snd → mono !! i = Some v →
  snd !! i = Some (wrap_int16 v, wrap_int16 v).
Proof.
  unfold to_stereo, make_sound, np_repeat2. case_decide; [done|].
  intros [= <-] Hv. by rewrite !list_lookup_fmap, Hv.
Qed.

(** A silent block of the pattern is silent in the loop, at its place in
    the first cycle. *)
Lemma silent_block (pat : list (list Z)) (n target : nat) repeats snd
    (j r : nat) :
  Forall (λ a, length a = n) pat →
  pat !! j = Some (replicate n 0) →
  to_stereo (take target (tile_if_positive (concat pat) repeats)) = Some snd →
  (r < n)%nat → (j * n + r < length snd)%nat →
  snd !! (j * n + r)%nat = Some (0, 0).
Proof.
  intros Hall Hj Hsnd Hr Hi.
  assert (length snd
          = length (take target (tile_if_positive (concat pat) repeats)))
    as Hl.
  { revert Hsnd. unfold to_stereo, make_sound, np_repeat2.
    case_decide; [done|]. intros [= <-]. by rewrite !length_fmap. }
  rewrite Hl, length_take in Hi.
  apply (to_stereo_lookup _ _ _ 0 Hsnd).
  rewrite lookup_take_lt by lia.
  assert (j < length pat)%nat by (by apply lookup_lt_Some in Hj).
  rewrite tile_if_positive_lookup.
  2:{ rewrite (length_concat_uniform _ n) by done. nia. }
  rewrite (lookup_concat_uniform pat n j r _ Hall Hj Hr).
  by apply lookup_replicate_2.
Qed.

(** X6: A rest in the bass or melody table is a silent beat of the loop, and so
    are the third and the eleventh beat of the drum pattern: within the
    first cycle, every sample of such a beat that the loop still has is
    (0, 0). *)
Theorem rests_are_silent be slf level_name duration g bass melody drums g'
    bass_freqs melody_notes tempo duty sr :
  theme_params level_name = (bass_freqs, melody_notes, tempo, duty) →
  get_init be = Some sr →
  _generate_famicom_loop be slf level_name duration g
  = (Some (bass, melody, drums), g') →
  let n := Z.to_nat (py_int (60 / inject_Z tempo * inject_Z sr)) in
  (∀ j r : nat, bass_freqs !! j = Some 0 → (r < n)%nat →
     (j * n + r < length bass)%nat →
     bass !! (j * n + r)%nat = Some (0, 0))
  ∧ (∀ j r : nat, melody_notes !! j = Some 0 → (r < n)%nat →
       (j * n + r < length melody)%nat →
       melody !! (j * n + r)%nat = Some (0, 0))
  ∧ (∀ j r : nat, j = 2%nat ∨ j = 10%nat → (r < n)%nat →
       (j * n + r < length drums)%nat →
       drums !! (j * n + r)%nat = Some (0, 0)).
Proof.
  intros Hparams Hsr Hgen n.
  destruct (generate_Some_inv _ _ _ _ _ _ _ _ _ _ _ _ _ Hparams Hgen)
    as (sr' & bpat & mpat & dpat & Hsr' & Hspb & Htarget & Hb & Hm & Hd
        & Hbs & Hms & Hds).
  rewrite Hsr in Hsr'. injection Hsr' as <-.
  destruct (tone_pattern_inv _ _ _ _
              (λ f s, triangle_wave_Some_length be sr f _ _ s Hsr) Hb)
    as (_ & Hball & Hbz).
  destruct (tone_pattern_inv _ _ _ _
              (λ f s, pulse_wave_Some_length be sr f _ _ _ s Hsr) Hm)
    as (_ & Hmall & Hmz).
  destruct (drums_pattern_inv be sr _ _ _ _ _ _ Hsr eq_refl Hd)
    as (_ & Hdall & Hdz).
  split; [|split].
  - intros j r Hj Hr Hi.
    eapply (silent_block bpat n);
      [exact Hball | exact (Hbz j Hj) | exact Hbs | done | done].
  - intros j r Hj Hr Hi.
    eapply (silent_block mpat n);
      [exact Hmall | exact (Hmz j Hj) | exact Hms | done | done].
  - intros j r Hj Hr Hi.
    eapply (silent_block dpat n);
      [exact Hdall | | exact Hds | done | done].
    destruct Hj as [-> | ->].
    + by apply (Hdz 2%nat 2%nat).
    + by apply (Hdz 10%nat 10%nat).
Qed.


(** ** What the controller and the mixer keep *)

Lemma play_all_events be i snds w :
  ∃ es, events (play_all be i snds w).2 = events w ++ es
    ∧ Forall (λ e, ∃ ch snd, e = EvPlay ch snd
                     ∧ ch ∈ proc_channels (self w) ∧ snd ∈ snds) es.
Proof.
  revert i w. induction snds as [|snd snds IH]; intros i w.
  - exists []. by rewrite app_nil_r.
  - cbn [play_all].
    destruct (proc_channels (self w) !! i) as [ch|] eqn:Hch;
      [|exists []; by rewrite app_nil_r].
    destruct (play_raises be (events w) ch);
      [exists []; by rewrite app_nil_r|].
    destruct (IH (S i) (emit [EvPlay ch snd] w)) as (es & -> & Hes).
    exists (EvPlay ch snd :: es). cbn [emit events self] in *.
    split; [by rewrite <- app_assoc|].
    constructor.
    + exists ch, snd. split; [done|].
      split; [by eapply list_elem_of_lookup_2|by left].
    + eapply Forall_impl; [exact Hes|].
      intros e (ch' & snd' & -> & ? & ?). exists ch', snd'.
      split; [done|]. split; [done|by right].
Qed.

(** Everything [load_level] can do to the manager and to the device. *)
Lemma load_level_frame be level_name w :
  let w' := load_level be level_name w in
  proc_channels (self w') = proc_channels (self w)
  ∧ route (self w') = route (self w)
  ∧ (mixer_available (self w') = true → mixer_available (self w) = true)
  ∧ proc_sounds (self w) ⊆ proc_sounds (self w')
  ∧ (proc_current_volumes (self w') = proc_current_volumes (self w)
     ∨ proc_current_volumes (self w') = [0; 0; 0]%Q)
  ∧ (mixer_available (self w') = true →
     current_level (self w) = Some level_name
     ∨ current_level (self w') = Some level_name)
  ∧ ∃ es, events w' = events w ++ es
      ∧ Forall (switch_event_ok (proc_channels (self w))) es.
Proof.
  intros w'. subst w'. unfold load_level.
  destruct (mixer_available (self w)) eqn:Hav; cbn [negb].
  2:{ repeat split; try done; [congruence|by left|congruence|].
      exists []. by rewrite app_nil_r. }
  case_decide as Hcur.
  { repeat split; try done; [by left|by left|].
    exists []. by rewrite app_nil_r. }
  cbn [set_self emit self np_random events set_current_level proc_sounds
       mixer_available proc_channels].
  assert (Forall (switch_event_ok (proc_channels (self w)))
            (EvStop <$> proc_channels (self w))) as Hstops.
  { apply Forall_fmap, Forall_forall. by intros ch Hch. }
  assert (∀ w0 bass melody drums es0,
    proc_channels (self w0) = proc_channels (self w) →
    events w0 = events w ++ es0 →
    Forall (switch_event_ok (proc_channels (self w))) es0 →
    ∃ es, events (play_all be 0 [bass; melody; drums] w0).2 = events w ++ es
      ∧ Forall (switch_event_ok (proc_channels (self w))) es) as Hplay.
  { intros w0 bass melody drums es0 Hch Hev Hes0.
    destruct (play_all_events be 0 [bass; melody; drums] w0)
      as (es & -> & Hes).
    exists (es0 ++ es). rewrite Hev. split; [by rewrite <- app_assoc|].
    apply Forall_app. split; [done|].
    eapply Forall_impl; [exact Hes|].
    intros e (ch & snd & -> & Hin & _). simpl. by rewrite <- Hch. }
  destruct (proc_sounds (self w) !! level_name)
    as [[[bass melody] drums]|] eqn:Hhit.
  - match goal with
    | |- context [play_all ?b ?i ?l ?w0] =>
      pose proof (play_all_self b i l w0) as [Hs _];
      destruct (Hplay w0 bass melody drums
                  (EvStop <$> proc_channels (self w)) eq_refl eq_refl Hstops)
        as (es & Hev & Hes);
      destruct (play_all b i l w0) as [[] w2]
    end; cbn [snd] in Hs, Hev; cbn [set_self self events]; rewrite Hs;
      cbn;
      first [ solve [repeat split; try done; [by right|by right|eauto]]
            | solve [repeat split; try done; [by left|eauto]] ].
  - match goal with
    | |- context [_generate_famicom_loop ?b ?s ?n ?d ?g] =>
      destruct (_generate_famicom_loop b s n d g)
        as [[[[bass melody] drums]|] g']
    end.
    2:{ cbn. repeat split; try done; [by left|].
        exists ((EvStop <$> proc_channels (self w))
                ++ [EvGenerate level_name]).
        split; [by rewrite <- app_assoc|].
        apply Forall_app. split; [done|]. by repeat constructor. }
    match goal with
    | |- context [play_all ?b ?i ?l ?w0] =>
      pose proof (play_all_self b i l w0) as [Hs _];
      destruct (Hplay w0 bass melody drums
                  ((EvStop <$> proc_channels (self w))
                   ++ [EvGenerate level_name]) eq_refl
                  ltac:(by cbn; rewrite <- app_assoc)
                  ltac:(apply Forall_app; split;
                        [done|by repeat constructor]))
        as (es & Hev & Hes);
      destruct (play_all b i l w0) as [[] w2]
    end; cbn [snd] in Hs, Hev; cbn [set_self self events]; rewrite Hs;
      cbn;
      first [ solve [repeat split; try done;
                     [by apply insert_subseteq|by right|by right|eauto]]
            | solve [repeat split; try done;
                     [by apply insert_subseteq|by left|eauto]] ].
Qed.

Lemma set_route_eq be r w : set_route be r w = set_self (set_route_field r) w.
Proof.
  unfold set_route. case_decide as Hr.
  - cbn [set_self self set_route_field current_level].
    case_decide; [|done]. by apply load_level_same.
  - subst r. by destruct w as [[] ? ?].
Qed.

(** X8: [set_route] stores the route and does nothing else, whatever the level
    and whether the mixer is available; of two calls the last one wins. *)
Theorem set_route_stores_route_only be r1 r2 w :
  route (self (set_route be r1 w)) = r1
  ∧ events (set_route be r1 w) = events w
  ∧ np_random (set_route be r1 w) = np_random w
  ∧ set_self (set_route_field (route (self w))) (set_route be r1 w) = w
  ∧ set_route be r2 (set_route be r1 w) = set_route be r2 w.
Proof.
  rewrite !set_route_eq. by destruct w as [[] ? ?].
Qed.

(** The smoothing loop over indices that exist: what it keeps, and a
    property of the volumes that each step keeps. *)
Lemma smooth_channels_frame (P : Q → Prop) idx w :
  (∀ c, P c → P (c + (target_volume (self w) - c) * (1 # 10))%Q) →
  Forall P (proc_current_volumes (self w)) →
  Forall (λ i : nat, (i < length (proc_current_volumes (self w)))%nat) idx →
  ∃ w' es,
    smooth_channels idx w = Some w'
    ∧ mixer_available (self w') = mixer_available (self w)
    ∧ proc_channels (self w') = proc_channels (self w)
    ∧ current_level (self w') = current_level (self w)
    ∧ route (self w') = route (self w)
    ∧ proc_sounds (self w') = proc_sounds (self w)
    ∧ target_volume (self w') = target_volume (self w)
    ∧ np_random w' = np_random w
    ∧ length (proc_current_volumes (self w'))
      = length (proc_current_volumes (self w))
    ∧ Forall P (proc_current_volumes (self w'))
    ∧ events w' = events w ++ es
    ∧ Forall (λ e, ∃ ch v, e = EvSetVolume ch v
                     ∧ ch ∈ proc_channels (self w) ∧ P v) es.
Proof.
  revert w. induction idx as [|i idx IH]; intros w Hstep Hall Hidx.
  - exists w, []. rewrite app_nil_r. by repeat split.
  - apply Forall_cons in Hidx as [Hi Hidx].
    destruct (lookup_lt_is_Some_2 _ _ Hi) as [c Hc].
    pose proof (proj1 (Forall_lookup _ _) Hall _ _ Hc) as HPc.
    cbn [smooth_channels]. rewrite Hc. cbn [mbind option_bind].
    set (c' := (c + (target_volume (self w) - c) * (1 # 10))%Q).
    set (w1 := set_self (λ s, set_proc_current_volumes
                                (<[i := c']> (proc_current_volumes s)) s) w).
    assert (Forall P (proc_current_volumes (self w1))) as Hall1.
    { cbn. apply Forall_insert; [done|]. by apply Hstep. }
    assert (length (proc_current_volumes (self w1))
            = length (proc_current_volumes (self w))) as Hlen1.
    { cbn. by rewrite length_insert. }
    destruct (proc_channels (self w) !! i) as [ch|] eqn:Hch.
    + change (proc_channels (self w1) !! i) with (proc_channels (self w) !! i).
      rewrite Hch.
      destruct (IH (emit [EvSetVolume ch c'] w1))
        as (w' & es & -> & ? & ? & ? & ? & ? & ? & ? & Hl & ? & Hev & Hes);
        [done|done|by cbn [emit self]; rewrite Hlen1|].
      exists w', (EvSetVolume ch c' :: es).
      cbn [emit self events set_self] in *.
      repeat split; try done; [congruence|by rewrite Hev, <- app_assoc|].
      constructor; [|done]. exists ch, c'. split; [done|].
      split; [by eapply list_elem_of_lookup_2|by apply Hstep].
    + change (proc_channels (self w1) !! i) with (proc_channels (self w) !! i).
      rewrite Hch.
      destruct (IH w1)
        as (w' & es & -> & ? & ? & ? & ? & ? & ? & ? & Hl & ? & Hev & Hes);
        [done|done|by rewrite Hlen1|].
      exists w', es. cbn [self set_self] in *.
      repeat split; try done. congruence.
Qed.

Lemma update_frame (P : Q → Prop) player_speed near w :
  manager_ok (self w) →
  (mixer_available (self w) = true →
   ∀ c, P c → P (c + (base_vol player_speed near - c) * (1 # 10))%Q) →
  Forall P (proc_current_volumes (self w)) →
  ∃ w' es,
    update player_speed near w = Some w'
    ∧ mixer_available (self w') = mixer_available (self w)
    ∧ proc_channels (self w') = proc_channels (self w)
    ∧ current_level (self w') = current_level (self w)
    ∧ route (self w') = route (self w)
    ∧ proc_sounds (self w') = proc_sounds (self w)
    ∧ np_random w' = np_random w
    ∧ length (proc_current_volumes (self w')) = 3%nat
    ∧ Forall P (proc_current_volumes (self w'))
    ∧ events w' = events w ++ es
    ∧ Forall (λ e, ∃ ch v, e = EvSetVolume ch v
                     ∧ ch ∈ proc_channels (self w) ∧ P v) es.
Proof.
  intros [Hlen Hch] Hstep Hall. unfold update.
  destruct (mixer_available (self w)) eqn:Hav; cbn [negb].
  - set (w0 := set_self (set_frame_inputs player_speed near
                            (base_vol player_speed near)) w).
    destruct (smooth_channels_frame P (seq 0 3) w0)
      as (w' & es & -> & ? & ? & ? & ? & ? & ? & ? & Hl & ? & Hev & Hes);
      [by apply Hstep|done| |].
    { cbn. rewrite Hlen. repeat constructor. }
    exists w', es. subst w0.
    cbn [self set_self set_frame_inputs mixer_available proc_channels
         current_level route proc_sounds proc_current_volumes np_random
         events] in *.
    repeat split; try done; try congruence.
  - exists w, []. rewrite app_nil_r. by repeat split.
Qed.

Lemma base_vol_range player_speed near :
  (0 <= player_speed)%Q → (0 <= base_vol player_speed near <= 7 # 10)%Q.
Proof.
  intros Hs. destruct (base_vol_unclamped player_speed Hs) as [Hlo Hhi].
  unfold base_vol. destruct near; split; lra.
Qed.

(** One call from a manager that is in order. *)
Lemma run_call_inv (P : Q → Prop) be c w :
  P 0%Q →
  (∀ x, P x →
     match c with
     | CallUpdate player_speed near =>
       P (x + (base_vol player_speed near - x) * (1 # 10))%Q
     | _ => True
     end) →
  manager_ok (self w) →
  Forall P (proc_current_volumes (self w)) →
  ∃ w' es,
    run_call be c w = Some w'
    ∧ manager_ok (self w')
    ∧ Forall P (proc_current_volumes (self w'))
    ∧ proc_sounds (self w) ⊆ proc_sounds (self w')
    ∧ (mixer_available (self w') = true → mixer_available (self w) = true)
    ∧ events w' = events w ++ es
    ∧ Forall (event_ok P) es.
Proof.
  intros HP0 Hstep [Hlen Hch] Hall. destruct c as [level_name|r|s near].
  - cbn [run_call].
    destruct (mixer_available (self w)) eqn:Hav.
    2:{ rewrite load_level_disabled by done. exists w, [].
        rewrite app_nil_r.
        repeat split; first [done | congruence | reflexivity]. }
    destruct (load_level_frame be level_name w)
      as (Hc & _ & Hav' & Hsub & Hvol & _ & es & Hev & Hes).
    exists (load_level be level_name w), es. split; [done|].
    split.
    { split.
      - destruct Hvol as [E | E]; rewrite E; done.
      - intros _. rewrite Hc. by apply Hch. }
    split.
    { destruct Hvol as [E | E]; rewrite E; [done|]. by repeat constructor. }
    split; [done|]. split; [done|]. split; [done|].
    eapply Forall_impl; [exact Hes|]. rewrite (Hch eq_refl).
    by intros [].
  - cbn [run_call]. rewrite set_route_eq.
    exists (set_self (set_route_field r) w), [].
    rewrite app_nil_r.
    repeat split; first [done | congruence | reflexivity].
  - cbn [run_call].
    destruct (mixer_available (self w)) eqn:Hav.
    2:{ rewrite update_disabled by done. exists w, [].
        rewrite app_nil_r.
        repeat split; first [done | congruence | reflexivity]. }
    destruct (update_frame P s near w)
      as (w' & es & -> & Hav' & Hc' & _ & _ & Hps & _ & Hl & HP & Hev & Hes);
      [split; [done|intros _; by apply Hch]
      |intros _ x Hx; exact (Hstep x Hx)|done|].
    exists w', es. split; [done|].
    split.
    { split; [done|]. intros _. rewrite Hc'. by apply Hch. }
    split; [done|]. split; [by rewrite Hps|]. split; [done|].
    split; [done|].
    eapply Forall_impl; [exact Hes|]. rewrite (Hch eq_refl).
    by intros e (ch & v & -> & ? & ?).
Qed.

Lemma run_calls_inv (P : Q → Prop) be cs : ∀ w,
  P 0%Q →
  Forall (λ c, ∀ x, P x →
     match c with
     | CallUpdate player_speed near =>
       P (x + (base_vol player_speed near - x) * (1 # 10))%Q
     | _ => True
     end) cs →
  manager_ok (self w) →
  Forall P (proc_current_volumes (self w)) →
  ∃ w' es,
    run_calls be cs w = Some w'
    ∧ manager_ok (self w')
    ∧ Forall P (proc_current_volumes (self w'))
    ∧ proc_sounds (self w) ⊆ proc_sounds (self w')
    ∧ (mixer_available (self w') = true → mixer_available (self w) = true)
    ∧ events w' = events w ++ es
    ∧ Forall (event_ok P) es.
Proof.
  induction cs as [|c cs IH]; intros w HP0 Hsteps Hok Hall.
  - exists w, []. rewrite app_nil_r.
    repeat split; first [done | apply Hok | reflexivity].
  - apply Forall_cons in Hsteps as [Hstep Hsteps].
    destruct (run_call_inv P be c w HP0 Hstep Hok Hall)
      as (w1 & es1 & Hrun1 & Hok1 & Hall1 & Hsub1 & Hav1 & Hev1 & Hes1).
    destruct (IH w1 HP0 Hsteps Hok1 Hall1)
      as (w' & es & Hrun & Hok' & Hall' & Hsub & Hav & Hev & Hes).
    exists w', (es1 ++ es). cbn [run_calls]. rewrite Hrun1.
    cbn [mbind option_bind]. split; [done|].
    split; [done|]. split; [done|].
    split; [by etrans|]. split; [auto|].
    split; [by rewrite Hev, Hev1, <- app_assoc|].
    by apply Forall_app.
Qed.

(** X9: From a manager with its three volumes and its three channels, and so
    from a fresh one, no sequence of calls raises: [update] always finds
    the entries it indexes, and the manager stays in order. *)
Theorem calls_never_raise be cs w :
  manager_ok (self w) →
  ∃ w', run_calls be cs w = Some w' ∧ manager_ok (self w').
Proof.
  intros Hok.
  destruct (run_calls_inv (λ _, True) be cs w I) as (w' & es & ? & ? & _).
  - apply Forall_forall. intros c _ x _. by destruct c.
  - done.
  - apply Forall_forall. done.
  - by exists w'.
Qed.

(** X10: The cache is never evicted and never overwritten: whatever the calls,
    a theme that has its loops keeps these very loops. *)
Theorem cache_only_grows be cs w w' level_name loops :
  manager_ok (self w) →
  run_calls be cs w = Some w' →
  proc_sounds (self w) !! level_name = Some loops →
  proc_sounds (self w') !! level_name = Some loops.
Proof.
  intros Hok Hrun Hhit.
  destruct (run_calls_inv (λ _, True) be cs w I)
    as (w2 & es & Hrun2 & _ & _ & Hsub & _).
  - apply Forall_forall. intros c _ x _. by destruct c.
  - done.
  - apply Forall_forall. done.
  - rewrite Hrun in Hrun2. injection Hrun2 as <-.
    by eapply lookup_weaken.
Qed.

(** X11: With speeds that are not negative, as the game passes them, every
    channel volume stays between 0 and 0.7, every volume handed to
    [set_volume] lies there too, and every channel operation is on one of
    the channels 1, 2, 3. *)
Theorem volumes_stay_in_range be cs w :
  manager_ok (self w) →
  volumes_ok (self w) →
  Forall (event_ok (λ v, 0 <= v <= 7 # 10)%Q) (events w) →
  Forall speed_nonneg cs →
  ∃ w', run_calls be cs w = Some w'
    ∧ manager_ok (self w')
    ∧ volumes_ok (self w')
    ∧ Forall (event_ok (λ v, 0 <= v <= 7 # 10)%Q) (events w').
Proof.
  intros Hok Hvol Hev Hcs.
  destruct (run_calls_inv (λ v, 0 <= v <= 7 # 10)%Q be cs w)
    as (w' & es & Hrun & Hok' & Hvol' & _ & _ & Hev' & Hes);
    [split; discriminate| |done|done|].
  - eapply Forall_impl; [exact Hcs|]. intros c Hc x Hx.
    destruct c as [| |s near]; try done. cbn in Hc.
    destruct (base_vol_range s near Hc). split; lra.
  - exists w'. split; [done|]. split; [done|]. split; [done|].
    rewrite Hev'. by apply Forall_app.
Qed.

Lemma load_level_switch_channels be level_name w :
  mixer_available (self w) = true →
  current_level (self w) ≠ Some level_name →
  mixer_available (self (load_level be level_name w)) = true →
  ∃ bass melody drums c0 c1 c2 gen,
    proc_channels (self w) !! 0%nat = Some c0
    ∧ proc_channels (self w) !! 1%nat = Some c1
    ∧ proc_channels (self w) !! 2%nat = Some c2
    ∧ np_random (load_level be level_name w)
      = match proc_sounds (self w) !! level_name with
        | Some _ => np_random w
        | None => (_generate_famicom_loop be (self w) level_name 4
                     (np_random w)).2
        end
    ∧ proc_sounds (self (load_level be level_name w))
      = <[level_name := (bass, melody, drums)]> (proc_sounds (self w))
    ∧ (gen = [] ∧ proc_sounds (self w) !! level_name
                  = Some (bass, melody, drums)
       ∨ gen = [EvGenerate level_name]
         ∧ proc_sounds (self w) !! level_name = None
         ∧ (_generate_famicom_loop be (self w) level_name 4
              (np_random w)).1 = Some (bass, melody, drums))
    ∧ events (load_level be level_name w)
      = events w ++ (EvStop <$> proc_channels (self w)) ++ gen
                 ++ [EvPlay c0 bass; EvPlay c1 melody; EvPlay c2 drums].
Proof.
  intros Hav Hcur. unfold load_level. rewrite Hav. cbn [negb].
  rewrite decide_False by congruence.
  cbn [set_self emit self np_random events set_current_level proc_sounds
       mixer_available proc_channels].
  destruct (proc_sounds (self w) !! level_name)
    as [[[bass melody] drums]|] eqn:Hhit.
  - match goal with
    | |- context [play_all ?b ?i ?l ?w0] =>
      pose proof (play_all_self b i l w0) as [Hs Hg];
      pose proof (play_all_three b w0 bass melody drums) as Hp;
      destruct (play_all b i l w0) as [[] w2]
    end; cbn [snd fst] in Hs, Hg, Hp; cbn [set_self self events np_random];
      rewrite Hs; [|cbn; discriminate].
    intros _. destruct (Hp eq_refl) as (c0 & c1 & c2 & H0 & H1 & H2 & ->).
    exists bass, melody, drums, c0, c1, c2, [].
    cbn in *. split; [done|]. split; [done|]. split; [done|].
    split; [done|]. split; [by rewrite insert_id|].
    split; [by left|]. by rewrite <- !app_assoc.
  - rewrite (generate_self_irrelevant be _ (self w)) by done.
    destruct (_generate_famicom_loop be (self w) level_name 4 (np_random w))
      as [[[[bass melody] drums]|] g'] eqn:Hgen; [|cbn; discriminate].
    match goal with
    | |- context [play_all ?b ?i ?l ?w0] =>
      pose proof (play_all_self b i l w0) as [Hs Hg];
      pose proof (play_all_three b w0 bass melody drums) as Hp;
      destruct (play_all b i l w0) as [[] w2]
    end; cbn [snd fst] in Hs, Hg, Hp; cbn [set_self self events np_random];
      rewrite Hs; [|cbn; discriminate].
    intros _. destruct (Hp eq_refl) as (c0 & c1 & c2 & H0 & H1 & H2 & ->).
    exists bass, melody, drums, c0, c1, c2, [EvGenerate level_name].
    cbn in *. split; [done|]. split; [done|]. split; [done|].
    split; [done|]. split; [done|].
    split; [by right|]. by rewrite <- !app_assoc.
Qed.

(** X12: A switch that succeeds, on a manager in order: the three channels are
    stopped, the loops are generated when the cache has none for the theme,
    and only then the three loops are started, bass on channel 1, melody on
    2, drums on 3; the loops are in the cache afterwards. *)
Theorem switch_stops_before_playing be level_name w :
  manager_ok (self w) →
  mixer_available (self w) = true →
  current_level (self w) ≠ Some level_name →
  mixer_available (self (load_level be level_name w)) = true →
  ∃ bass melody drums gen,
    proc_sounds (self (load_level be level_name w)) !! level_name
    = Some (bass, melody, drums)
    ∧ (gen = [] ∧ proc_sounds (self w) !! level_name
                  = Some (bass, melody, drums)
       ∨ gen = [EvGenerate level_name]
         ∧ proc_sounds (self w) !! level_name = None)
    ∧ events (load_level be level_name w)
      = events w ++ [EvStop 1; EvStop 2; EvStop 3] ++ gen
                 ++ [EvPlay 1 bass; EvPlay 2 melody; EvPlay 3 drums].
Proof.
  intros [_ Hch] Hav Hcur Hav'. specialize (Hch Hav).
  destruct (load_level_switch_channels be level_name w Hav Hcur Hav')
    as (bass & melody & drums & c0 & c1 & c2 & gen & H0 & H1 & H2 & _
        & Hcache & Hgen & Hev).
  rewrite Hch in H0, H1, H2. injection H0 as <-. injection H1 as <-.
  injection H2 as <-.
  exists bass, melody, drums, gen.
  split; [by rewrite Hcache, lookup_insert_eq|].
  split; [destruct Hgen as [[? ?]|(? & ? & _)]; auto|].
  by rewrite Hev, Hch.
Qed.

(** X13: A theme whose loops are cached is not generated again: switching to it
    draws no random number, leaves the cache as it is, and starts the very
    loops of the cache. *)
Theorem cached_theme_is_not_regenerated be level_name w bass melody drums :
  manager_ok (self w) →
  mixer_available (self w) = true →
  current_level (self w) ≠ Some level_name →
  proc_sounds (self w) !! level_name = Some (bass, melody, drums) →
  np_random (load_level be level_name w) = np_random w
  ∧ proc_sounds (self (load_level be level_name w)) = proc_sounds (self w)
  ∧ ∃ plays,
      events (load_level be level_name w)
      = events w ++ [EvStop 1; EvStop 2; EvStop 3] ++ plays
      ∧ plays `prefix_of` [EvPlay 1 bass; EvPlay 2 melody; EvPlay 3 drums]
      ∧ (mixer_available (self (load_level be level_name w)) = true →
         plays = [EvPlay 1 bass; EvPlay 2 melody; EvPlay 3 drums]).
Proof.
  intros [_ Hch] Hav Hcur Hhit. specialize (Hch Hav).
  unfold load_level. rewrite Hav. cbn [negb].
  rewrite decide_False by congruence.
  cbn [set_self emit self np_random events set_current_level proc_sounds
       mixer_available proc_channels].
  rewrite Hhit, Hch. cbn [play_all emit self events set_self proc_channels
    set_current_level lookup list_lookup fmap list_fmap].
  rewrite Hch. cbn [lookup list_lookup].
  repeat match goal with
  | |- context [play_raises be ?es ?ch] =>
    destruct (play_raises be es ch)
  end; cbn; (split; [done|]); (split; [done|]);
    eexists; (split; [rewrite <- ?app_assoc; cbn; reflexivity|]);
    (split; [|done || discriminate]).
  - by exists [EvPlay 1%nat bass; EvPlay 2%nat melody; EvPlay 3%nat drums].
  - by exists [EvPlay 2%nat melody; EvPlay 3%nat drums].
  - by exists [EvPlay 3%nat drums].
  - by exists [].
Qed.

End SoundProperties.

(** * Properties of the game *)

Section GameProperties.

Context {numpy : NumPy} {math : Math}.

(** ** Rectangles *)

Lemma colliderect_spec (a b : Rect.t) :
  0 < Rect.w a → 0 < Rect.h a → 0 < Rect.w b → 0 < Rect.h b →
  Rect.colliderect a b = true
  ↔ Rect.x a < Rect.x b + Rect.w b ∧ Rect.y a < Rect.y b + Rect.h b
    ∧ Rect.x b < Rect.x a + Rect.w a ∧ Rect.y b < Rect.y a + Rect.h a.
Proof.
  intros Hwa Hha Hwb Hhb. unfold Rect.colliderect.
  destruct (Z.eqb_spec (Rect.w a) 0); [lia|].
  destruct (Z.eqb_spec (Rect.h a) 0); [lia|].
  destruct (Z.eqb_spec (Rect.w b) 0); [lia|].
  destruct (Z.eqb_spec (Rect.h b) 0); [lia|].
  cbn [orb]. rewrite !andb_true_iff, !Z.ltb_lt. lia.
Qed.

Lemma colliderect_tiles (a b : Rect.t) :
  tile_sized a → tile_sized b →
  Rect.colliderect a b = false
  ↔ ¬ (Rect.x a < Rect.x b + 16 ∧ Rect.y a < Rect.y b + 16
       ∧ Rect.x b < Rect.x a + 16 ∧ Rect.y b < Rect.y a + 16).
Proof.
  intros [Hwa Hha] [Hwb Hhb]. unfold TILE_SIZE in *.
  rewrite <- not_true_iff_false, colliderect_spec by lia.
  rewrite Hwa, Hha, Hwb, Hhb. done.
Qed.

(** Two rectangles collide whichever of them asks. *)
Lemma colliderect_sym (a b : Rect.t) :
  Rect.colliderect a b = Rect.colliderect b a.
Proof.
  unfold Rect.colliderect.
  destruct (Rect.w a =? 0), (Rect.h a =? 0), (Rect.w b =? 0),
    (Rect.h b =? 0); cbn [orb]; try done.
  apply Bool.eq_iff_eq_true. rewrite !andb_true_iff, !Z.ltb_lt. lia.
Qed.

(** ** The player against the walls *)

(** Backing out of the wall that was hit frees the player of every wall:
    the horizontal move. *)
Lemma snap_x_clear walls (r0 : Rect.t) dx wall :
  Forall wall_tile walls → tile_sized r0 → clear_of walls r0 →
  - 16 < dx < 16 →
  wall ∈ walls →
  Rect.colliderect (Rect.set_x (Rect.x r0 + dx) r0) (Wall.rect wall) = true →
  clear_of walls
    (let r := Rect.set_x (Rect.x r0 + dx) r0 in
     let r := if 0 <? dx then Rect.set_right (Rect.left (Wall.rect wall)) r
              else r in
     if dx <? 0 then Rect.set_left (Rect.right (Wall.rect wall)) r else r).
Proof.
  intros Htiles Hr0 Hclear Hdx Hin Hhit.
  pose proof (proj1 (Forall_forall _ _) Htiles _ Hin) as (Hw & Hwx & Hwy).
  pose proof (proj1 (Forall_forall _ _) Hclear _ Hin) as Hw0.
  apply colliderect_tiles in Hw0; [|done..].
  apply colliderect_spec in Hhit;
    [|destruct Hr0 as [? ?], Hw as [? ?]; unfold TILE_SIZE in *; cbn; lia..].
  destruct Hr0 as [Hr0w Hr0h], Hw as [Hww Hwh]. unfold TILE_SIZE in *.
  cbn in Hhit. rewrite Hr0w, Hr0h, Hww, Hwh in Hhit.
  apply Forall_forall. intros wall' Hin'.
  pose proof (proj1 (Forall_forall _ _) Htiles _ Hin')
    as ([Hw'w Hw'h] & Hw'x & Hw'y).
  pose proof (proj1 (Forall_forall _ _) Hclear _ Hin') as Hw'0.
  apply colliderect_tiles in Hw'0; [|done..].
  unfold TILE_SIZE in *.
  pose proof (Z.div_mod (Rect.x (Wall.rect wall)) 16 ltac:(lia)).
  pose proof (Z.div_mod (Rect.x (Wall.rect wall')) 16 ltac:(lia)).
  destruct (Z.ltb_spec 0 dx), (Z.ltb_spec dx 0); try lia;
    cbn [Rect.set_right Rect.set_left Rect.set_x Rect.left Rect.right
         Rect.x Rect.y Rect.w Rect.h];
    apply colliderect_tiles; try (split; cbn; done); cbn;
    unfold Rect.left, Rect.right; lia.
Qed.

Lemma snap_x_bounds (r0 : Rect.t) dx wall :
  tile_sized r0 → wall_tile wall →
  Rect.colliderect r0 (Wall.rect wall) = false →
  Rect.colliderect (Rect.set_x (Rect.x r0 + dx) r0) (Wall.rect wall) = true →
  let r := Rect.set_x (Rect.x r0 + dx) r0 in
  let r := if 0 <? dx then Rect.set_right (Rect.left (Wall.rect wall)) r
           else r in
  let r := if dx <? 0 then Rect.set_left (Rect.right (Wall.rect wall)) r
           else r in
  tile_sized r ∧ Rect.y r = Rect.y r0
  ∧ Z.min (Rect.x r0) (Rect.x r0 + dx) ≤ Rect.x r
    ≤ Z.max (Rect.x r0) (Rect.x r0 + dx).
Proof.
  intros Hr0 (Hw & _ & _) Hw0 Hhit.
  apply colliderect_tiles in Hw0; [|done..].
  apply colliderect_spec in Hhit;
    [|destruct Hr0 as [? ?], Hw as [? ?]; unfold TILE_SIZE in *; cbn; lia..].
  destruct Hr0 as [Hr0w Hr0h], Hw as [Hww Hwh]. unfold TILE_SIZE in *.
  cbn in Hhit. rewrite Hr0w, Hr0h, Hww, Hwh in Hhit.
  destruct (Z.ltb_spec 0 dx), (Z.ltb_spec dx 0); try lia;
    cbn [Rect.set_right Rect.set_left Rect.set_x Rect.left Rect.right
         Rect.x Rect.y Rect.w Rect.h];
    unfold tile_sized, TILE_SIZE, Rect.left, Rect.right; cbn; lia.
Qed.

Lemma collide_cons dx dy wall ws (c : Cat.t) :
  Cat.collide dx dy (wall :: ws) c
  = Cat.collide dx dy ws (Cat.collide_step dx dy c wall).
Proof. done. Qed.

Lemma collide_clear_fixed dx dy ws (c : Cat.t) :
  clear_of ws (Cat.rect c) → Cat.collide dx dy ws c = c.
Proof.
  induction 1 as [|wall ws Hw _ IH]; [done|].
  rewrite collide_cons. unfold Cat.collide_step. by rewrite Hw.
Qed.

Lemma collide_x_inv walls (r0 : Rect.t) dx ws : ∀ c : Cat.t,
  Forall wall_tile walls → tile_sized r0 → clear_of walls r0 →
  - 16 < dx < 16 → ws ⊆ walls →
  Cat.rect c = Rect.set_x (Rect.x r0 + dx) r0 →
  let c' := Cat.collide dx 0 ws c in
  (clear_of walls (Cat.rect c')
   ∨ (Cat.rect c' = Cat.rect c ∧ clear_of ws (Cat.rect c)))
  ∧ Cat.vx c' = Cat.vx c ∧ Cat.vy c' = Cat.vy c
  ∧ Cat.speed c' = Cat.speed c
  ∧ tile_sized (Cat.rect c') ∧ Rect.y (Cat.rect c') = Rect.y r0
  ∧ Z.min (Rect.x r0) (Rect.x r0 + dx) ≤ Rect.x (Cat.rect c')
    ≤ Z.max (Rect.x r0) (Rect.x r0 + dx).
Proof.
  induction ws as [|wall ws IH]; intros c Htiles Hr0 Hclear Hdx Hsub Hc.
  - cbn. rewrite Hc. split; [right; split; [done|constructor]|].
    destruct Hr0. repeat split; cbn; try done; lia.
  - assert (wall ∈ walls) as Hin by (apply Hsub; by left).
    assert (ws ⊆ walls) as Hsub' by (intros ? ?; apply Hsub; by right).
    cbn zeta. rewrite collide_cons. unfold Cat.collide_step.
    destruct (Rect.colliderect (Cat.rect c) (Wall.rect wall)) eqn:Hhit.
    + change (0 <? 0) with false. cbn iota.
      rewrite Hc in Hhit |- *.
      pose proof (snap_x_clear walls r0 dx wall Htiles Hr0 Hclear Hdx Hin Hhit)
        as Hsnap.
      pose proof (snap_x_bounds r0 dx wall Hr0
                    (proj1 (Forall_forall _ _) Htiles _ Hin)
                    (proj1 (Forall_forall _ _) Hclear _ Hin) Hhit) as Hb.
      cbn zeta in Hsnap, Hb.
      rewrite collide_clear_fixed.
      2:{ cbn [Cat.rect Cat.set_rect].
          eapply Forall_forall. intros w' Hw'.
          apply (proj1 (Forall_forall _ _) Hsnap). by apply Hsub'. }
      cbn [Cat.rect Cat.set_rect Cat.vx Cat.vy Cat.speed].
      split; [by left|]. destruct Hb as (? & ? & ?). done.
    + destruct (IH c Htiles Hr0 Hclear Hdx Hsub' Hc)
        as (Hcases & ? & ? & ? & ? & ? & ?).
      split; [|done].
      destruct Hcases as [?|[Hsame Hws]]; [by left|right].
      split; [done|]. by constructor.
Qed.

Lemma snap_y_clear walls (r0 : Rect.t) dy wall :
  Forall wall_tile walls → tile_sized r0 → clear_of walls r0 →
  - 16 < dy < 16 →
  wall ∈ walls →
  Rect.colliderect (Rect.set_y (Rect.y r0 + dy) r0) (Wall.rect wall) = true →
  clear_of walls
    (let r := Rect.set_y (Rect.y r0 + dy) r0 in
     let r := if 0 <? dy then Rect.set_bottom (Rect.top (Wall.rect wall)) r
              else r in
     if dy <? 0 then Rect.set_top (Rect.bottom (Wall.rect wall)) r else r).
Proof.
  intros Htiles Hr0 Hclear Hdy Hin Hhit.
  pose proof (proj1 (Forall_forall _ _) Htiles _ Hin) as (Hw & Hwx & Hwy).
  pose proof (proj1 (Forall_forall _ _) Hclear _ Hin) as Hw0.
  apply colliderect_tiles in Hw0; [|done..].
  apply colliderect_spec in Hhit;
    [|destruct Hr0 as [? ?], Hw as [? ?]; unfold TILE_SIZE in *; cbn; lia..].
  destruct Hr0 as [Hr0w Hr0h], Hw as [Hww Hwh]. unfold TILE_SIZE in *.
  cbn in Hhit. rewrite Hr0w, Hr0h, Hww, Hwh in Hhit.
  apply Forall_forall. intros wall' Hin'.
  pose proof (proj1 (Forall_forall _ _) Htiles _ Hin')
    as ([Hw'w Hw'h] & Hw'x & Hw'y).
  pose proof (proj1 (Forall_forall _ _) Hclear _ Hin') as Hw'0.
  apply colliderect_tiles in Hw'0; [|done..].
  unfold TILE_SIZE in *.
  pose proof (Z.div_mod (Rect.y (Wall.rect wall)) 16 ltac:(lia)).
  pose proof (Z.div_mod (Rect.y (Wall.rect wall')) 16 ltac:(lia)).
  destruct (Z.ltb_spec 0 dy), (Z.ltb_spec dy 0); try lia;
    cbn [Rect.set_bottom Rect.set_top Rect.set_y Rect.top Rect.bottom
         Rect.x Rect.y Rect.w Rect.h];
    apply colliderect_tiles; try (split; cbn; done); cbn;
    unfold Rect.top, Rect.bottom; lia.
Qed.

Lemma snap_y_bounds (r0 : Rect.t) dy wall :
  tile_sized r0 → wall_tile wall →
  Rect.colliderect r0 (Wall.rect wall) = false →
  Rect.colliderect (Rect.set_y (Rect.y r0 + dy) r0) (Wall.rect wall) = true →
  let r := Rect.set_y (Rect.y r0 + dy) r0 in
  let r := if 0 <? dy then Rect.set_bottom (Rect.top (Wall.rect wall)) r
           else r in
  let r := if dy <? 0 then Rect.set_top (Rect.bottom (Wall.rect wall)) r
           else r in
  tile_sized r ∧ Rect.x r = Rect.x r0
  ∧ Z.min (Rect.y r0) (Rect.y r0 + dy) ≤ Rect.y r
    ≤ Z.max (Rect.y r0) (Rect.y r0 + dy).
Proof.
  intros Hr0 (Hw & _ & _) Hw0 Hhit.
  apply colliderect_tiles in Hw0; [|done..].
  apply colliderect_spec in Hhit;
    [|destruct Hr0 as [? ?], Hw as [? ?]; unfold TILE_SIZE in *; cbn; lia..].
  destruct Hr0 as [Hr0w Hr0h], Hw as [Hww Hwh]. unfold TILE_SIZE in *.
  cbn in Hhit. rewrite Hr0w, Hr0h, Hww, Hwh in Hhit.
  destruct (Z.ltb_spec 0 dy), (Z.ltb_spec dy 0); try lia;
    cbn [Rect.set_bottom Rect.set_top Rect.set_y Rect.top Rect.bottom
         Rect.x Rect.y Rect.w Rect.h];
    unfold tile_sized, TILE_SIZE, Rect.top, Rect.bottom; cbn; lia.
Qed.

Lemma collide_y_inv walls (r0 : Rect.t) dy ws : ∀ c : Cat.t,
  Forall wall_tile walls → tile_sized r0 → clear_of walls r0 →
  - 16 < dy < 16 → ws ⊆ walls →
  Cat.rect c = Rect.set_y (Rect.y r0 + dy) r0 →
  let c' := Cat.collide 0 dy ws c in
  (clear_of walls (Cat.rect c')
   ∨ (Cat.rect c' = Cat.rect c ∧ clear_of ws (Cat.rect c)))
  ∧ Cat.vx c' = Cat.vx c ∧ Cat.vy c' = Cat.vy c
  ∧ Cat.speed c' = Cat.speed c
  ∧ tile_sized (Cat.rect c') ∧ Rect.x (Cat.rect c') = Rect.x r0
  ∧ Z.min (Rect.y r0) (Rect.y r0 + dy) ≤ Rect.y (Cat.rect c')
    ≤ Z.max (Rect.y r0) (Rect.y r0 + dy).
Proof.
  induction ws as [|wall ws IH]; intros c Htiles Hr0 Hclear Hdy Hsub Hc.
  - cbn. rewrite Hc. split; [right; split; [done|constructor]|].
    destruct Hr0. repeat split; cbn; try done; lia.
  - assert (wall ∈ walls) as Hin by (apply Hsub; by left).
    assert (ws ⊆ walls) as Hsub' by (intros ? ?; apply Hsub; by right).
    cbn zeta. rewrite collide_cons. unfold Cat.collide_step.
    destruct (Rect.colliderect (Cat.rect c) (Wall.rect wall)) eqn:Hhit.
    + change (0 <? 0) with false. cbn iota.
      rewrite Hc in Hhit |- *.
      pose proof (snap_y_clear walls r0 dy wall Htiles Hr0 Hclear Hdy Hin Hhit)
        as Hsnap.
      pose proof (snap_y_bounds r0 dy wall Hr0
                    (proj1 (Forall_forall _ _) Htiles _ Hin)
                    (proj1 (Forall_forall _ _) Hclear _ Hin) Hhit) as Hb.
      cbn zeta in Hsnap, Hb.
      rewrite collide_clear_fixed.
      2:{ cbn [Cat.rect Cat.set_rect].
          eapply Forall_forall. intros w' Hw'.
          apply (proj1 (Forall_forall _ _) Hsnap). by apply Hsub'. }
      cbn [Cat.rect Cat.set_rect Cat.vx Cat.vy Cat.speed].
      split; [by left|]. destruct Hb as (? & ? & ?). done.
    + destruct (IH c Htiles Hr0 Hclear Hdy Hsub' Hc)
        as (Hcases & ? & ? & ? & ? & ? & ?).
      split; [|done].
      destruct Hcases as [?|[Hsame Hws]]; [by left|right].
      split; [done|]. by constructor.
Qed.

(** Both moves of [Cat.update], one after the other. *)
Lemma cat_update_clear walls (c : Cat.t) :
  Forall wall_tile walls →
  tile_sized (Cat.rect c) →
  - 16 < Cat.vx c < 16 → - 16 < Cat.vy c < 16 →
  clear_of walls (Cat.rect c) →
  let c' := Cat.update walls c in
  clear_of walls (Cat.rect c')
  ∧ tile_sized (Cat.rect c')
  ∧ Cat.vx c' = Cat.vx c ∧ Cat.vy c' = Cat.vy c
  ∧ Cat.speed c' = Cat.speed c
  ∧ Z.min 0 (Cat.vx c) ≤ Rect.x (Cat.rect c') - Rect.x (Cat.rect c)
    ≤ Z.max 0 (Cat.vx c)
  ∧ Z.min 0 (Cat.vy c) ≤ Rect.y (Cat.rect c') - Rect.y (Cat.rect c)
    ≤ Z.max 0 (Cat.vy c).
Proof.
  intros Htiles Hsize Hvx Hvy Hclear. unfold Cat.update.
  set (c1 := Cat.set_rect _ c).
  destruct (collide_x_inv walls (Cat.rect c) (Cat.vx c) walls c1
              Htiles Hsize Hclear Hvx ltac:(done) eq_refl)
    as (Hx & Hvx1 & Hvy1 & Hsp1 & Hsize1 & Hy1 & Hbx).
  change (Cat.vx c1) with (Cat.vx c) in *.
  set (c2 := Cat.collide (Cat.vx c) 0 walls c1) in *.
  assert (clear_of walls (Cat.rect c2)) as Hclear2.
  { destruct Hx as [?|[E ?]]; [done|by rewrite E]. }
  set (c3 := Cat.set_rect _ c2).
  assert (Cat.vy c2 = Cat.vy c) as Hvy2 by done.
  destruct (collide_y_inv walls (Cat.rect c2) (Cat.vy c2) walls c3
              Htiles Hsize1 Hclear2 ltac:(by rewrite Hvy2) ltac:(done) eq_refl)
    as (Hy & Hvx3 & Hvy3 & Hsp3 & Hsize3 & Hx3 & Hby).
  change (Cat.vy c3) with (Cat.vy c2) in *.
  set (c4 := Cat.collide 0 (Cat.vy c2) walls c3) in *.
  split. { destruct Hy as [?|[E ?]]; [done|by rewrite E]. }
  split; [done|].
  change (Cat.vx c3) with (Cat.vx c2) in *.
  change (Cat.speed c3) with (Cat.speed c2) in *.
  change (Cat.vx c1) with (Cat.vx c) in *.
  change (Cat.vy c1) with (Cat.vy c) in *.
  change (Cat.speed c1) with (Cat.speed c) in *.
  repeat split; try congruence; lia.
Qed.

(** X14: The player never ends a move inside a wall.  With walls that fill
    cells of the grid and a velocity below a tile per frame, a player that
    collides with no wall collides with none after [update]; it has moved
    by at most its velocity along each axis, and never backwards. *)
Theorem player_stays_out_of_walls walls (c : Cat.t) :
  Forall wall_tile walls →
  tile_sized (Cat.rect c) →
  - 16 < Cat.vx c < 16 → - 16 < Cat.vy c < 16 →
  clear_of walls (Cat.rect c) →
  let c' := Cat.update walls c in
  clear_of walls (Cat.rect c')
  ∧ tile_sized (Cat.rect c')
  ∧ Cat.vx c' = Cat.vx c ∧ Cat.vy c' = Cat.vy c
  ∧ Cat.speed c' = Cat.speed c
  ∧ Z.min 0 (Cat.vx c) ≤ Rect.x (Cat.rect c') - Rect.x (Cat.rect c)
    ≤ Z.max 0 (Cat.vx c)
  ∧ Z.min 0 (Cat.vy c) ≤ Rect.y (Cat.rect c') - Rect.y (Cat.rect c)
    ≤ Z.max 0 (Cat.vy c).
Proof. exact (cat_update_clear walls c). Qed.

(** ** The enemies against the walls *)

(** X15: In the open the player moves by its velocity: when neither the
    horizontal move nor the vertical move after it touches a wall, [update]
    adds [vx] and [vy] to the position and changes nothing else. *)
Theorem player_moves_freely walls (c : Cat.t) :
  clear_of walls (Rect.set_x (Rect.x (Cat.rect c) + Cat.vx c) (Cat.rect c)) →
  clear_of walls
    (Rect.set_y (Rect.y (Cat.rect c) + Cat.vy c)
       (Rect.set_x (Rect.x (Cat.rect c) + Cat.vx c) (Cat.rect c))) →
  Cat.update walls c
  = Cat.set_rect
      (Rect.set_y (Rect.y (Cat.rect c) + Cat.vy c)
         (Rect.set_x (Rect.x (Cat.rect c) + Cat.vx c) (Cat.rect c))) c.
Proof.
  intros Hx Hy. unfold Cat.update.
  rewrite (collide_clear_fixed _ _ walls (Cat.set_rect _ c)) by exact Hx.
  rewrite collide_clear_fixed by exact Hy. done.
Qed.

Lemma bounce_clear_fixed ws (e : Enemy.t) :
  clear_of ws (Enemy.rect e) → fold_left Enemy.bounce ws e = e.
Proof.
  induction 1 as [|wall ws Hw _ IH]; [done|].
  cbn [fold_left]. unfold Enemy.bounce at 2. by rewrite Hw.
Qed.

Lemma step_back (e : Enemy.t) :
  Enemy.step (Enemy.set_direction (Enemy.direction e * -1) (Enemy.step e)) 
  = Enemy.set_direction (Enemy.direction e * -1) e.
Proof.
  destruct e as [[x y w h] d s l]. unfold Enemy.step, Enemy.set_direction,
    Enemy.set_rect, Rect.set_x. cbn. f_equal. f_equal. lia.
Qed.

(** The step of an enemy and the walls it may hit. *)
Lemma enemy_update_cases walls (e : Enemy.t) :
  clear_of walls (Enemy.rect e) →
  0 < Rect.left (Enemy.rect (Enemy.step e)) →
  Rect.right (Enemy.rect (Enemy.step e)) < GBA_WIDTH →
  let e' := Enemy.update walls e in
  clear_of walls (Enemy.rect e')
  ∧ (e' = Enemy.step e
     ∨ e' = Enemy.set_direction (Enemy.direction e * -1) e).
Proof.
  intros Hclear Hleft Hright. unfold Enemy.update.
  destruct (Z.leb_spec (Rect.left (Enemy.rect (Enemy.step e))) 0); [lia|].
  destruct (Z.leb_spec GBA_WIDTH (Rect.right (Enemy.rect (Enemy.step e))));
    [lia|].
  cbn [orb]. clear Hleft Hright.
  assert (∀ ws, ws ⊆ walls →
    (fold_left Enemy.bounce ws (Enemy.step e) = Enemy.step e
     ∧ clear_of ws (Enemy.rect (Enemy.step e)))
    ∨ fold_left Enemy.bounce ws (Enemy.step e)
      = Enemy.set_direction (Enemy.direction e * -1) e) as Hfold.
  { induction ws as [|wall ws IH]; intros Hsub.
    - left. split; [done|constructor].
    - cbn [fold_left]. unfold Enemy.bounce at 2 4.
      destruct (Rect.colliderect (Enemy.rect (Enemy.step e))
                  (Wall.rect wall)) eqn:Hhit.
      + right. change (Enemy.direction (Enemy.step e))
          with (Enemy.direction e). rewrite step_back.
        apply bounce_clear_fixed. cbn [Enemy.rect Enemy.set_direction].
        apply Forall_forall. intros w' Hw'.
        apply (proj1 (Forall_forall _ _) Hclear). apply Hsub. by right.
      + destruct IH as [[-> Hws] | ->]; [intros ? ?; apply Hsub; by right| |].
        * left. split; [done|]. by constructor.
        * by right. }
  destruct (Hfold walls ltac:(done)) as [[-> Hws] | ->].
  - split; [done|by left].
  - split; [done|by right].
Qed.

(** A step that touches no wall is taken as it is. *)
Lemma enemy_update_free walls (e : Enemy.t) :
  0 < Rect.left (Enemy.rect (Enemy.step e)) →
  Rect.right (Enemy.rect (Enemy.step e)) < GBA_WIDTH →
  clear_of walls (Enemy.rect (Enemy.step e)) →
  Enemy.update walls e = Enemy.step e.
Proof.
  intros Hleft Hright Hfree. unfold Enemy.update.
  destruct (Z.leb_spec (Rect.left (Enemy.rect (Enemy.step e))) 0); [lia|].
  destruct (Z.leb_spec GBA_WIDTH (Rect.right (Enemy.rect (Enemy.step e))));
    [lia|].
  cbn [orb]. by apply bounce_clear_fixed.
Qed.

(** A step that touches a wall is undone and the direction reversed, once,
    whatever the number of walls it touches. *)
Lemma enemy_update_hit walls (e : Enemy.t) wall :
  clear_of walls (Enemy.rect e) →
  0 < Rect.left (Enemy.rect (Enemy.step e)) →
  Rect.right (Enemy.rect (Enemy.step e)) < GBA_WIDTH →
  wall ∈ walls →
  Rect.colliderect (Enemy.rect (Enemy.step e)) (Wall.rect wall) = true →
  Enemy.update walls e = Enemy.set_direction (Enemy.direction e * -1) e.
Proof.
  intros Hclear Hleft Hright Hin Hhit. unfold Enemy.update.
  destruct (Z.leb_spec (Rect.left (Enemy.rect (Enemy.step e))) 0); [lia|].
  destruct (Z.leb_spec GBA_WIDTH (Rect.right (Enemy.rect (Enemy.step e))));
    [lia|].
  cbn [orb]. clear Hleft Hright.
  assert (∀ ws, ws ⊆ walls → wall ∈ ws →
            fold_left Enemy.bounce ws (Enemy.step e)
            = Enemy.set_direction (Enemy.direction e * -1) e) as Hfold.
  { induction ws as [|w0 ws IH]; intros Hsub Hw; [by apply elem_of_nil in Hw|].
    cbn [fold_left]. unfold Enemy.bounce at 2.
    destruct (Rect.colliderect (Enemy.rect (Enemy.step e)) (Wall.rect w0))
      eqn:Hhit0.
    - change (Enemy.direction (Enemy.step e)) with (Enemy.direction e).
      rewrite step_back. apply bounce_clear_fixed.
      cbn [Enemy.rect Enemy.set_direction].
      apply Forall_forall. intros w' Hw'.
      apply (proj1 (Forall_forall _ _) Hclear). apply Hsub. by right.
    - apply elem_of_cons in Hw as [-> | Hw]; [congruence|].
      apply IH; [|done]. intros ? ?. apply Hsub. by right. }
  by apply Hfold.
Qed.

(** X16: An enemy patrols without entering a wall.  Away from the edges of
    the screen, an enemy that collides with no wall takes its step when the
    step touches no wall, and when the step touches a wall it ends the
    frame where it was with its direction reversed; either way it collides
    with no wall afterwards. *)
Theorem enemy_turns_at_walls walls (e : Enemy.t) :
  clear_of walls (Enemy.rect e) →
  0 < Rect.left (Enemy.rect (Enemy.step e)) →
  Rect.right (Enemy.rect (Enemy.step e)) < GBA_WIDTH →
  let e' := Enemy.update walls e in
  clear_of walls (Enemy.rect e')
  ∧ (clear_of walls (Enemy.rect (Enemy.step e)) → e' = Enemy.step e)
  ∧ (∀ wall, wall ∈ walls →
       Rect.colliderect (Enemy.rect (Enemy.step e)) (Wall.rect wall) = true →
       e' = Enemy.set_direction (Enemy.direction e * -1) e).
Proof.
  intros Hclear Hleft Hright e'. split; [|split].
  - exact (proj1 (enemy_update_cases walls e Hclear Hleft Hright)).
  - intros Hfree. by apply enemy_update_free.
  - intros wall Hin Hhit. by apply (enemy_update_hit walls e wall).
Qed.

(** ** The level loader *)

Lemma elem_of_imap_lookup {A B} (f : nat → A → B) (l : list A) (y : B) :
  y ∈ imap f l ↔ ∃ i x, l !! i = Some x ∧ y = f i x.
Proof.
  rewrite list_elem_of_lookup. split.
  - intros [i Hi]. rewrite list_lookup_imap in Hi.
    destruct (l !! i) as [x|] eqn:Hx; [|done].
    injection Hi as <-. by exists i, x.
  - intros (i & x & Hx & ->). exists i. by rewrite list_lookup_imap, Hx.
Qed.

(** A cell of the map is the character at its row and column. *)
Lemma elem_of_cells level_data (row col : nat) (ch : string) :
  (row, col, ch) ∈ Game.cells level_data
  ↔ ∃ line a, level_data !! row = Some line
      ∧ String.list_ascii_of_string line !! col = Some a
      ∧ ch = String a "".
Proof.
  unfold Game.cells. rewrite list_elem_of_In, in_concat. split.
  - intros (l & Hl & Hin). apply list_elem_of_In in Hl, Hin.
    apply elem_of_imap_lookup in Hl as (row' & line & Hline & ->).
    apply elem_of_imap_lookup in Hin as (col' & a & Ha & [= -> -> ->]).
    by exists line, a.
  - intros (line & a & Hline & Ha & ->).
    exists (imap (λ col char, (row, col, String char ""))
              (String.list_ascii_of_string line)).
    split; apply list_elem_of_In, elem_of_imap_lookup.
    + by exists row, line.
    + by exists col, a.
Qed.

Lemma cells_char_unique level_data (row col : nat) (ch1 ch2 : string) :
  (row, col, ch1) ∈ Game.cells level_data →
  (row, col, ch2) ∈ Game.cells level_data → ch1 = ch2.
Proof.
  rewrite !elem_of_cells.
  intros (l1 & a1 & H1 & Ha1 & ->) (l2 & a2 & H2 & Ha2 & ->). congruence.
Qed.

Lemma tiles_of_distinct_cells (c1 c2 : nat * nat * string) :
  Rect.colliderect (Rect.tile (Game.cell_x c1) (Game.cell_y c1))
                   (Rect.tile (Game.cell_x c2) (Game.cell_y c2)) = true →
  c1.1 = c2.1.
Proof.
  intros Hhit. apply colliderect_spec in Hhit; [|cbn; unfold TILE_SIZE; lia..].
  destruct c1 as [[r1 k1] ch1], c2 as [[r2 k2] ch2].
  unfold Game.cell_x, Game.cell_y, Rect.tile, TILE_SIZE in Hhit.
  cbn [Rect.x Rect.y Rect.w Rect.h fst snd] in *.
  f_equal; lia.
Qed.

Lemma elem_of_filter_cells ch level_data (c : nat * nat * string) :
  c ∈ List.filter (Game.is_char ch) (Game.cells level_data)
  ↔ c ∈ Game.cells level_data ∧ c.2 = ch.
Proof.
  rewrite !list_elem_of_In, filter_In. unfold Game.is_char.
  by rewrite String.eqb_eq.
Qed.

(** The walls, the start and the enemies read from a map. *)
Lemma level_parts_sound level_data level_name :
  Forall wall_tile (Game.level_walls level_data)
  ∧ (∀ cat, Game.level_start level_data = Some cat →
       tile_sized (Cat.rect cat)
       ∧ Cat.vx cat = 0 ∧ Cat.vy cat = 0 ∧ Cat.speed cat = 3
       ∧ clear_of (Game.level_walls level_data) (Cat.rect cat)
       ∧ ∃ c, List.find (Game.is_char ".") (Game.cells level_data) = Some c
              ∧ Rect.x (Cat.rect cat) = Game.cell_x c
              ∧ Rect.y (Cat.rect cat) = Game.cell_y c)
  ∧ (Game.level_start level_data = None
     ↔ ∀ c, c ∈ Game.cells level_data → c.2 ≠ ".")
  ∧ Forall (λ e, tile_sized (Enemy.rect e)
                 ∧ Enemy.direction e = 1 ∧ Enemy.speed e = 1
                 ∧ Enemy.level e = level_name
                 ∧ clear_of (Game.level_walls level_data) (Enemy.rect e))
           (Game.level_enemies level_data level_name).
Proof.
  assert (∀ ch c, ch ≠ "#" → c ∈ Game.cells level_data → c.2 = ch →
            clear_of (Game.level_walls level_data)
                     (Rect.tile (Game.cell_x c) (Game.cell_y c))) as Hfree.
  { intros ch c Hch Hc Hc2. unfold Game.level_walls.
    apply Forall_fmap, Forall_forall. intros c' Hc'.
    apply elem_of_filter_cells in Hc' as [Hc' Hc'2]. cbn.
    apply not_true_iff_false. intros Hhit.
    apply tiles_of_distinct_cells in Hhit.
    destruct c as [[r k] x], c' as [[r' k'] x']. cbn in *.
    injection Hhit as <- <-. subst.
    by rewrite (cells_char_unique level_data r k ch "#" Hc Hc') in Hch. }
  split; [|split; [|split]].
  - unfold Game.level_walls. apply Forall_fmap, Forall_forall.
    intros c _. unfold wall_tile, tile_sized, Game.cell_x, Game.cell_y,
      TILE_SIZE. cbn. repeat split; try done; apply Z.mod_mul; lia.
  - intros cat. unfold Game.level_start.
    destruct (List.find _ _) as [c|] eqn:Hfind; [|done].
    intros [= <-]. apply find_some in Hfind as [Hc Hc2].
    apply list_elem_of_In in Hc. unfold Game.is_char in Hc2.
    apply String.eqb_eq in Hc2.
    repeat split; try done; [by apply (Hfree "." c)|].
    by exists c.
  - unfold Game.level_start. split.
    + destruct (List.find _ _) as [c|] eqn:Hfind; [done|]. intros _ c Hc Hc2.
      pose proof (find_none _ _ Hfind c (proj1 (list_elem_of_In _ _) Hc))
        as Hf.
      unfold Game.is_char in Hf. rewrite Hc2 in Hf. done.
    + intros Hnone. destruct (List.find _ _) as [c|] eqn:Hfind; [|done].
      apply find_some in Hfind as [Hc Hc2]. exfalso.
      apply (Hnone c); [by apply list_elem_of_In|].
      unfold Game.is_char in Hc2. by apply String.eqb_eq.
  - unfold Game.level_enemies. apply Forall_fmap, Forall_forall.
    intros c Hc. apply elem_of_filter_cells in Hc as [Hc Hc2].
    repeat split; try done. by apply (Hfree "E" c).
Qed.

(** X17: Whatever the map, the level it loads is sound: every wall fills a cell
    of the grid; the player starts at rest on the first free cell in
    reading order, where it collides with no wall; and no enemy starts
    inside a wall. *)
Theorem loaded_level_is_sound level_data level_name :
  Forall wall_tile (Game.level_walls level_data)
  ∧ (∀ cat, Game.level_start level_data = Some cat →
       tile_sized (Cat.rect cat)
       ∧ Cat.vx cat = 0 ∧ Cat.vy cat = 0 ∧ Cat.speed cat = 3
       ∧ clear_of (Game.level_walls level_data) (Cat.rect cat)
       ∧ ∃ c, List.find (Game.is_char ".") (Game.cells level_data) = Some c
              ∧ Rect.x (Cat.rect cat) = Game.cell_x c
              ∧ Rect.y (Cat.rect cat) = Game.cell_y c)
  ∧ (Game.level_start level_data = None
     ↔ ∀ c, c ∈ Game.cells level_data → c.2 ≠ ".")
  ∧ Forall (λ e, tile_sized (Enemy.rect e)
                 ∧ Enemy.direction e = 1 ∧ Enemy.speed e = 1
                 ∧ Enemy.level e = level_name
                 ∧ clear_of (Game.level_walls level_data) (Enemy.rect e))
           (Game.level_enemies level_data level_name).
Proof. exact (level_parts_sound level_data level_name). Qed.

(** ** The game as a whole *)

(** The six maps of the game: each has a free cell for the player, and
    fences the rows of its enemies. *)
Lemma levels_checked level_name :
  level_name ∈ ["ruins"; "snowdin"; "waterfall"; "hotland"; "core"; "last"] →
  ∃ level_data,
    LEVELS !! level_name = Some level_data
    ∧ is_Some (Game.level_start level_data)
    ∧ enemies_fenced level_data level_name = true.
Proof.
  intros Hin. repeat (apply elem_of_cons in Hin as [->|Hin]);
    [..|by apply elem_of_nil in Hin];
    (eexists; split; [vm_compute; reflexivity|];
     split; [vm_compute; eauto|vm_compute; reflexivity]).
Qed.

Lemma game_load_level_ok level_name (g : Game.t) :
  level_name ∈ ["ruins"; "snowdin"; "waterfall"; "hotland"; "core"; "last"] →
  ∃ g', Game.load_level level_name g = Some g'
    ∧ Game.running g' = Game.running g
    ∧ Game.level_names g' = Game.level_names g
    ∧ Game.current_level_idx g' = Game.current_level_idx g
    ∧ Game.level g' = Game.level g
    ∧ Game.sound g' = Game.sound g
    ∧ Forall wall_tile (Game.walls g')
    ∧ (∃ cat, Game.player g' = Some cat ∧ cat_ok (Game.walls g') cat
              ∧ Cat.vx cat = 0 ∧ Cat.vy cat = 0)
    ∧ Forall (enemy_ok (Game.walls g')) (Game.enemies g').
Proof.
  intros Hin.
  destruct (levels_checked level_name Hin)
    as (level_data & Hdata & [cat Hcat] & Hfenced).
  destruct (level_parts_sound level_data level_name)
    as (Hwalls & Hstart & _ & Henemies).
  destruct (Hstart cat Hcat) as (Hsize & Hvx & Hvy & Hspeed & Hclear & _).
  unfold Game.load_level. rewrite Hdata. cbn [mbind option_bind].
  rewrite Hcat. eexists; split; [done|].
  cbn [Game.set_player Game.set_sprites Game.running Game.level_names
       Game.current_level_idx Game.level Game.sound Game.walls Game.player
       Game.enemies].
  do 6 (split; [done|]). split.
  - exists cat. split; [done|]. split; [|done].
    unfold cat_ok. rewrite Hvx, Hvy.
    split; [done|]. split; [done|]. split; [done|]. split; [done|]. done.
  - unfold enemies_fenced in Hfenced.
    rewrite forallb_forall in Hfenced.
    apply Forall_forall. intros e He.
    pose proof (proj1 (Forall_forall _ _) Henemies e He)
      as (? & Hd & ? & _ & ?).
    specialize (Hfenced e (proj1 (list_elem_of_In _ _) He)).
    rewrite !andb_true_iff, !Z.leb_le in Hfenced.
    destruct Hfenced as [[[? ?] ?] ?].
    unfold enemy_ok. rewrite Hd.
    split; [done|]. repeat split; try done; try lia.
Qed.

Lemma set_route_game_ok be r (g : Game.t) :
  game_ok g → game_ok (Game.set_sound (set_route be r (Game.sound g)) g).
Proof.
  intros (Hn & Hl & Hw & Hp & He & Hm & Hs). rewrite set_route_eq.
  unfold game_ok. do 5 (split; [done|]). split; [exact Hm|exact Hs].
Qed.

Lemma set_velocity_game_ok (g : Game.t) (f : Cat.t → Cat.t) :
  (∀ p, Cat.rect (f p) = Cat.rect p ∧ Cat.speed (f p) = Cat.speed p
        ∧ (Cat.speed p = 3 →
           Z.abs (Cat.vx p) ≤ 3 → Z.abs (Cat.vy p) ≤ 3 →
           Z.abs (Cat.vx (f p)) ≤ 3 ∧ Z.abs (Cat.vy (f p)) ≤ 3)) →
  game_ok g →
  ∃ g', (p ← Game.player g; Some (Game.set_player (Some (f p)) g)) = Some g'
    ∧ game_ok g'.
Proof.
  intros Hf (Hn & Hl & Hw & (cat & Hcat & Hs & Hsp & Hvx & Hvy & Hc)
            & He & Hm & Hsnd).
  rewrite Hcat. cbn [mbind option_bind]. eexists; split; [done|].
  destruct (Hf cat) as (Hr & Hsp' & Hv).
  destruct (Hv Hsp Hvx Hvy) as [? ?].
  unfold game_ok. do 3 (split; [done|]).
  split; [|by do 2 (split; [done|])].
  exists (f cat). split; [done|]. unfold cat_ok.
  rewrite Hr, Hsp'. by do 4 (split; [done|]).
Qed.

(** Every event is handled without an exception, and the game stays in
    order. *)
Lemma handle_event_ok be ev (g : Game.t) :
  game_ok g → ∃ g', Game.handle_event be ev g = Some g' ∧ game_ok g'.
Proof.
  intros Hok. destruct ev as [|k|k|].
  - eexists; split; [done|]. destruct Hok as (? & ? & ? & ? & ? & ? & ?).
    unfold game_ok. by do 6 (split; [done|]).
  - destruct k; cbn [Game.handle_event].
    + apply (set_velocity_game_ok g (λ p, Cat.set_vx (- Cat.speed p) p));
        [|done]. intros p. cbn. repeat split; try done; lia.
    + apply (set_velocity_game_ok g (λ p, Cat.set_vx (Cat.speed p) p));
        [|done]. intros p. cbn. repeat split; try done; lia.
    + apply (set_velocity_game_ok g (λ p, Cat.set_vy (- Cat.speed p) p));
        [|done]. intros p. cbn. repeat split; try done; lia.
    + apply (set_velocity_game_ok g (λ p, Cat.set_vy (Cat.speed p) p));
        [|done]. intros p. cbn. repeat split; try done; lia.
    + destruct Hok as (Hn & Hl & Hw & Hp & He & Hm & Hs).
      rewrite Hn. cbn [length]. rewrite decide_False by done.
      set (i := ((Game.current_level_idx g + 1) mod 6)%nat).
      assert (i < 6)%nat as Hi by (apply Nat.mod_upper_bound; lia).
      destruct (lookup_lt_is_Some_2
                  ["ruins"; "snowdin"; "waterfall"; "hotland"; "core"; "last"]
                  i Hi) as [l Hli].
      rewrite Hli. cbn [mbind option_bind].
      destruct (game_load_level_ok l (Game.set_level i l g))
        as (g1 & -> & Hrun & Hnames & Hidx & Hlev & Hsnd & Hw1 & Hp1 & He1).
      { by eapply list_elem_of_lookup_2. }
      cbn [mbind option_bind]. eexists; split; [done|].
      cbn [Game.set_level Game.running Game.level_names
           Game.current_level_idx Game.level Game.sound] in *.
      unfold game_ok.
      cbn [Game.set_sound Game.level_names Game.current_level_idx Game.level
           Game.walls Game.player Game.enemies Game.sound].
      rewrite Hnames, Hidx, Hlev, Hsnd, Hn.
      split; [done|]. split; [done|]. split; [done|].
      split; [destruct Hp1 as (cat & ? & ? & _); eauto|].
      split; [done|].
      destruct (load_level_frame be l (Game.sound g))
        as (Hc & _ & Hav' & _ & Hvol & _ & _).
      split.
      { destruct Hm as [Hlen Hch]. split.
        - destruct Hvol as [E | E]; rewrite E; done.
        - intros Hav. rewrite Hc. apply Hch. by apply Hav'. }
      intros Hav.
      destruct (load_level_post be l (Game.sound g) (Hav' Hav)); [|done].
      congruence.
    + eexists; split; [done|]. by apply set_route_game_ok.
    + eexists; split; [done|]. by apply set_route_game_ok.
    + by exists g.
  - cbn [Game.handle_event].
    assert (∃ g1, (if decide (k = Game.K_LEFT ∨ k = Game.K_RIGHT)
                   then p ← Game.player g;
                        Some (Game.set_player (Some (Cat.set_vx 0 p)) g)
                   else Some g) = Some g1 ∧ game_ok g1) as (g1 & -> & Hok1).
    { case_decide; [|by exists g].
      apply (set_velocity_game_ok g (Cat.set_vx 0)); [|done].
      intros p. cbn. repeat split; try done; lia. }
    cbn [mbind option_bind]. case_decide; [|by exists g1].
    apply (set_velocity_game_ok g1 (Cat.set_vy 0)); [|done].
    intros p. cbn. repeat split; try done; lia.
  - by exists g.
Qed.

Lemma has_wall_elem x y walls :
  has_wall x y walls = true →
  ∃ wall, wall ∈ walls ∧ Rect.x (Wall.rect wall) = x
          ∧ Rect.y (Wall.rect wall) = y.
Proof.
  unfold has_wall. rewrite existsb_exists. intros (wall & Hin & Hxy).
  apply andb_true_iff in Hxy as [Hx Hy]. apply Z.eqb_eq in Hx, Hy.
  exists wall. split; [by apply list_elem_of_In|done].
Qed.

Lemma enemy_update_ok walls (e : Enemy.t) :
  Forall wall_tile walls → enemy_ok walls e →
  enemy_ok walls (Enemy.update walls e).
Proof.
  intros Htiles (Hsize & Hspeed & Hdir & Hclear & Hx & Hl & Hr).
  assert (Rect.x (Enemy.rect (Enemy.step e))
          = Rect.x (Enemy.rect e) + Enemy.direction e) as Hx1.
  { unfold Enemy.step. cbn. rewrite Hspeed. lia. }
  assert (Rect.w (Enemy.rect (Enemy.step e)) = 16
          ∧ Rect.h (Enemy.rect (Enemy.step e)) = 16
          ∧ Rect.y (Enemy.rect (Enemy.step e)) = Rect.y (Enemy.rect e))
    as (Hw1 & Hh1 & Hy1).
  { destruct Hsize as [? ?]. unfold Enemy.step. cbn. done. }
  destruct (enemy_update_cases walls e Hclear) as [Hclear' Hcases].
  { unfold Rect.left. lia. }
  { unfold Rect.right, GBA_WIDTH. lia. }
  cbn zeta in Hclear', Hcases. destruct Hcases as [E | E]; rewrite E in *.
  - destruct (has_wall_elem _ _ _ Hl) as (wl & Hwl & Hwlx & Hwly).
    destruct (has_wall_elem _ _ _ Hr) as (wr & Hwr & Hwrx & Hwry).
    pose proof (proj1 (Forall_forall _ _) Htiles _ Hwl) as (Hwlt & _).
    pose proof (proj1 (Forall_forall _ _) Htiles _ Hwr) as (Hwrt & _).
    pose proof (proj1 (Forall_forall _ _) Hclear' _ Hwl) as Hcl.
    pose proof (proj1 (Forall_forall _ _) Hclear' _ Hwr) as Hcr.
    apply colliderect_tiles in Hcl; [|by split|done].
    apply colliderect_tiles in Hcr; [|by split|done].
    unfold enemy_ok. split; [by split|]. split; [done|]. split; [done|].
    split; [done|]. rewrite Hy1. split; [lia|]. done.
  - unfold enemy_ok. cbn [Enemy.rect Enemy.set_direction Enemy.speed
      Enemy.direction]. do 2 (split; [done|]). split; [lia|]. done.
Qed.

Lemma game_update_ok (g : Game.t) :
  game_ok g →
  ∃ g', Game.update g = Some g' ∧ game_ok g'
        ∧ Game.running g' = Game.running g.
Proof.
  intros (Hn & Hl & Hw & (cat & Hcat & Hs & Hsp & Hvx & Hvy & Hc)
          & He & Hm & Hsnd).
  unfold Game.update. rewrite Hcat. cbn [mbind option_bind].
  destruct (cat_update_clear (Game.walls g) cat Hw Hs
              ltac:(lia) ltac:(lia) Hc)
    as (Hc' & Hs' & Hvx' & Hvy' & Hsp' & _).
  set (cat' := Cat.update (Game.walls g) cat) in *.
  set (es := Enemy.update (Game.walls g) <$> Game.enemies g).
  destruct (update_frame (λ _, True) (math_hypot (Cat.vx cat') (Cat.vy cat'))
              (Game.enemy_near cat' es) (Game.sound g) Hm)
    as (w' & evs & -> & Hav & Hch & Hcur & _ & _ & _ & Hlen & _);
    [done|by apply Forall_forall|].
  cbn [mbind option_bind]. eexists; split; [done|]. split; [|done].
  unfold game_ok.
  cbn [Game.set_sound Game.set_sprites Game.set_player Game.level_names
       Game.current_level_idx Game.level Game.walls Game.player
       Game.enemies Game.sound].
  do 3 (split; [done|]). split.
  { exists cat'. split; [done|]. unfold cat_ok. rewrite Hvx', Hvy', Hsp'.
    by do 4 (split; [done|]). }
  split.
  { unfold es. apply Forall_fmap. eapply Forall_impl; [exact He|].
    intros e. by apply enemy_update_ok. }
  split.
  { split; [done|]. rewrite Hav, Hch. apply Hm. }
  rewrite Hav, Hcur. done.
Qed.

Lemma handle_events_cons be ev evs (g : Game.t) :
  Game.handle_events be (ev :: evs) g
  = Game.handle_event be ev g ≫= Game.handle_events be evs.
Proof.
  unfold Game.handle_events. cbn [foldl mbind option_bind].
  destruct (Game.handle_event be ev g) as [g1|]; [done|].
  cbn. induction evs as [|ev' evs IH]; [done|]. done.
Qed.

Lemma handle_events_ok be evs : ∀ g : Game.t,
  game_ok g → ∃ g', Game.handle_events be evs g = Some g' ∧ game_ok g'.
Proof.
  induction evs as [|ev evs IH]; intros g Hok; [by exists g|].
  rewrite handle_events_cons.
  destruct (handle_event_ok be ev g Hok) as (g1 & -> & Hok1).
  by apply IH.
Qed.

Lemma game_init_ok be rng :
  ∃ g, Game.init be rng = Some g ∧ game_ok g ∧ Game.running g = true.
Proof.
  unfold Game.init. cbn [lookup list_lookup mbind option_bind].
  match goal with
  | |- context [Game.load_level "ruins" ?g0] =>
    destruct (game_load_level_ok "ruins" g0)
      as (g1 & -> & Hrun & Hnames & Hidx & Hlev & Hsnd & Hw1 & Hp1 & He1);
      [by left|]
  end.
  cbn [mbind option_bind]. eexists; split; [done|]. split; [|done].
  cbn [Game.running Game.level_names Game.current_level_idx Game.level
       Game.sound] in *.
  unfold game_ok.
  cbn [Game.set_sound Game.level_names Game.current_level_idx Game.level
       Game.walls Game.player Game.enemies Game.sound].
  rewrite Hnames, Hidx, Hlev.
  split; [done|]. split; [done|]. split; [done|].
  split; [destruct Hp1 as (cat & ? & ? & _); eauto|].
  split; [done|].
  assert (manager_ok (self (initial_world be rng))) as Hm.
  { split; [done|]. cbn. unfold SoundManager_init. cbn.
    by destruct (bool_decide _). }
  destruct (load_level_frame be "ruins" (initial_world be rng))
    as (Hc & _ & Hav' & _ & Hvol & _ & _).
  split.
  { destruct Hm as [Hlen Hch]. split.
    - destruct Hvol as [E | E]; rewrite E; done.
    - intros Hav. rewrite Hc. apply Hch. by apply Hav'. }
  intros Hav.
  destruct (load_level_post be "ruins" (initial_world be rng) (Hav' Hav))
    as [?|?]; [congruence|done].
Qed.

Lemma game_run_ok be frames : ∀ g : Game.t,
  game_ok g → ∃ g', Game.run be frames g = Some g' ∧ game_ok g'.
Proof.
  induction frames as [|evs frames IH]; intros g Hok; [by exists g|].
  cbn [Game.run]. destruct (Game.running g); [|by exists g].
  unfold Game.frame.
  destruct (handle_events_ok be evs g Hok) as (g1 & -> & Hok1).
  cbn [mbind option_bind].
  destruct (game_update_ok g1 Hok1) as (g2 & -> & Hok2 & _).
  cbn [mbind option_bind]. by apply IH.
Qed.

(** X18: The game never raises and stays in order.  Whatever the device, the
    random stream and the events of each frame, [Game()] succeeds and the
    loop of [run] goes through every frame; at the end, as after each
    frame, the player is inside no wall, no enemy is inside a wall, the
    level index is valid, and the sound manager, when its mixer is
    available, has the level of the game as its current level. *)
Theorem game_runs_in_order be rng frames :
  ∃ g0 g',
    Game.init be rng = Some g0
    ∧ Game.run be frames g0 = Some g'
    ∧ game_ok g0 ∧ game_ok g'.
Proof.
  destruct (game_init_ok be rng) as (g0 & Hinit & Hok0 & _).
  destruct (game_run_ok be frames g0 Hok0) as (g' & Hrun & Hok').
  by exists g0, g'.
Qed.

Lemma next_level_index be (g g1 : Game.t) :
  Game.handle_event be (Game.KEYDOWN Game.K_n) g = Some g1 →
  Game.current_level_idx g1
  = ((Game.current_level_idx g + 1) mod length (Game.level_names g))%nat.
Proof.
  cbn [Game.handle_event]. case_decide; [done|].
  destruct (_ !! _) as [l|]; [|done]. cbn [mbind option_bind].
  unfold Game.load_level.
  destruct (LEVELS !! l) as [level_data|]; [|done].
  cbn [mbind option_bind]. intros [= <-].
  by destruct (Game.level_start level_data).
Qed.

(** X19: The key N steps through the six levels in a circle: after [k] presses
    the index has advanced by [k] modulo 6, so six presses lead back to the
    level the game was on. *)
Theorem level_key_cycles be (k : nat) (g : Game.t) :
  game_ok g →
  ∃ g', Game.handle_events be (replicate k (Game.KEYDOWN Game.K_n)) g
        = Some g'
    ∧ game_ok g'
    ∧ Game.current_level_idx g'
      = ((Game.current_level_idx g + k) mod 6)%nat
    ∧ ((k mod 6 = 0)%nat → Game.level g' = Game.level g).
Proof.
  intros Hok.
  assert (Game.current_level_idx g < 6)%nat as Hidx.
  { destruct Hok as (Hn & Hl & _). apply lookup_lt_Some in Hl.
    by rewrite Hn in Hl. }
  assert (∃ g', Game.handle_events be (replicate k (Game.KEYDOWN Game.K_n)) g
                = Some g'
            ∧ game_ok g'
            ∧ Game.current_level_idx g'
              = ((Game.current_level_idx g + k) mod 6)%nat)
    as (g' & Hrun & Hok' & Hidx').
  { clear Hidx. revert g Hok. induction k as [|k IH]; intros g Hok.
    - exists g. split; [done|]. split; [done|].
      destruct Hok as (Hn & Hl & _). apply lookup_lt_Some in Hl.
      rewrite Hn in Hl. cbn [length] in Hl.
      rewrite Nat.add_0_r, Nat.mod_small; done.
    - cbn [replicate]. rewrite handle_events_cons.
      destruct (handle_event_ok be (Game.KEYDOWN Game.K_n) g Hok)
        as (g1 & Hg1 & Hok1).
      rewrite Hg1. cbn [mbind option_bind].
      destruct (IH g1 Hok1) as (g' & -> & Hok' & Hidx').
      exists g'. split; [done|]. split; [done|]. rewrite Hidx'.
      assert (Game.current_level_idx g1
              = ((Game.current_level_idx g + 1) mod 6)%nat) as ->.
      { destruct Hok as (Hn & _).
        rewrite (next_level_index be g g1 Hg1), Hn. done. }
      rewrite Nat.Div0.add_mod_idemp_l. f_equal. lia. }
  exists g'. split; [done|]. split; [done|]. split; [done|].
  intros Hk. rewrite <- Nat.Div0.add_mod_idemp_r, Hk, Nat.add_0_r in Hidx'.
  rewrite Nat.mod_small in Hidx' by done.
  destruct Hok as (Hn & Hl & _), Hok' as (Hn' & Hl' & _).
  rewrite Hidx', Hn' in Hl'. rewrite Hn in Hl. congruence.
Qed.

(** ** The game as a client of the sound manager *)

Lemma run_calls_app be cs1 cs2 w :
  run_calls be (cs1 ++ cs2) w = run_calls be cs1 w ≫= run_calls be cs2.
Proof.
  revert w. induction cs1 as [|c cs1 IH]; intros w; [done|].
  cbn [app run_calls]. destruct (run_call be c w) as [w1|]; [|done].
  cbn [mbind option_bind]. apply IH.
Qed.

Lemma game_load_level_sound level_name (g g' : Game.t) :
  Game.load_level level_name g = Some g' →
  Game.sound g' = Game.sound g ∧ Game.running g' = Game.running g.
Proof.
  unfold Game.load_level.
  destruct (LEVELS !! level_name) as [level_data|]; [|done].
  cbn [mbind option_bind]. intros [= <-].
  by destruct (Game.level_start level_data).
Qed.

(** What an event does to the sound manager and to [running]. *)
Lemma handle_event_calls be ev (g g' : Game.t) :
  Game.handle_event be ev g = Some g' →
  (∃ cs, Forall speed_nonneg cs
         ∧ run_calls be cs (Game.sound g) = Some (Game.sound g'))
  ∧ Game.running g' = (if decide (ev = Game.QUIT) then false
                       else Game.running g).
Proof.
  assert (∀ (f : Cat.t → Cat.t) (g1 : Game.t),
            (p ← Game.player g; Some (Game.set_player (Some (f p)) g))
            = Some g1 →
            Game.sound g1 = Game.sound g
            ∧ Game.running g1 = Game.running g) as Hvel.
  { intros f g1. destruct (Game.player g); [|done]. by intros [= <-]. }
  destruct ev as [|k|k|]; cbn [Game.handle_event].
  - rewrite decide_True by done. intros [= <-]. split; [by exists []|done].
  - rewrite (decide_False (P := Game.KEYDOWN k = Game.QUIT)) by done.
    destruct k; try (intros [E1 E2]%Hvel; rewrite E1, E2;
                     split; [by exists []|done]).
    + case_decide; [done|]. destruct (_ !! _) as [l|]; [|done].
      cbn [mbind option_bind].
      destruct (Game.load_level _ _) as [g1|] eqn:Hload; [|done].
      apply game_load_level_sound in Hload as [Hs Hr].
      cbn [mbind option_bind]. intros [= <-].
      cbn [Game.set_sound Game.sound Game.running]. rewrite Hs, Hr.
      split; [|done]. exists [CallLoadLevel l].
      split; [by repeat constructor|done].
    + intros [= <-]. split; [|done]. exists [CallSetRoute "pacifist"].
      split; [by repeat constructor|done].
    + intros [= <-]. split; [|done]. exists [CallSetRoute "genocide"].
      split; [by repeat constructor|done].
    + intros [= <-]. split; [by exists []|done].
  - rewrite (decide_False (P := Game.KEYUP k = Game.QUIT)) by done.
    destruct (if decide (k = Game.K_LEFT ∨ k = Game.K_RIGHT)
              then p ← Game.player g;
                   Some (Game.set_player (Some (Cat.set_vx 0 p)) g)
              else Some g) as [g1|] eqn:Hx; [|done].
    cbn [mbind option_bind]. intros Hy.
    assert (Game.sound g1 = Game.sound g
            ∧ Game.running g1 = Game.running g) as [E1 E2].
    { destruct (decide (k = Game.K_LEFT ∨ k = Game.K_RIGHT));
        [by apply (Hvel (Cat.set_vx 0))|by injection Hx as <-]. }
    assert (Game.sound g' = Game.sound g1
            ∧ Game.running g' = Game.running g1) as [E3 E4].
    { destruct (decide (k = Game.K_UP ∨ k = Game.K_DOWN));
        [|by injection Hy as <-].
      destruct (Game.player g1); [|done]. by injection Hy as <-. }
    rewrite E3, E4, E1, E2. split; [by exists []|done].
  - rewrite decide_False by done. intros [= <-]. split; [by exists []|done].
Qed.

Lemma handle_events_calls be evs : ∀ g g' : Game.t,
  Game.handle_events be evs g = Some g' →
  (∃ cs, Forall speed_nonneg cs
         ∧ run_calls be cs (Game.sound g) = Some (Game.sound g'))
  ∧ Game.running g' = (if decide (Game.QUIT ∈ evs) then false
                       else Game.running g).
Proof.
  induction evs as [|ev evs IH]; intros g g'.
  - intros [= <-]. split; [by exists []|].
    rewrite decide_False; [done|]. by intros ?%elem_of_nil.
  - rewrite handle_events_cons.
    destruct (Game.handle_event be ev g) as [g1|] eqn:Hev; [|done].
    cbn [mbind option_bind]. intros Hevs.
    destruct (handle_event_calls be ev g g1 Hev) as [(cs1 & Hcs1 & Hr1) Hq1].
    destruct (IH g1 g' Hevs) as [(cs & Hcs & Hr) Hq]. split.
    + exists (cs1 ++ cs). split; [by apply Forall_app|].
      by rewrite run_calls_app, Hr1.
    + rewrite Hq, Hq1.
      destruct (decide (Game.QUIT ∈ evs)) as [Hin|Hnin],
               (decide (Game.QUIT ∈ ev :: evs)) as [Hin2|Hnin2],
               (decide (ev = Game.QUIT)) as [->|Hne];
        try done; exfalso.
      * by apply Hnin2, list_elem_of_further.
      * by apply Hnin2, list_elem_of_further.
      * apply elem_of_cons in Hin2 as [?|?]; [congruence|done].
      * by apply Hnin2, list_elem_of_here.
Qed.

Lemma game_update_calls (g g' : Game.t) :
  (∀ x y, 0 <= math_hypot x y)%Q →
  Game.update g = Some g' →
  (∃ cs, Forall speed_nonneg cs
         ∧ ∀ be, run_calls be cs (Game.sound g) = Some (Game.sound g'))
  ∧ Game.running g' = Game.running g.
Proof.
  intros Hhyp. unfold Game.update.
  destruct (Game.player g) as [p|]; [|done]. cbn [mbind option_bind].
  match goal with
  | |- context [update ?s ?n ?w] =>
    destruct (update s n w) as [w'|] eqn:Hu; [|done];
      cbn [mbind option_bind]; intros [= <-]; split; [|done];
      exists [CallUpdate s n]
  end.
  split; [repeat constructor; apply Hhyp|]. intros be.
  cbn [run_calls run_call Game.set_sound Game.sound]. by rewrite Hu.
Qed.

Lemma game_run_calls be frames : ∀ g g' : Game.t,
  (∀ x y, 0 <= math_hypot x y)%Q →
  Game.run be frames g = Some g' →
  ∃ cs, Forall speed_nonneg cs
        ∧ run_calls be cs (Game.sound g) = Some (Game.sound g').
Proof.
  induction frames as [|evs frames IH]; intros g g' Hhyp.
  - intros [= <-]. by exists [].
  - cbn [Game.run]. destruct (Game.running g); [|intros [= <-]; by exists []].
    unfold Game.frame.
    destruct (Game.handle_events be evs g) as [g1|] eqn:H1; [|done].
    cbn [mbind option_bind].
    destruct (Game.update g1) as [g2|] eqn:H2; [|done].
    cbn [mbind option_bind]. intros H3.
    destruct (handle_events_calls be evs g g1 H1) as [(cs1 & ? & Hr1) _].
    destruct (game_update_calls g1 g2 Hhyp H2) as [(cs2 & ? & Hr2) _].
    destruct (IH g2 g' Hhyp H3) as (cs3 & ? & Hr3).
    exists (cs1 ++ cs2 ++ cs3).
    split; [apply Forall_app; split; [done|]; by apply Forall_app|].
    rewrite run_calls_app, Hr1. cbn [mbind option_bind].
    by rewrite run_calls_app, (Hr2 be).
Qed.

Lemma game_init_calls be rng (g : Game.t) :
  Game.init be rng = Some g →
  Game.sound g = load_level be "ruins" (initial_world be rng).
Proof.
  unfold Game.init. cbn [lookup list_lookup mbind option_bind].
  destruct (Game.load_level _ _) as [g1|] eqn:Hload; [|done].
  cbn [mbind option_bind]. by intros [= <-].
Qed.

(** X20: The game keeps the mixer within its range.  With a [hypot] that is
    never negative, in a game that has run for any number of frames the
    three channel volumes lie between 0 and 0.7, every volume that was
    handed to [set_volume] lay there, and every channel operation was on
    one of the channels 1, 2, 3. *)
Theorem game_volumes_in_range be rng frames :
  (∀ x y, 0 <= math_hypot x y)%Q →
  ∃ g0 g',
    Game.init be rng = Some g0
    ∧ Game.run be frames g0 = Some g'
    ∧ volumes_ok (self (Game.sound g'))
    ∧ Forall (event_ok (λ v, 0 <= v <= 7 # 10)%Q) (events (Game.sound g')).
Proof.
  intros Hhyp.
  destruct (game_init_ok be rng) as (g0 & Hinit & Hok0 & _).
  destruct (game_run_ok be frames g0 Hok0) as (g' & Hrun & _).
  exists g0, g'. split; [done|]. split; [done|].
  destruct (game_run_calls be frames g0 g' Hhyp Hrun) as (cs & Hcs & Hcalls).
  rewrite (game_init_calls be rng g0 Hinit) in Hcalls.
  destruct (run_calls_inv (λ v, 0 <= v <= 7 # 10)%Q be
              (CallLoadLevel "ruins" :: cs) (initial_world be rng))
    as (w' & es & Hrun' & _ & Hvol & _ & _ & Hev & Hes).
  - split; discriminate.
  - constructor; [done|].
    eapply Forall_impl; [exact Hcs|]. intros c Hc x Hx.
    destruct c as [| |s near]; try done. cbn in Hc.
    destruct (base_vol_range s near Hc). split; lra.
  - split; [done|]. cbn. unfold SoundManager_init. cbn.
    by destruct (bool_decide _).
  - by repeat constructor.
  - cbn [run_calls run_call mbind option_bind] in Hrun'.
    rewrite Hcalls in Hrun'. injection Hrun' as <-.
    split; [done|]. by rewrite Hev.
Qed.

(** X21: Closing the window ends the loop after the frame in which it is seen:
    the other events of that frame are still handled and the frame is
    still updated, and no later frame runs. *)
Theorem quit_ends_the_run be evs frames (g : Game.t) :
  game_ok g → Game.running g = true → Game.QUIT ∈ evs →
  ∃ g', Game.frame be evs g = Some g'
        ∧ Game.running g' = false
        ∧ Game.run be (evs :: frames) g = Some g'.
Proof.
  intros Hok Hrun Hquit. cbn [Game.run]. rewrite Hrun. unfold Game.frame.
  destruct (handle_events_ok be evs g Hok) as (g1 & H1 & Hok1).
  destruct (handle_events_calls be evs g g1 H1) as [_ Hr1].
  rewrite decide_True in Hr1 by done.
  destruct (game_update_ok g1 Hok1) as (g2 & H2 & _ & Hr2).
  rewrite H1. cbn [mbind option_bind]. rewrite H2. cbn [mbind option_bind].
  exists g2. split; [done|]. split; [congruence|].
  destruct frames; cbn [Game.run]; [done|].
  by rewrite Hr2, Hr1.
Qed.

End GameProperties.

(** * Concrete runs of the further properties *)



Lemma tone_ends_silent_witness :
  get_init (device 22050 never_raises) = Some 22050
  ∧ 2 ≤ py_int ((5 # 1000) * inject_Z 22050)
  ∧ py_int ((5 # 1000) * inject_Z 22050) < py_int ((3 # 8) * inject_Z 22050)
  ∧ ∃ pulse, _pulse_wave (device 22050 never_raises) 440 (3 # 8) (1 # 2) 1
             = Some pulse
             ∧ pulse !! 0%nat = Some (0, 0)
             ∧ pulse !! (length pulse - 1)%nat = Some (0, 0).
Proof.
  assert (get_init (device 22050 never_raises) = Some 22050) as H1
    by reflexivity.
  assert (2 ≤ py_int ((5 # 1000) * inject_Z 22050)) as H2 by discriminate.
  assert (py_int ((5 # 1000) * inject_Z 22050)
          < py_int ((3 # 8) * inject_Z 22050)) as H3 by reflexivity.
  split; [exact H1|]. split; [exact H2|]. split; [exact H3|].
  destruct (tone_ends_silent (device 22050 never_raises) 22050 440 (3 # 8)
              (1 # 2) 1 H1 H2 H3) as (pulse & _ & Hp & _ & Hf & Hl & _).
  exists pulse. split; [exact Hp|]. split; [exact Hf|exact Hl].
Defined.



Lemma rests_are_silent_witness :
  let be := device 200 never_raises in
  theme_params "last"
  = ([65; 73; 65; 73], [220; 262; 330; 392; 0; 392; 330; 262], 200, 1 # 2)
  ∧ get_init be = Some 200
  ∧ ∃ bass melody drums g',
      @_generate_famicom_loop approx_numpy be (SoundManager_init be) "last"
        4 constant_stream = (Some (bass, melody, drums), g')
      ∧ melody !! 240%nat = Some (0, 0)
      ∧ drums !! 120%nat = Some (0, 0).
Proof.
  intros be.
  assert (theme_params "last"
          = ([65; 73; 65; 73], [220; 262; 330; 392; 0; 392; 330; 262],
             200, 1 # 2)) as H1 by reflexivity.
  assert (get_init be = Some 200) as H2 by reflexivity.
  split; [exact H1|]. split; [exact H2|].
  destruct (@_generate_famicom_loop approx_numpy be (SoundManager_init be)
              "last" 4 constant_stream)
    as [[[[bass melody] drums]|] g'] eqn:H3;
    [|vm_compute in H3; discriminate H3].
  assert ((480, 800)%nat = (length melody, length drums)) as Hl.
  { pose proof (f_equal (λ r : option (Sound * Sound * Sound) * Rng,
                   match r.1 with
                   | Some (_, m, d) => (length m, length d)
                   | None => (0%nat, 0%nat)
                   end) H3) as E.
    vm_compute in E. exact E. }
  injection Hl as Hlm Hld.
  destruct (@rests_are_silent approx_numpy be (SoundManager_init be) "last" 4
              constant_stream bass melody drums g' _ _ _ _ 200 H1 H2 H3)
    as (_ & Hm & Hd).
  exists bass, melody, drums, g'. split; [reflexivity|]. split.
  - apply (Hm 4%nat 0%nat); [reflexivity|vm_compute; lia|].
    rewrite <- Hlm. vm_compute. lia.
  - apply (Hd 2%nat 0%nat); [by left|vm_compute; lia|].
    rewrite <- Hld. vm_compute. lia.
Defined.

Lemma calls_never_raise_witness :
  let be := device 200 never_raises in
  manager_ok (self (initial_world be constant_stream))
  ∧ ∃ w', @run_calls approx_numpy be
            [CallUpdate 3 true; CallLoadLevel "last"; CallSetRoute "genocide";
             CallUpdate 0 false]
            (initial_world be constant_stream) = Some w'
          ∧ manager_ok (self w').
Proof.
  intros be.
  assert (manager_ok (self (initial_world be constant_stream))) as H1
    by (split; [reflexivity|intros _; reflexivity]).
  split; [exact H1|].
  exact (@calls_never_raise approx_numpy be
           [CallUpdate 3 true; CallLoadLevel "last"; CallSetRoute "genocide";
            CallUpdate 0 false]
           (initial_world be constant_stream) H1).
Defined.

Lemma cache_only_grows_witness :
  let be := device 200 never_raises in
  manager_ok (self world_on_last)
  ∧ ∃ loops w',
      proc_sounds (self world_on_last) !! "last" = Some loops
      ∧ @run_calls approx_numpy be
          [CallSetRoute "genocide"; CallUpdate 3 true; CallLoadLevel "core"]
          world_on_last = Some w'
      ∧ proc_sounds (self w') !! "last" = Some loops.
Proof.
  intros be.
  assert (manager_ok (self world_on_last)) as H1
    by (split; [vm_compute; reflexivity|intros _; vm_compute; reflexivity]).
  split; [exact H1|].
  destruct (proc_sounds (self world_on_last) !! "last") as [loops|] eqn:H3;
    [|vm_compute in H3; discriminate H3].
  destruct (@run_calls approx_numpy be
              [CallSetRoute "genocide"; CallUpdate 3 true;
               CallLoadLevel "core"] world_on_last) as [w'|] eqn:H2;
    [|vm_compute in H2; discriminate H2].
  exists loops, w'. split; [reflexivity|]. split; [reflexivity|].
  exact (@cache_only_grows approx_numpy be _ world_on_last w' "last" loops
           H1 H2 H3).
Defined.

Lemma volumes_stay_in_range_witness :
  let be := device 200 never_raises in
  let w := initial_world be constant_stream in
  let cs := [CallLoadLevel "last"; CallUpdate 3 true; CallUpdate 0 false] in
  manager_ok (self w)
  ∧ volumes_ok (self w)
  ∧ Forall (event_ok (λ v, 0 <= v <= 7 # 10)%Q) (events w)
  ∧ Forall speed_nonneg cs
  ∧ ∃ w', @run_calls approx_numpy be cs w = Some w' ∧ volumes_ok (self w').
Proof.
  intros be w cs.
  assert (manager_ok (self w)) as H1
    by (split; [reflexivity|intros _; reflexivity]).
  assert (volumes_ok (self w)) as H2
    by (repeat constructor; discriminate).
  assert (Forall (event_ok (λ v, 0 <= v <= 7 # 10)%Q) (events w)) as H3
    by constructor.
  assert (Forall speed_nonneg cs) as H4
    by (repeat constructor; discriminate).
  split; [exact H1|]. split; [exact H2|]. split; [exact H3|].
  split; [exact H4|].
  destruct (@volumes_stay_in_range approx_numpy be cs w H1 H2 H3 H4)
    as (w' & Hrun & _ & Hvol & _).
  exists w'. split; [exact Hrun|exact Hvol].
Defined.

Lemma switch_stops_before_playing_witness :
  let be := device 200 never_raises in
  let w := initial_world be constant_stream in
  manager_ok (self w)
  ∧ mixer_available (self w) = true
  ∧ current_level (self w) ≠ Some "last"
  ∧ mixer_available (self world_on_last) = true
  ∧ ∃ bass melody drums,
      events world_on_last
      = [EvStop 1; EvStop 2; EvStop 3; EvGenerate "last";
         EvPlay 1 bass; EvPlay 2 melody; EvPlay 3 drums].
Proof.
  intros be w.
  assert (manager_ok (self w)) as H1
    by (split; [reflexivity|intros _; reflexivity]).
  assert (mixer_available (self w) = true) as H2 by reflexivity.
  assert (current_level (self w) ≠ Some "last") as H3 by discriminate.
  assert (mixer_available (self world_on_last) = true) as H4
    by (vm_compute; reflexivity).
  split; [exact H1|]. split; [exact H2|]. split; [exact H3|].
  split; [exact H4|].
  destruct (@switch_stops_before_playing approx_numpy be "last" w
              H1 H2 H3 H4) as (bass & melody & drums & gen & _ & Hgen & Hev).
  exists bass, melody, drums.
  destruct Hgen as [[_ Hhit]|[-> _]]; [discriminate Hhit|exact Hev].
Defined.

Lemma cached_theme_is_not_regenerated_witness :
  let be := device 200 never_raises in
  let w := @load_level approx_numpy be "core" world_on_last in
  manager_ok (self w)
  ∧ mixer_available (self w) = true
  ∧ current_level (self w) ≠ Some "last"
  ∧ (∃ loops, proc_sounds (self w) !! "last" = Some loops)
  ∧ np_random (@load_level approx_numpy be "last" w) = np_random w
  ∧ proc_sounds (self (@load_level approx_numpy be "last" w))
    = proc_sounds (self w).
Proof.
  intros be w.
  assert (manager_ok (self w)) as H1
    by (split; [vm_compute; reflexivity|intros _; vm_compute; reflexivity]).
  assert (mixer_available (self w) = true) as H2
    by (vm_compute; reflexivity).
  assert (current_level (self w) ≠ Some "last") as H3
    by (vm_compute; discriminate).
  destruct (proc_sounds (self w) !! "last") as [[[bass melody] drums]|]
    eqn:H4; [|vm_compute in H4; discriminate H4].
  split; [exact H1|]. split; [exact H2|]. split; [exact H3|].
  split; [by eexists|].
  destruct (@cached_theme_is_not_regenerated approx_numpy be "last" w
              bass melody drums H1 H2 H3 H4) as (Hrng & Hcache & _).
  split; [exact Hrng|exact Hcache].
Defined.

Lemma player_stays_out_of_walls_witness :
  let walls := [Wall.new 32 16; Wall.new 16 32] in
  let c := Cat.set_vy 3 (Cat.set_vx 3 (Cat.new 14 16)) in
  Forall wall_tile walls
  ∧ tile_sized (Cat.rect c)
  ∧ - 16 < Cat.vx c < 16 ∧ - 16 < Cat.vy c < 16
  ∧ clear_of walls (Cat.rect c)
  ∧ clear_of walls (Cat.rect (Cat.update walls c))
  ∧ Cat.rect (Cat.update walls c) = Rect.tile 16 16.
Proof.
  intros walls c.
  assert (Forall wall_tile walls) as H1 by (repeat constructor).
  assert (tile_sized (Cat.rect c)) as H2 by (split; reflexivity).
  assert (- 16 < Cat.vx c < 16) as H3 by (cbn; lia).
  assert (- 16 < Cat.vy c < 16) as H4 by (cbn; lia).
  assert (clear_of walls (Cat.rect c)) as H5 by (repeat constructor).
  split; [exact H1|]. split; [exact H2|]. split; [exact H3|].
  split; [exact H4|]. split; [exact H5|].
  split; [|reflexivity].
  exact (proj1 (player_stays_out_of_walls walls c H1 H2 H3 H4 H5)).
Defined.

Lemma player_moves_freely_witness :
  let walls := [Wall.new 32 16; Wall.new 16 32] in
  let c := Cat.set_vy (- 3) (Cat.set_vx (- 3) (Cat.new 14 16)) in
  clear_of walls (Rect.set_x (Rect.x (Cat.rect c) + Cat.vx c) (Cat.rect c))
  ∧ clear_of walls
      (Rect.set_y (Rect.y (Cat.rect c) + Cat.vy c)
         (Rect.set_x (Rect.x (Cat.rect c) + Cat.vx c) (Cat.rect c)))
  ∧ Cat.rect (Cat.update walls c) = Rect.tile 11 13.
Proof.
  intros walls c.
  assert (clear_of walls
            (Rect.set_x (Rect.x (Cat.rect c) + Cat.vx c) (Cat.rect c)))
    as H1 by (repeat constructor).
  assert (clear_of walls
            (Rect.set_y (Rect.y (Cat.rect c) + Cat.vy c)
               (Rect.set_x (Rect.x (Cat.rect c) + Cat.vx c) (Cat.rect c))))
    as H2 by (repeat constructor).
  split; [exact H1|]. split; [exact H2|].
  rewrite (player_moves_freely walls c H1 H2). reflexivity.
Defined.

Lemma enemy_turns_at_walls_witness :
  let walls := [Wall.new 0 16; Wall.new 48 16] in
  let e := Enemy.new 32 16 "ruins" in
  let e0 := Enemy.new 20 16 "ruins" in
  clear_of walls (Enemy.rect e) ∧ clear_of walls (Enemy.rect e0)
  ∧ 0 < Rect.left (Enemy.rect (Enemy.step e))
  ∧ Rect.right (Enemy.rect (Enemy.step e)) < GBA_WIDTH
  ∧ 0 < Rect.left (Enemy.rect (Enemy.step e0))
  ∧ Rect.right (Enemy.rect (Enemy.step e0)) < GBA_WIDTH
  ∧ Wall.new 48 16 ∈ walls
  ∧ Rect.colliderect (Enemy.rect (Enemy.step e)) (Wall.rect (Wall.new 48 16))
    = true
  ∧ clear_of walls (Enemy.rect (Enemy.step e0))
  ∧ Enemy.update walls e = Enemy.set_direction (- 1) e
  ∧ Enemy.update walls e0 = Enemy.new 21 16 "ruins".
Proof.
  intros walls e e0.
  assert (clear_of walls (Enemy.rect e)) as H1 by (repeat constructor).
  assert (clear_of walls (Enemy.rect e0)) as H1' by (repeat constructor).
  assert (0 < Rect.left (Enemy.rect (Enemy.step e))) as H2 by reflexivity.
  assert (Rect.right (Enemy.rect (Enemy.step e)) < GBA_WIDTH) as H3
    by reflexivity.
  assert (0 < Rect.left (Enemy.rect (Enemy.step e0))) as H2' by reflexivity.
  assert (Rect.right (Enemy.rect (Enemy.step e0)) < GBA_WIDTH) as H3'
    by reflexivity.
  assert (Wall.new 48 16 ∈ walls) as H4 by (right; left).
  assert (Rect.colliderect (Enemy.rect (Enemy.step e))
            (Wall.rect (Wall.new 48 16)) = true) as H5 by reflexivity.
  assert (clear_of walls (Enemy.rect (Enemy.step e0))) as H6
    by (repeat constructor).
  split; [exact H1|]. split; [exact H1'|]. split; [exact H2|].
  split; [exact H3|]. split; [exact H2'|]. split; [exact H3'|].
  split; [exact H4|]. split; [exact H5|]. split; [exact H6|]. split.
  - exact (proj2 (proj2 (enemy_turns_at_walls walls e H1 H2 H3)) _ H4 H5).
  - exact (proj1 (proj2 (enemy_turns_at_walls walls e0 H1' H2' H3')) H6).
Defined.

Lemma level_key_cycles_witness :
  ∃ g0 g',
    @Game.init approx_numpy no_device constant_stream = Some g0
    ∧ game_ok g0
    ∧ @Game.handle_events approx_numpy no_device
        (replicate 6 (Game.KEYDOWN Game.K_n)) g0 = Some g'
    ∧ Game.current_level_idx g' = 0%nat
    ∧ Game.level g' = "ruins".
Proof.
  destruct (@game_init_ok approx_numpy no_device constant_stream)
    as (g0 & Hinit & H1 & _).
  destruct (@level_key_cycles approx_numpy no_device 6 g0 H1)
    as (g' & Hrun & _ & Hidx & Hlevel).
  exists g0, g'. split; [exact Hinit|]. split; [exact H1|].
  split; [exact Hrun|].
  assert (Game.current_level_idx g0 = 0%nat ∧ Game.level g0 = "ruins")
    as [Hi0 Hl0].
  { vm_compute in Hinit. injection Hinit as <-. split; reflexivity. }
  split; [by rewrite Hidx, Hi0|]. by rewrite (Hlevel eq_refl).
Defined.

Lemma game_volumes_in_range_witness :
  (∀ x y, 0 <= @math_hypot approx_math x y)%Q
  ∧ ∃ g0 g',
      @Game.init approx_numpy (device 200 never_raises) constant_stream
      = Some g0
      ∧ @Game.run approx_numpy approx_math (device 200 never_raises)
          [[Game.KEYDOWN Game.K_RIGHT]; []; [Game.KEYDOWN Game.K_n];
           [Game.KEYUP Game.K_RIGHT; Game.KEYDOWN Game.K_g]] g0 = Some g'
      ∧ volumes_ok (self (Game.sound g')).
Proof.
  assert (∀ x y, 0 <= @math_hypot approx_math x y)%Q as H1.
  { intros x y. cbn. change 0%Q with (inject_Z 0). rewrite <- Zle_Qle.
    apply Z.sqrt_nonneg. }
  split; [exact H1|].
  destruct (@game_volumes_in_range approx_numpy approx_math
              (device 200 never_raises) constant_stream
              [[Game.KEYDOWN Game.K_RIGHT]; []; [Game.KEYDOWN Game.K_n];
               [Game.KEYUP Game.K_RIGHT; Game.KEYDOWN Game.K_g]] H1)
    as (g0 & g' & Hinit & Hrun & Hvol & _).
  exists g0, g'. split; [exact Hinit|]. split; [exact Hrun|exact Hvol].
Defined.

Lemma quit_ends_the_run_witness :
  ∃ g0 g',
    @Game.init approx_numpy no_device constant_stream = Some g0
    ∧ game_ok g0 ∧ Game.running g0 = true
    ∧ Game.QUIT ∈ [Game.KEYDOWN Game.K_LEFT; Game.QUIT]
    ∧ @Game.run approx_numpy approx_math no_device
        [[Game.KEYDOWN Game.K_LEFT; Game.QUIT]; [Game.KEYDOWN Game.K_n]] g0
      = Some g'
    ∧ Game.running g' = false
    ∧ Game.level g' = "ruins".
Proof.
  destruct (@game_init_ok approx_numpy no_device constant_stream)
    as (g0 & Hinit & H1 & H2).
  assert (Game.QUIT ∈ [Game.KEYDOWN Game.K_LEFT; Game.QUIT]) as H3
    by (right; left).
  destruct (@quit_ends_the_run approx_numpy approx_math no_device
              [Game.KEYDOWN Game.K_LEFT; Game.QUIT]
              [[Game.KEYDOWN Game.K_n]] g0 H1 H2 H3)
    as (g' & _ & Hoff & Hrun).
  exists g0, g'. split; [exact Hinit|]. split; [exact H1|].
  split; [exact H2|]. split; [exact H3|]. split; [exact Hrun|].
  split; [exact Hoff|].
  vm_compute in Hinit. injection Hinit as <-.
  vm_compute in Hrun. injection Hrun as <-. reflexivity.
Defined.

(** Where rounding decides.  At 441 Hz over half a second the exact phase
    of sample 5525 is one half, which is not below a duty of 0.5, and yet
    the sample is positive: the binary64 product [t * freq] falls just below
    110.5.  For the note 330 of the "snowdin" melody the exact phase of
    sample 735 is 0, below the duty of 0.25, and the sample is negative:
    the binary64 product falls just below an integer.  The triangle at
    110 Hz gives -4680 at sample 945, one unit less in magnitude than the
    truncation of the exact product. *)
Example rounding_samples_22050 :
  Binary64.rounding_samples = [Some 32767; Some (-13106); Some (-4680)]
  ∧ (py_mod1 (5525 * ((1 # 2) / 11025) * 441) == 1 # 2)%Q
  ∧ (py_mod1 (735 * ((60 # 140) / 9450) * 330) == 0)%Q.
Proof. repeat split; vm_compute; reflexivity. Qed.
